(** * generate_keymap: a ZMK keymap rendered as a markdown diagram

    A shallow embedding of [scripts/generate_keymap.py] and the properties
    its specification states about it.

    Python strings are sequences of Unicode code points; the embedding keeps
    them as lists of code points so that slicing ([s[:6]], [s[3:]]), padding
    ([str.center]) and searching count characters the way Python does.

    What the script leaves to the interpreter and to the system is explicit:
    the character tables and the limit of [int] are parameters, and so are
    the line separator and the encodings of text files and of the standard
    output; the files are a part of the state, with the ways in which
    looking up, reading and writing one can fail. *)

From Stdlib Require Import Ascii String.
From Stdlib Require Import List NArith Arith Bool Lia Permutation Sorted.
Import ListNotations.

Set Implicit Arguments.

Abbreviation length := Datatypes.length (only parsing).

(** ** Python values used by the script *)

Module Py.

(** A [str]: its code points, in order. *)
Definition str := list N.

(** Literals are written as in the source; the file is UTF-8, so a literal
    is decoded from its bytes ([pending] continuation bytes are still due
    for the code point being assembled in [acc]). *)
Fixpoint utf8_decode (pending : nat) (acc : N) (bytes : string) : str :=
  match bytes with
  | EmptyString => []
  | String a rest =>
      let b := N_of_ascii a in
      match pending with
      | O =>
          if (b <? 0x80)%N then b :: utf8_decode 0 0%N rest
          else if (b <? 0xE0)%N then utf8_decode 1 (b - 0xC0)%N rest
          else if (b <? 0xF0)%N then utf8_decode 2 (b - 0xE0)%N rest
          else utf8_decode 3 (b - 0xF0)%N rest
      | S O => (acc * 64 + (b - 0x80))%N :: utf8_decode 0 0%N rest
      | S p => utf8_decode p (acc * 64 + (b - 0x80))%N rest
      end
  end.

Definition u (literal : string) : str := utf8_decode 0 0%N literal.

Arguments u literal%_string.

(** [len(s)], [s[:n]] and [s[n:]] are [length], [firstn n] and [skipn n]. *)

(** [c.isspace()] for one code point: CPython's [_PyUnicode_IsWhitespace].
    [str.strip()], [str.split()] and the regular expression class [\s] all
    use this set. *)
Definition isspace (c : N) : bool :=
  ((0x09 <=? c) && (c <=? 0x0D) || (0x1C <=? c) && (c <=? 0x20)
   || (c =? 0x85) || (c =? 0xA0) || (c =? 0x1680)
   || (0x2000 <=? c) && (c <=? 0x200A)
   || (c =? 0x2028) || (c =? 0x2029) || (c =? 0x202F) || (c =? 0x205F)
   || (c =? 0x3000))%N.

(** Removal of the leading (trailing) characters that satisfy [p]. *)
Fixpoint lstrip_by (p : N -> bool) (s : str) : str :=
  match s with
  | c :: s' => if p c then lstrip_by p s' else s
  | [] => []
  end.

Definition rstrip_by (p : N -> bool) (s : str) : str :=
  rev (lstrip_by p (rev s)).

(** [s.strip()] *)
Definition strip (s : str) : str := rstrip_by isspace (lstrip_by isspace s).

(** [s.lstrip(chars)]: every leading character that occurs in [chars] goes. *)
Definition lstrip (chars : str) (s : str) : str :=
  lstrip_by (fun c => existsb (N.eqb c) chars) s.

(** [s.startswith(prefix)] *)
Fixpoint startswith (s prefix : str) {struct prefix} : bool :=
  match prefix, s with
  | [], _ => true
  | a :: prefix', b :: s' => (a =? b)%N && startswith s' prefix'
  | _ :: _, [] => false
  end.

(** [s.split()]: the maximal runs of non-whitespace characters. [word] is
    the run being read, most recent character first. *)
Fixpoint split_ws_from (word : str) (s : str) : list str :=
  match s with
  | [] => match word with [] => [] | _ => [rev word] end
  | c :: s' =>
      if isspace c then
        match word with
        | [] => split_ws_from [] s'
        | _ => rev word :: split_ws_from [] s'
        end
      else split_ws_from (c :: word) s'
  end.

Definition split_ws (s : str) : list str := split_ws_from [] s.

(** [sep.join(items)] *)
Fixpoint join (sep : str) (items : list str) : str :=
  match items with
  | [] => []
  | [x] => x
  | x :: rest => x ++ sep ++ join sep rest
  end.

(** [s.center(width)] with the default fill character, a space. CPython
    computes the left margin as [marg / 2 + (marg & width & 1)]. *)
Definition center (s : str) (width : nat) : str :=
  if width <=? length s then s
  else
    let marg := width - length s in
    let left := marg / 2 + Nat.land (Nat.land marg width) 1 in
    repeat 0x20%N left ++ s ++ repeat 0x20%N (marg - left).

(** [s.replace(old, new)] for one-character [old] and [new]. *)
Definition replace_char (old new : N) (s : str) : str :=
  map (fun c => if (c =? old)%N then new else c) s.

(** [s.find(sub)]: the offset of the first occurrence of [sub] in [s]. *)
Fixpoint find (s sub : str) : option nat :=
  if startswith s sub then Some 0
  else match s with
       | [] => None
       | _ :: s' => option_map S (find s' sub)
       end.

(** [sub in s] *)
Definition contains (s sub : str) : bool :=
  match find s sub with Some _ => true | None => false end.

(** Equality of strings, and lookup in a dictionary given by its literal. *)
Fixpoint str_eqb (a b : str) : bool :=
  match a, b with
  | [], [] => true
  | x :: a', y :: b' => (x =? y)%N && str_eqb a' b'
  | _, _ => false
  end.

Fixpoint dict_get {V : Type} (d : list (str * V)) (key : str) : option V :=
  match d with
  | [] => None
  | (k, v) :: d' => if str_eqb k key then Some v else dict_get d' key
  end.

(** [d[key] = value]: an existing key keeps its place in the insertion
    order, a new key goes last. *)
Fixpoint dict_set {V : Type} (d : list (str * V)) (key : str) (value : V)
  : list (str * V) :=
  match d with
  | [] => [(key, value)]
  | (k, v) :: d' =>
      if str_eqb k key then (k, value) :: d'
      else (k, v) :: dict_set d' key value
  end.

(** *** Exceptions *)

Inductive exn : Type :=
| IndexError
| AttributeError
| ValueError
| KeyError
| OSError
| FileNotFoundError
| IsADirectoryError
| PermissionError
| UnicodeDecodeError
| UnicodeEncodeError.

(** A computation that returns a value or raises. *)
Inductive result (A : Type) : Type :=
| Ret (a : A)
| Raise (e : exn).

Arguments Ret {A} a.
Arguments Raise {A} e.

Definition bind {A B : Type} (c : result A) (k : A -> result B) : result B :=
  match c with
  | Ret a => k a
  | Raise e => Raise e
  end.

(** [l[i]] for a non-negative index *)
Definition index {A : Type} (l : list A) (i : nat) : result A :=
  match nth_error l i with
  | Some x => Ret x
  | None => Raise IndexError
  end.

(** A list comprehension whose element expression may raise. *)
Fixpoint for_each {A B : Type} (f : A -> result B) (l : list A)
  : result (list B) :=
  match l with
  | [] => Ret []
  | x :: l' =>
      bind (f x) (fun y => bind (for_each f l') (fun ys => Ret (y :: ys)))
  end.

(** [s.split(sep)]: [s] is cut at the successive non-overlapping occurrences
    of [sep], found left to right; an empty separator raises. Every cut
    removes at least one character, so [length s] rounds are enough. *)
Fixpoint split_rounds (rounds : nat) (s sep : str) : list str :=
  match find s sep, rounds with
  | Some i, S rounds' =>
      firstn i s :: split_rounds rounds' (skipn (i + length sep) s) sep
  | _, _ => [s]
  end.

Definition split (s sep : str) : result (list str) :=
  match sep with
  | [] => Raise ValueError
  | _ => Ret (split_rounds (length s) s sep)
  end.

(** *** The interpreter and the system it runs on

    What the script leaves to its surroundings: the limit that [int] puts
    on the length of a number, the line separator of the system, and the
    texts that the encoding of a text file and that of the standard output
    can represent. *)
Record platform : Type := {
  (** [sys.get_int_max_str_digits()]: 4300 unless the interpreter was
      started otherwise, 0 for no limit *)
  int_max_str_digits : nat;
  (** [os.name == "nt"]: [os.linesep] is CR LF instead of LF, and a
      directory opened as a file is refused with [PermissionError] *)
  windows : bool;
  (** a text handed to [write] on a text file can be encoded ([open]'s
      default encoding, errors strict) *)
  file_accepts : str -> bool;
  (** a text handed to [print] can be encoded for [sys.stdout] *)
  stdout_accepts : str -> bool
}.

(** UTF-8 represents every code point but the surrogates. *)
Definition utf8_accepts (s : str) : bool :=
  forallb (fun c => negb ((0xD800 <=? c) && (c <=? 0xDFFF))%N) s.

(** A POSIX system in a UTF-8 locale, the interpreter as it comes. *)
Definition posix_utf8 : platform :=
  {| int_max_str_digits := 4300;
     windows := false;
     file_accepts := utf8_accepts;
     stdout_accepts := utf8_accepts |}.

(** The check of [PyLong_FromString] on a string of [n] digits: strings of
    up to 640 digits always pass, longer ones pass when there is no limit
    (0) or when they are within it. *)
Definition too_many_digits (max_str_digits n : nat) : bool :=
  (640 <? n) && (0 <? max_str_digits) && (max_str_digits <? n).

(** *** The Unicode character database

    The interpreter's tables for the characters above ASCII are not part of
    the script. ASCII is written out below; for any other code point the
    functions consult a database that the development takes as given. *)
Record unicode_db : Type := {
  (** the digit value of a decimal digit (category Nd) *)
  db_decimal : N -> option N;
  (** the full title-case mapping of a character *)
  db_title : N -> str;
  (** the full lower-case mapping of the character at an offset of a
      string (the offset matters for a final sigma) *)
  db_lower : str -> nat -> N -> str
}.

(** A database that knows no cased character and no digit above ASCII; it
    is enough to run the script on ASCII input. *)
Definition ascii_db : unicode_db :=
  {| db_decimal := fun _ => None;
     db_title := fun c => [c];
     db_lower := fun _ _ c => [c] |}.

Definition is_ascii (c : N) : bool := (c <? 0x80)%N.

Definition ascii_isupper (c : N) : bool := ((0x41 <=? c) && (c <=? 0x5A))%N.
Definition ascii_islower (c : N) : bool := ((0x61 <=? c) && (c <=? 0x7A))%N.
Definition ascii_isalpha (c : N) : bool := ascii_isupper c || ascii_islower c.
Definition ascii_upper (c : N) : N := if ascii_islower c then (c - 0x20)%N else c.
Definition ascii_lower (c : N) : N := if ascii_isupper c then (c + 0x20)%N else c.

Section Unicode.

Variable db : unicode_db.

(** The value of [c] as a decimal digit, if it is one: [\d] and [int]. *)
Definition decimal (c : N) : option N :=
  if is_ascii c then
    if ((0x30 <=? c) && (c <=? 0x39))%N then Some (c - 0x30)%N else None
  else db_decimal db c.

Definition isdecimal (c : N) : bool :=
  match decimal c with Some _ => true | None => false end.

Definition to_title (c : N) : str :=
  if is_ascii c then [ascii_upper c] else db_title db c.

Definition to_lower (s : str) (i : nat) (c : N) : str :=
  if is_ascii c then [ascii_lower c] else db_lower db s i c.

(** The lower-case mappings of the characters of [rest], which sit at the
    offsets [i], [i+1], ... of [s]. *)
Fixpoint lower_from (s : str) (i : nat) (rest : str) : str :=
  match rest with
  | [] => []
  | c :: rest' => to_lower s i c ++ lower_from s (S i) rest'
  end.

(** [s.capitalize()]: the first character in title case, every other one in
    lower case. *)
Definition capitalize (s : str) : str :=
  match s with
  | [] => []
  | c :: rest => to_title c ++ lower_from s 1 rest
  end.

(** [int(digits)] for a string of decimal digits (the only strings the
    script converts; any other is refused here). A string with too many
    digits for the interpreter's limit is refused as well, see
    [too_many_digits]; integers themselves are unbounded. *)
Fixpoint int_from (acc : N) (digits : str) : result N :=
  match digits with
  | [] => Ret acc
  | c :: digits' =>
      match decimal c with
      | Some d => int_from (acc * 10 + d)%N digits'
      | None => Raise ValueError
      end
  end.

Definition int (max_str_digits : nat) (digits : str) : result N :=
  match digits with
  | [] => Raise ValueError
  | _ =>
      if too_many_digits max_str_digits (length digits) then Raise ValueError
      else int_from 0%N digits
  end.

End Unicode.

End Py.

Import Py.

Notation "x <- c ;; k" := (bind c (fun x => k))
  (at level 61, c at next level, right associativity).

(** ** Regular expressions

    The fragment of Python's [re] that the script's five patterns use:
    literals, character sets, sequence, alternation, capture groups, a
    lookahead, and greedy or lazy repetition of a character set (no pattern
    of the script repeats anything longer than one character). Matching is
    by backtracking, as in the [sre] engine: an alternation tries its left
    branch first, a greedy repetition its longest run first, a lazy one its
    shortest. *)

Module Re.

Inductive regex : Type :=
| Lit (l : str)                      (* the characters of [l], in order *)
| Set_ (p : N -> bool)               (* one character of a set *)
| Seq (r1 r2 : regex)
| Alt (r1 r2 : regex)                (* r1|r2 *)
| Star (greedy : bool) (p : N -> bool)  (* [p]* or [p]*? *)
| Group (i : nat) (r : regex)        (* the i-th pair of parentheses *)
| Lookahead (r : regex).             (* (?=r) *)

(** [p]+ *)
Definition Plus (p : N -> bool) : regex := Seq (Set_ p) (Star true p).

(** The text captured by each group, the most recent capture first. *)
Definition groups := list (nat * str).

Fixpoint group (g : groups) (i : nat) : option str :=
  match g with
  | [] => None
  | (j, t) :: g' => if Nat.eqb j i then Some t else group g' i
  end.

(** The repetitions. [k] is the rest of the match: it is given what the
    repetition leaves of the subject and answers [None] to ask for another
    try. *)
Fixpoint star_greedy {A : Type} (p : N -> bool) (s : str)
  (k : str -> option A) : option A :=
  match s with
  | c :: s' =>
      if p c then
        match star_greedy p s' k with
        | Some a => Some a
        | None => k s
        end
      else k s
  | [] => k s
  end.

Fixpoint star_lazy {A : Type} (p : N -> bool) (s : str)
  (k : str -> option A) : option A :=
  match k s with
  | Some a => Some a
  | None =>
      match s with
      | c :: s' => if p c then star_lazy p s' k else None
      | [] => None
      end
  end.

(** [exec r s g k]: match [r] at the start of [s], with the captures [g]
    made so far, then continue with [k]. *)
Fixpoint exec {A : Type} (r : regex) (s : str) (g : groups)
  (k : str -> groups -> option A) : option A :=
  match r with
  | Lit l => if startswith s l then k (skipn (length l) s) g else None
  | Set_ p =>
      match s with
      | c :: s' => if p c then k s' g else None
      | [] => None
      end
  | Seq r1 r2 => exec r1 s g (fun s1 g1 => exec r2 s1 g1 k)
  | Alt r1 r2 =>
      match exec r1 s g k with
      | Some a => Some a
      | None => exec r2 s g k
      end
  | Star true p => star_greedy p s (fun s' => k s' g)
  | Star false p => star_lazy p s (fun s' => k s' g)
  | Group i r1 =>
      exec r1 s g
        (fun s' g' => k s' ((i, firstn (length s - length s') s) :: g'))
  | Lookahead r1 =>
      match exec r1 s g (fun _ g' => Some g') with
      | Some g' => k s g'
      | None => None
      end
  end.

(** A match that starts exactly at the head of [s]: what is left of [s]
    after it, and its captures. With [must_advance] an empty match is
    refused (the engine sets the flag after an empty match, so that the
    next one is not found at the same place again). *)
Definition match_at (r : regex) (s : str) (must_advance : bool)
  : option (str * groups) :=
  exec r s []
    (fun s' g =>
       if must_advance && (length s' =? length s) then None
       else Some (s', g)).

(** One match in its context. *)
Record found : Type := {
  skipped : str;     (* the text between the previous match and this one *)
  text : str;        (* the matched text *)
  captures : groups
}.

(** [pattern.search]: the first position at or after the head of [s] where
    the pattern matches; the flag only holds for the first position tried.
    The result is the match and the text that follows it. *)
Fixpoint search (r : regex) (s : str) (must_advance : bool)
  : option (found * str) :=
  match match_at r s must_advance with
  | Some (s', g) =>
      Some ({| skipped := [];
               text := firstn (length s - length s') s;
               captures := g |}, s')
  | None =>
      match s with
      | [] => None
      | c :: t =>
          match search r t false with
          | Some (f, s') =>
              Some ({| skipped := c :: skipped f;
                       text := text f;
                       captures := captures f |}, s')
          | None => None
          end
      end
  end.

(** The loop shared by [findall], [sub] and [split]: search, record the
    match, go on from its end. It yields the matches and the text after the
    last one. A round either moves on in the subject or raises the flag, so
    [2 * length s + 2] rounds exhaust any subject. *)
Fixpoint scan (rounds : nat) (r : regex) (s : str) (must_advance : bool)
  : list found * str :=
  match rounds with
  | O => ([], s)
  | S rounds' =>
      match search r s must_advance with
      | None => ([], s)
      | Some (f, rest) =>
          let empty := match text f with [] => true | _ => false end in
          let '(fs, tail) := scan rounds' r rest empty in
          (f :: fs, tail)
      end
  end.

Definition finditer (r : regex) (s : str) : list found * str :=
  scan (2 * length s + 2) r s false.

(** The value of a group in a result: the empty string when the group took
    no part in the match. *)
Definition group_text (f : found) (i : nat) : str :=
  match group (captures f) i with
  | Some t => t
  | None => []
  end.

(** [re.findall] for a pattern with two groups: the pairs of their texts. *)
Definition findall2 (r : regex) (s : str) : list (str * str) :=
  map (fun f => (group_text f 1, group_text f 2)) (fst (finditer r s)).

(** [re.sub] with a replacement that has no group reference. *)
Definition sub (r : regex) (repl : str) (s : str) : str :=
  let '(fs, tail) := finditer r s in
  concat (map (fun f => skipped f ++ repl) fs) ++ tail.

(** [re.split] for a pattern without groups. *)
Definition split (r : regex) (s : str) : list str :=
  let '(fs, tail) := finditer r s in
  map skipped fs ++ [tail].

(** What a successful run of the engine has matched: [Matches r s g s' g']
    says that [r] can take a prefix of [s], leave [s'] and turn the
    captures [g] into [g']. *)
Inductive Matches : regex -> str -> groups -> str -> groups -> Prop :=
| M_Lit l s g :
    Matches (Lit l) (l ++ s) g s g
| M_Set (p : N -> bool) c s g :
    p c = true -> Matches (Set_ p) (c :: s) g s g
| M_Seq r1 r2 s g s1 g1 s2 g2 :
    Matches r1 s g s1 g1 -> Matches r2 s1 g1 s2 g2 ->
    Matches (Seq r1 r2) s g s2 g2
| M_Alt_l r1 r2 s g s' g' :
    Matches r1 s g s' g' -> Matches (Alt r1 r2) s g s' g'
| M_Alt_r r1 r2 s g s' g' :
    Matches r2 s g s' g' -> Matches (Alt r1 r2) s g s' g'
| M_Star greedy (p : N -> bool) m s g :
    forallb p m = true -> Matches (Star greedy p) (m ++ s) g s g
| M_Group i r s g s' g' :
    Matches r s g s' g' ->
    Matches (Group i r) s g s' ((i, firstn (length s - length s') s) :: g')
| M_Lookahead r s g s' g' :
    Matches r s g s' g' -> Matches (Lookahead r) s g s g'.

End Re.

(** ** The script *)

(** The line feed, the carriage return and the space, which a literal
    cannot spell here. *)
Definition LF : N := 0x0A%N.
Definition CR : N := 0x0D%N.
Definition SP : N := 0x20%N.

(** The one character of a one-character literal. *)
Definition ch (literal : string) : N := hd 0%N (u literal).

Arguments ch literal%_string.

(** Key display mappings for common ZMK keycodes *)
Definition KEY_DISPLAY : list (str * str) :=
  [ (* Letters *)
    (u "kp A", u "A"); (u "kp B", u "B"); (u "kp C", u "C");
    (u "kp D", u "D"); (u "kp E", u "E");
    (u "kp F", u "F"); (u "kp G", u "G"); (u "kp H", u "H");
    (u "kp I", u "I"); (u "kp J", u "J");
    (u "kp K", u "K"); (u "kp L", u "L"); (u "kp M", u "M");
    (u "kp N", u "N"); (u "kp O", u "O");
    (u "kp P", u "P"); (u "kp Q", u "Q"); (u "kp R", u "R");
    (u "kp S", u "S"); (u "kp T", u "T");
    (u "kp U", u "U"); (u "kp V", u "V"); (u "kp W", u "W");
    (u "kp X", u "X"); (u "kp Y", u "Y");
    (u "kp Z", u "Z");
    (* Numbers *)
    (u "kp N0", u "0"); (u "kp N1", u "1"); (u "kp N2", u "2");
    (u "kp N3", u "3"); (u "kp N4", u "4");
    (u "kp N5", u "5"); (u "kp N6", u "6"); (u "kp N7", u "7");
    (u "kp N8", u "8"); (u "kp N9", u "9");
    (* Modifiers *)
    (u "kp TAB", u "Tab"); (u "kp ESCAPE", u "Esc"); (u "kp ESC", u "Esc");
    (u "kp LEFT_CONTROL", u "Ctrl"); (u "kp LCTRL", u "Ctrl");
    (u "kp RIGHT_CONTROL", u "Ctrl");
    (u "kp LEFT_SHIFT", u "Shift"); (u "kp LSHFT", u "Shift");
    (u "kp RIGHT_SHIFT", u "Shift");
    (u "kp LEFT_ALT", u "Alt"); (u "kp LALT", u "Alt");
    (u "kp RIGHT_ALT", u "AltGr");
    (u "kp LGUI", u "GUI"); (u "kp RGUI", u "GUI");
    (u "kp SPACE", u "Space"); (u "kp BACKSPACE", u "Bksp");
    (u "kp RET", u "Enter"); (u "kp ENTER", u "Enter");
    (* Punctuation *)
    (u "kp SEMICOLON", u ";"); (u "kp SEMI", u ";"); (u "kp SQT", u "'");
    (u "kp APOS", u "'");
    (u "kp COMMA", u ","); (u "kp DOT", u "."); (u "kp FSLH", u "/");
    (u "kp SLASH", u "/");
    (u "kp BSLH", u "\"); (u "kp BACKSLASH", u "\");
    (u "kp LBKT", u "["); (u "kp RBKT", u "]"); (u "kp LBRC", u "{");
    (u "kp RBRC", u "}");
    (u "kp LPAR", u "("); (u "kp RPAR", u ")");
    (u "kp MINUS", u "-"); (u "kp EQUAL", u "="); (u "kp PLUS", u "+");
    (u "kp UNDER", u "_");
    (u "kp GRAVE", u "`"); (u "kp TILDE", u "~");
    (u "kp EXCL", u "!"); (u "kp AT", u "@"); (u "kp HASH", u "#");
    (u "kp DLLR", u "$");
    (u "kp PRCNT", u "%"); (u "kp CARET", u "^"); (u "kp AMPS", u "&");
    (u "kp ASTRK", u "*");
    (u "kp PIPE", u "|");
    (* Navigation *)
    (u "kp LEFT", u "←"); (u "kp RIGHT", u "→"); (u "kp UP", u "↑");
    (u "kp DOWN", u "↓");
    (u "kp HOME", u "Home"); (u "kp END", u "End"); (u "kp PG_UP", u "PgUp");
    (u "kp PG_DN", u "PgDn");
    (* Bluetooth *)
    (u "bt BT_CLR", u "BT Clr"); (u "bt BT_SEL 0", u "BT 0");
    (u "bt BT_SEL 1", u "BT 1");
    (u "bt BT_SEL 2", u "BT 2"); (u "bt BT_SEL 3", u "BT 3");
    (u "bt BT_SEL 4", u "BT 4");
    (* System *)
    (u "sys_reset", u "Reset"); (u "bootloader", u "Boot");
    (* Transparent/None *)
    (u "trans", u "▽"); (u "none", u "✕") ].

(** *** Files and the standard output

    What a path names. Of a regular file the model keeps the permissions of
    the process and the characters that the file's bytes decode to in the
    encoding of text files, [None] when they do not decode. A path is the
    name of one file: no two paths name the same one. *)
Inductive node : Type :=
| Unreachable (e : exn)   (* the look-up fails with [e]: a name that is too
                             long, a directory that may not be searched *)
| Directory
| File (readable writable : bool) (data : option str).

(** The files the script can see, by path ([None] where there is nothing),
    and what it has printed, one entry per call of [print]. *)
Record world : Type := {
  files : str -> option node;
  stdout : list str
}.

(** Text that is read has its line ends normalised: CR LF and a CR by
    itself become LF. [after_cr] says that the previous character was a
    CR, whose LF is out already. *)
Fixpoint universal_newlines_from (after_cr : bool) (s : str) : str :=
  match s with
  | [] => []
  | c :: s' =>
      if (c =? CR)%N then LF :: universal_newlines_from true s'
      else if (c =? LF)%N then
        if after_cr then universal_newlines_from false s'
        else LF :: universal_newlines_from false s'
      else c :: universal_newlines_from false s'
  end.

Definition universal_newlines (s : str) : str :=
  universal_newlines_from false s.

(** [os.linesep], which text that is written gets in place of each LF. *)
Definition linesep (pf : platform) : str :=
  if windows pf then [CR; LF] else [LF].

Definition newline_out (pf : platform) (s : str) : str :=
  flat_map (fun c => if (c =? LF)%N then linesep pf else [c]) s.

(** What opening a directory as a file raises. *)
Definition directory_error (pf : platform) : exn :=
  if windows pf then PermissionError else IsADirectoryError.

(** [path] now names [n]. *)
Definition store (w : world) (path : str) (n : node) : world :=
  {| files := fun p => if str_eqb p path then Some n else files w p;
     stdout := stdout w |}.

(** [print(line)]: the outcome and the world after the call. The line is
    encoded before any of it is written. *)
Definition print (pf : platform) (line : str) (w : world)
  : result unit * world :=
  if stdout_accepts pf line then
    (Ret tt, {| files := files w; stdout := stdout w ++ [line] |})
  else (Raise UnicodeEncodeError, w).

(** [Path(path).exists()]: true of whatever the path names; a failure of
    the look-up other than "nothing there" is raised. *)
Definition path_exists (w : world) (path : str) : result bool :=
  match files w path with
  | None => Ret false
  | Some (Unreachable e) => Raise e
  | Some _ => Ret true
  end.

(** [Path(path).read_text()]; reading changes nothing. *)
Definition read_text (pf : platform) (w : world) (path : str) : result str :=
  match files w path with
  | None => Raise FileNotFoundError
  | Some (Unreachable e) => Raise e
  | Some Directory => Raise (directory_error pf)
  | Some (File readable _ data) =>
      if readable then
        match data with
        | Some t => Ret (universal_newlines t)
        | None => Raise UnicodeDecodeError
        end
      else Raise PermissionError
  end.

(** [Path(path).write_text(t)]: the file is opened for writing, which
    empties it, then the text is encoded and written; a text that cannot
    be encoded leaves the file empty. A path that names nothing gets a new
    file. *)
Definition write_text (pf : platform) (w : world) (path t : str)
  : result unit * world :=
  let write (readable : bool) :=
    if file_accepts pf t then
      (Ret tt, store w path (File readable true (Some (newline_out pf t))))
    else
      (Raise UnicodeEncodeError, store w path (File readable true (Some [])))
  in
  match files w path with
  | None => write true
  | Some (Unreachable e) => (Raise e, w)
  | Some Directory => (Raise (directory_error pf), w)
  | Some (File readable writable _) =>
      if writable then write readable else (Raise PermissionError, w)
  end.

(** An exception that nothing catches ends the run with status 1. *)
Definition exit_status (outcome : result unit * world) : nat * world :=
  match outcome with
  | (Ret _, w) => (0, w)
  | (Raise _, w) => (1, w)
  end.

(** Stable sorting on a numeric key, as [sorted(..., key=...)] does it: an
    element goes in front of the first one whose key is not smaller. *)
Fixpoint insert_by_key {A : Type} (x : N * A) (l : list (N * A))
  : list (N * A) :=
  match l with
  | [] => [x]
  | y :: l' =>
      if (fst y <? fst x)%N then y :: insert_by_key x l' else x :: l
  end.

Fixpoint sort_by_key {A : Type} (l : list (N * A)) : list (N * A) :=
  match l with
  | [] => []
  | x :: l' => insert_by_key x (sort_by_key l')
  end.

(** [sorted(items, key=key)]: the keys are computed first, one call per
    item, then the items are ordered by them. *)
Definition sorted {A : Type} (key : A -> result N) (items : list A)
  : result (list A) :=
  keyed <- for_each (fun x => k <- key x ;; Ret (k, x)) items ;;
  Ret (map snd (sort_by_key keyed)).

Section Script.

(** The interpreter's character tables, its platform, and [pathlib]'s
    [Path(p).name]. *)
Variable db : unicode_db.
Variable pf : platform.
Variable path_name : str -> str.

(** [binding.strip().lstrip("&")]: the token as [parse_binding] looks at
    it. *)
Definition normalized (binding : str) : str := lstrip (u "&") (strip binding).

(** Convert a ZMK binding to a display string. *)
Definition parse_binding (binding : str) : result str :=
  let binding := normalized binding in
  (* Handle layer toggles *)
  if startswith binding (u "mo ") then
    layer_num <- index (split_ws binding) 1 ;;
    Ret (u "L" ++ layer_num)
  else if startswith binding (u "to ") then
    layer_num <- index (split_ws binding) 1 ;;
    Ret (u "TO" ++ layer_num)
  else if startswith binding (u "lt ") then
    let parts := split_ws binding in
    part <- index parts 1 ;;
    Ret (u "LT" ++ part)
  else
    (* Look up in display mappings *)
    match dict_get KEY_DISPLAY binding with
    | Some label => Ret label
    | None =>
        (* Handle kp with unknown key *)
        if startswith binding (u "kp ") then
          Ret (capitalize db (skipn 3 binding))
        else Ret (firstn 6 binding)  (* Truncate unknown bindings *)
    end.

(** The patterns of [parse_keymap]. *)

(** [//[^\n]*] *)
Definition line_comment : Re.regex :=
  Re.Seq (Re.Lit (u "//")) (Re.Star true (fun c => negb (c =? LF)%N)).

(** [/\*.*?\*/], with [re.DOTALL] *)
Definition block_comment : Re.regex :=
  Re.Seq (Re.Lit (u "/*"))
    (Re.Seq (Re.Star false (fun _ => true)) (Re.Lit (u "*/"))).

Definition not_brace (c : N) : bool :=
  negb ((c =? ch "{")%N || (c =? ch "}")%N).

(** [(Layer_\d+|layer_\d+)\s*\{[^{}]*?bindings\s*=\s*<\s*([^>]+)\s*>] *)
Definition layer_name_pattern : Re.regex :=
  Re.Alt (Re.Seq (Re.Lit (u "Layer_")) (Re.Plus (isdecimal db)))
         (Re.Seq (Re.Lit (u "layer_")) (Re.Plus (isdecimal db))).

Definition layer_pattern : Re.regex :=
  Re.Seq (Re.Group 1 layer_name_pattern)
 (Re.Seq (Re.Star true isspace)
 (Re.Seq (Re.Lit (u "{"))
 (Re.Seq (Re.Star false not_brace)
 (Re.Seq (Re.Lit (u "bindings"))
 (Re.Seq (Re.Star true isspace)
 (Re.Seq (Re.Lit (u "="))
 (Re.Seq (Re.Star true isspace)
 (Re.Seq (Re.Lit (u "<"))
 (Re.Seq (Re.Star true isspace)
 (Re.Seq (Re.Group 2 (Re.Plus (fun c => negb (c =? ch ">")%N)))
 (Re.Seq (Re.Star true isspace)
         (Re.Lit (u ">"))))))))))))).

(** [(?=&)] *)
Definition before_ampersand : Re.regex := Re.Lookahead (Re.Lit (u "&")).

(** [\d+] *)
Definition digits : Re.regex := Re.Plus (isdecimal db).

(** [int(re.search(r'\d+', x).group())] *)
Definition layer_number (x : str) : result N :=
  match Re.search digits x false with
  | None => Raise AttributeError
  | Some (f, _) => int db (int_max_str_digits pf) (Re.text f)
  end.

(** The comment-free text in which layers are looked for. *)
Definition strip_comments (content : str) : str :=
  let content_no_comments := Re.sub line_comment [] content in
  Re.sub block_comment [] content_no_comments.

(** The binding tokens of the text between the angle brackets. *)
Definition tokens (bindings_str : str) : list str :=
  let bindings_str := replace_char LF SP bindings_str in
  (* Split by & but keep the & *)
  let raw_bindings := Re.split before_ampersand bindings_str in
  map strip
    (filter (fun b => match strip b with [] => false | _ => true end)
       raw_bindings).

(** The body of the loop over the matches, on the dictionary [layers]. *)
Definition keep_full_layer (layers : list (str * list str)) (m : str * str)
  : list (str * list str) :=
  let '(layer_name, bindings_str) := m in
  let bindings := tokens bindings_str in
  (* Only include if it looks like a full layer *)
  if 36 <=? length bindings then dict_set layers layer_name bindings
  else layers.

(** The loop over the matches: the dictionary [layers] after it. *)
Definition collect_layers (matches : list (str * str))
  : list (str * list str) :=
  fold_left keep_full_layer matches [].

(** [layers[name]] *)
Definition getitem {V : Type} (d : list (str * V)) (key : str) : result V :=
  match dict_get d key with
  | Some v => Ret v
  | None => Raise KeyError
  end.

(** Parse a ZMK keymap file and extract layers. *)
Definition parse_keymap (content : str) : result (list (str * list str)) :=
  let content_no_comments := strip_comments content in
  (* Find all layer blocks with bindings *)
  let matches := Re.findall2 layer_pattern content_no_comments in
  let layers := collect_layers matches in
  (* Sort layers by number *)
  names <- sorted layer_number (map fst layers) ;;
  fold_left
    (fun acc name =>
       sorted_layers <- acc ;;
       bindings <- getitem layers name ;;
       Ret (dict_set sorted_layers name bindings))
    names (Ret []).

(** [[fmt(keys[i]) for i in range(start, start + count)]], where [fmt] centres
    a key in 7 columns. *)
Definition fmt (key : str) : str := center key 7.

Definition cells (keys : list str) (start count : nat) : result (list str) :=
  for_each (fun i => key <- index keys i ;; Ret (fmt key)) (seq start count).

(** [if len(keys) < 42: keys.extend([""] * (42 - len(keys)))]: Corne has 42
    keys total (6x3 + 3 thumb per side = 36 + 6). *)
Definition pad_keys (keys : list str) : list str :=
  if length keys <? 42 then keys ++ repeat [] (42 - length keys) else keys.

(** Format a layer for a Corne (3x6+3 split) keyboard. *)
Definition format_corne_layer (bindings : list str) (layer_name : str)
  : result str :=
  keys <- for_each parse_binding bindings ;;
  let keys := pad_keys keys in
  let bar := u "│" in
  (* Row 1 *)
  row1_left <- cells keys 0 6 ;;
  row1_right <- cells keys 6 6 ;;
  (* Row 2 *)
  row2_left <- cells keys 12 6 ;;
  row2_right <- cells keys 18 6 ;;
  (* Row 3 *)
  row3_left <- cells keys 24 6 ;;
  row3_right <- cells keys 30 6 ;;
  (* Thumb row *)
  thumb_left <- cells keys 36 3 ;;
  thumb_right <- cells keys 39 3 ;;
  let lines :=
    [ u "### " ++ layer_name;
      u "```";
      u "┌───────┬───────┬───────┬───────┬───────┬───────┐       ┌───────┬───────┬───────┬───────┬───────┬───────┐";
      u "│" ++ join bar row1_left ++ u "│       │" ++ join bar row1_right
        ++ u "│";
      u "├───────┼───────┼───────┼───────┼───────┼───────┤       ├───────┼───────┼───────┼───────┼───────┼───────┤";
      u "│" ++ join bar row2_left ++ u "│       │" ++ join bar row2_right
        ++ u "│";
      u "├───────┼───────┼───────┼───────┼───────┼───────┤       ├───────┼───────┼───────┼───────┼───────┼───────┤";
      u "│" ++ join bar row3_left ++ u "│       │" ++ join bar row3_right
        ++ u "│";
      u "└───────┴───────┴───────┼───────┼───────┼───────┤       ├───────┼───────┼───────┼───────┴───────┴───────┘";
      u "                        │" ++ join bar thumb_left ++ u "│       │"
        ++ join bar thumb_right ++ u "│";
      u "                        └───────┴───────┴───────┘       └───────┴───────┴───────┘";
      u "```" ] in
  Ret (join [LF] lines).

(** Generate markdown documentation for a keymap. *)
Definition generate_markdown (w : world) (keymap_path : str) : result str :=
  content <- read_text pf w keymap_path ;;
  layers <- parse_keymap content ;;
  let output :=
    [ u "## Keymap";
      [];
      u "*Auto-generated from [`" ++ path_name keymap_path ++ u "`](config/"
        ++ path_name keymap_path ++ u ")*";
      [];
      u "**Legend:** `▽` = Transparent (uses key from lower layer), `L#` = Momentary layer switch";
      [] ] in
  output <-
    fold_left
      (fun acc layer =>
         output <- acc ;;
         let '(layer_name, bindings) := layer in
         block <- format_corne_layer bindings layer_name ;;
         Ret (output ++ [block; []]))
      layers (Ret output) ;;
  Ret (join [LF] output).

Definition start_marker : str := u "<!-- KEYMAP_START -->".
Definition end_marker : str := u "<!-- KEYMAP_END -->".

(** The text that [update_readme] puts in place of [content], when
    [content] has both markers. *)
Definition new_content (content keymap_content : str) : result (option str) :=
  if contains content start_marker && contains content end_marker then
    parts <- Py.split content start_marker ;;
    before <- index parts 0 ;;
    parts <- Py.split content end_marker ;;
    after <- index parts 1 ;;
    Ret (Some (before ++ start_marker ++ [LF] ++ keymap_content ++ [LF]
                 ++ end_marker ++ after))
  else Ret None.

(** Update README with keymap content between markers: the outcome and the
    world after the call. *)
Definition update_readme (readme_path keymap_content : str) (w : world)
  : result unit * world :=
  let warn :=
    print pf (u "Warning: Could not find markers in " ++ readme_path) w in
  match path_exists w readme_path with
  | Raise e => (Raise e, w)
  | Ret false => warn
  | Ret true =>
      match (content <- read_text pf w readme_path ;;
             new_content content keymap_content) with
      | Raise e => (Raise e, w)
      | Ret (Some new) => write_text pf w readme_path new
      | Ret None => warn
      end
  end.

(** The script run with the command line [argv]: its exit status and the
    world it leaves. *)
Definition main (argv : list str) (w : world) : nat * world :=
  if length argv <? 2 then
    (1, snd (print pf
               (u "Usage: generate_keymap.py <keymap_file> [readme_file]") w))
  else
    match (keymap_file <- index argv 1 ;;
           generate_markdown w keymap_file) with
    | Raise _ => (1, w)
    | Ret markdown =>
        if 3 <=? length argv then
          match index argv 2 with
          | Raise _ => (1, w)
          | Ret readme_file =>
              match update_readme readme_file markdown w with
              | (Raise e, w') => (1, w')
              | (Ret _, w') =>
                  exit_status (print pf (u "Updated " ++ readme_file) w')
              end
          end
        else exit_status (print pf markdown w)
    end.

End Script.

(** ** The specification's wording, where the script does otherwise

    These three definitions follow the words of the specification, not the
    script; the script is compared with them below. *)

(** "remove a single leading [&] if present" *)
Definition remove_single_ampersand (s : str) : str :=
  match s with
  | c :: s' => if (c =? ch "&")%N then s' else s
  | [] => []
  end.

(** "first alphabetic character is capitalized, the rest become lowercase",
    on ASCII text *)
Fixpoint capitalize_first_alphabetic (s : str) : str :=
  match s with
  | [] => []
  | c :: s' =>
      if ascii_isalpha c then ascii_upper c :: map ascii_lower s'
      else c :: capitalize_first_alphabetic s'
  end.

(** "replacing everything between them (markers themselves preserved) with
    the generated markdown", the text before the start marker and after the
    end marker being left as it was *)
Definition spliced_between_markers (content keymap_content new_content : str)
  : Prop :=
  exists before between after,
    content = before ++ start_marker ++ between ++ end_marker ++ after /\
    new_content =
      before ++ start_marker ++ [LF] ++ keymap_content ++ [LF]
        ++ end_marker ++ after.

(** "each key cell centered in a fixed column width of 7 characters": the
    cell is the label between two margins of spaces, 7 characters in
    all *)
Definition centered_in_7 (label cell : str) : Prop :=
  exists l r,
    cell = repeat SP l ++ label ++ repeat SP r /\ length cell = 7.

(** "never crosses a [{] or [}] boundary": the matched text has one brace,
    the one that opens the block of the identifier *)
Definition braces (s : str) : nat :=
  length (filter (fun c => (c =? ch "{")%N || (c =? ch "}")%N) s).

Definition in_one_block (matched : str) : bool := braces matched =? 1.

(** "the splice step writes no file, a warning is emitted, and the overall
    run still terminates with a success exit status", of the outcome of a
    run that started in [w] and whose destination is [readme] *)
Definition warned_and_successful (readme : str) (w : world)
  (outcome : nat * world) : Prop :=
  fst outcome = 0 /\ files (snd outcome) = files w /\
  In (u "Warning: Could not find markers in " ++ readme)
     (stdout (snd outcome)).

(** ** Vocabulary of the statements *)

(** A field of [str.split()]: a non-empty run of characters that are not
    white space. *)
Definition is_field (n : str) : bool :=
  match n with
  | [] => false
  | _ => forallb (fun c => negb (isspace c)) n
  end.

(** What may follow a field: nothing, or text that starts with white
    space. *)
Definition ends_field (tail : str) : bool :=
  match tail with
  | [] => true
  | c :: _ => isspace c
  end.

(** The diagram of a layer, cell by cell: [cell i] is the text of the
    cell of key [i]. Keys 0-5 and 6-11 make the first row of the two
    halves, 12-17 and 18-23 the second, 24-29 and 30-35 the third, 36-38
    and 39-41 the thumb clusters. *)
Definition row6 (cell : nat -> str) (i : nat) : str :=
  cell i ++ u "│" ++ cell (i + 1) ++ u "│" ++ cell (i + 2) ++ u "│"
    ++ cell (i + 3) ++ u "│" ++ cell (i + 4) ++ u "│" ++ cell (i + 5).

Definition row3 (cell : nat -> str) (i : nat) : str :=
  cell i ++ u "│" ++ cell (i + 1) ++ u "│" ++ cell (i + 2).

Definition corne_diagram (layer_name : str) (cell : nat -> str) : str :=
  join [LF]
    [ u "### " ++ layer_name;
      u "```";
      u "┌───────┬───────┬───────┬───────┬───────┬───────┐       ┌───────┬───────┬───────┬───────┬───────┬───────┐";
      u "│" ++ row6 cell 0 ++ u "│       │" ++ row6 cell 6 ++ u "│";
      u "├───────┼───────┼───────┼───────┼───────┼───────┤       ├───────┼───────┼───────┼───────┼───────┼───────┤";
      u "│" ++ row6 cell 12 ++ u "│       │" ++ row6 cell 18 ++ u "│";
      u "├───────┼───────┼───────┼───────┼───────┼───────┤       ├───────┼───────┼───────┼───────┼───────┼───────┤";
      u "│" ++ row6 cell 24 ++ u "│       │" ++ row6 cell 30 ++ u "│";
      u "└───────┴───────┴───────┼───────┼───────┼───────┤       ├───────┼───────┼───────┼───────┴───────┴───────┘";
      u "                        │" ++ row3 cell 36 ++ u "│       │"
        ++ row3 cell 39 ++ u "│";
      u "                        └───────┴───────┴───────┘       └───────┴───────┴───────┘";
      u "```" ].

(** A layer identifier: [Layer_] or [layer_] and at least one decimal
    digit. *)
Definition is_layer_identifier (db : unicode_db) (name : str) : Prop :=
  exists ds,
    ds <> [] /\ forallb (isdecimal db) ds = true /\
    (name = u "Layer_" ++ ds \/ name = u "layer_" ++ ds).

(** The part of [s] before the first occurrence of [sub], or all of [s]
    when there is none: a piece of [s.split(sub)]. *)
Definition up_to (s sub : str) : str :=
  match find s sub with
  | Some i => firstn i s
  | None => s
  end.

(** A non-empty string without white space at either end. *)
Definition is_trimmed (s : str) : bool :=
  match s, rev s with
  | c :: _, d :: _ => negb (isspace c) && negb (isspace d)
  | _, _ => false
  end.

(** [subsequence a b]: [a] is [b] with some characters left out. *)
Inductive subsequence : str -> str -> Prop :=
| subsequence_nil : subsequence [] []
| subsequence_keep c a b : subsequence a b -> subsequence (c :: a) (c :: b)
| subsequence_drop c a b : subsequence a b -> subsequence a (c :: b).

(** The text cut before each of its ampersands: an ampersand starts a new
    piece, any other character goes on with the current one. *)
Fixpoint cut_before_ampersands (s : str) : list str :=
  match s with
  | [] => [[]]
  | c :: s' =>
      let pieces := cut_before_ampersands s' in
      let joined := (c :: hd [] pieces) :: tl pieces in
      if (c =? ch "&")%N then [] :: joined else joined
  end.

(** The first run of decimal digits of a string: what follows the
    characters that are no digits, up to the next one that is none. *)
Fixpoint digit_prefix (db : unicode_db) (x : str) : str :=
  match x with
  | [] => []
  | c :: x' => if isdecimal db c then c :: digit_prefix db x' else []
  end.

Fixpoint first_digit_run (db : unicode_db) (x : str) : str :=
  match x with
  | [] => []
  | c :: x' => if isdecimal db c then digit_prefix db x else first_digit_run db x'
  end.

(** The integer that a run of decimal digits spells: every digit counts
    for its value times the power of ten of its place. *)
Definition digit_value (db : unicode_db) (c : N) : N :=
  match decimal db c with
  | Some d => d
  | None => 0%N
  end.

Fixpoint number_spelled (db : unicode_db) (ds : str) : N :=
  match ds with
  | [] => 0%N
  | c :: ds' =>
      (digit_value db c * 10 ^ N.of_nat (length ds') + number_spelled db ds')%N
  end.

(** The number of a layer identifier: the integer that its first run of
    digits spells. *)
Definition number_of (db : unicode_db) (name : str) : N :=
  number_spelled db (first_digit_run db name).

(** [int] refuses the number of the identifier: its first run of digits is
    too long for the interpreter's limit. *)
Definition number_too_long (db : unicode_db) (pf : platform) (name : str)
  : bool :=
  too_many_digits (int_max_str_digits pf) (length (first_digit_run db name)).

(** A text without carriage return. *)
Definition no_cr (s : str) : bool := forallb (fun c => negb (c =? CR)%N) s.

(** A text without carriage return and line feed. *)
Definition one_line (s : str) : bool :=
  forallb (fun c => negb (c =? CR)%N && negb (c =? LF)%N) s.

(** ** Sample inputs *)

(** A regular file that the process may read and write. *)
Definition text_file (data : str) : node := File true true (Some data).

(** A world with one file and nothing printed yet. *)
Definition world_with (path content : str) : world :=
  {| files := fun p =>
       if str_eqb p path then Some (text_file content) else None;
     stdout := [] |}.

(** A layer block with [n] bindings. *)
Definition sample_layer (name : str) (n : nat) : str :=
  name ++ u " { bindings = <" ++ concat (repeat (u " &kp A") n)
    ++ u " >; };" ++ [LF].

(** A keymap whose layers are out of order, one of them too short. *)
Definition sample_keymap : str :=
  u "/ { keymap {" ++ [LF] ++ sample_layer (u "layer_10") 36
    ++ sample_layer (u "layer_2") 42 ++ sample_layer (u "layer_3") 30
    ++ u "}; };".

(** The paths of the samples. *)
Definition README : str := u "README.md".
Definition KEYMAP : str := u "config/corne.keymap".

(** A keymap in which one identifier has two full blocks. *)
Definition sample_duplicates : str :=
  sample_layer (u "layer_1") 36 ++ sample_layer (u "layer_1") 37.

(** A keymap in which two identifiers spell the same number. *)
Definition sample_same_number : str :=
  sample_layer (u "Layer_1") 36 ++ sample_layer (u "layer_01") 36.

(** The text that the layer pattern captures in [sample_layer name n]. *)
Definition sample_bindings (n : nat) : str :=
  skipn 1 (concat (repeat (u " &kp A") n)) ++ u " ".

(** A README with one pair of markers. *)
Definition readme_marked : str :=
  u "A" ++ start_marker ++ u "B" ++ end_marker ++ u "C".

(** A world with two files and nothing printed yet. *)
Definition fun_world (path1 content1 path2 content2 : str) : world :=
  {| files := fun p =>
       if str_eqb p path1 then Some (text_file content1)
       else if str_eqb p path2 then Some (text_file content2) else None;
     stdout := [] |}.

(** A world given by the list of its paths, nothing printed yet. *)
Definition world_of (entries : list (str * node)) : world :=
  {| files := dict_get entries; stdout := [] |}.

(** A keymap whose only layer has a number of 4301 digits. *)
Definition long_number : str := u "layer_" ++ repeat (ch "7") 4301.

Definition long_number_keymap : str := sample_layer long_number 36.

(** A keymap whose first layer does not close its bindings. *)
Definition unclosed_keymap : str :=
  u "layer_1 { bindings = < &kp A }; }; layer_2 { bindings = < &kp B >; };".

(** A path with a byte that does not decode: the interpreter keeps such a
    byte of a command line argument as a lone surrogate. *)
Definition undecodable_path : str := u "READ" ++ [0xDC80%N] ++ u ".md".

(** A README with lines that end in CR LF. *)
Definition readme_crlf : str :=
  u "A" ++ [CR; LF] ++ start_marker ++ u "B" ++ end_marker ++ u "C".

(** A README with two end markers, and one whose end marker comes first. *)
Definition readme_two_ends : str :=
  u "A" ++ start_marker ++ u "B" ++ end_marker ++ u "C" ++ end_marker
    ++ u "D".

Definition readme_end_first : str := end_marker ++ start_marker.

Unset Implicit Arguments.

(** * Properties *)

(** ** Strings *)

Lemma str_eqb_eq (a b : str) : str_eqb a b = true <-> a = b.
Proof.
  revert b; induction a as [|x a IH]; intros [|y b]; simpl;
    try (split; (discriminate || reflexivity)).
  rewrite andb_true_iff, N.eqb_eq, IH.
  split; [intros [-> ->]; reflexivity | intros E; inversion E; auto].
Qed.

Lemma str_eqb_refl (a : str) : str_eqb a a = true.
Proof. apply str_eqb_eq; reflexivity. Qed.

Lemma str_eqb_neq (a b : str) : str_eqb a b = false <-> a <> b.
Proof.
  rewrite <- str_eqb_eq. destruct (str_eqb a b); split; congruence.
Qed.

Lemma startswith_app (p s : str) : startswith (p ++ s) p = true.
Proof.
  induction p as [|a p IH]; simpl; [reflexivity|].
  rewrite N.eqb_refl; exact IH.
Qed.

Lemma startswith_inv (s p : str) :
  startswith s p = true -> s = p ++ skipn (length p) s.
Proof.
  revert s; induction p as [|a p IH]; intros s H; simpl in *.
  - reflexivity.
  - destruct s as [|b s]; [discriminate|].
    apply andb_true_iff in H as [E H]. apply N.eqb_eq in E; subst b.
    simpl. f_equal. apply IH, H.
Qed.

Lemma lstrip_by_head (p : N -> bool) (s : str) c r :
  lstrip_by p s = c :: r -> p c = false.
Proof.
  induction s as [|d s IH]; simpl; [discriminate|].
  destruct (p d) eqn:Pd; [exact IH|].
  intros E; inversion E; subst; exact Pd.
Qed.

(** A stripped string does not end in white space. *)
Lemma strip_last (s : str) c r :
  rev (strip s) = c :: r -> isspace c = false.
Proof.
  unfold strip, rstrip_by. rewrite rev_involutive. apply lstrip_by_head.
Qed.

(** What [lstrip "&"] removes is a run of ampersands, and what it leaves
    does not start with one. *)
Lemma lstrip_ampersand (s : str) :
  exists n, s = repeat (ch "&") n ++ lstrip (u "&") s /\
            startswith (lstrip (u "&") s) (u "&") = false.
Proof.
  unfold lstrip. change (u "&") with [38%N]. change (ch "&") with 38%N.
  induction s as [|c s [n [E H]]].
  - exists 0; auto.
  - cbn [lstrip_by existsb]. rewrite orb_false_r.
    destruct (c =? 38)%N eqn:Ec.
    + apply N.eqb_eq in Ec; subst c. exists (S n).
      split; [cbn [repeat app]; f_equal; exact E | exact H].
    + exists 0. split; [reflexivity|].
      cbn [startswith]. rewrite N.eqb_sym, Ec. reflexivity.
Qed.

Lemma normalized_last (binding : str) c r :
  rev (normalized binding) = c :: r -> isspace c = false.
Proof.
  unfold normalized. intros H.
  destruct (lstrip_ampersand (strip binding)) as [n [E _]].
  assert (R : rev (strip binding)
              = rev (lstrip (u "&") (strip binding)) ++ rev (repeat (ch "&") n)).
  { rewrite E at 1. apply rev_app_distr. }
  rewrite H in R. simpl in R. apply (strip_last _ _ _ R).
Qed.

Lemma split_ws_space c (s : str) :
  isspace c = true -> split_ws (c :: s) = split_ws s.
Proof. unfold split_ws; simpl; intros ->; reflexivity. Qed.

Lemma split_ws_from_field (n : str) : forall (w tail : str),
  forallb (fun c => negb (isspace c)) n = true ->
  ends_field tail = true ->
  w <> [] \/ n <> [] ->
  split_ws_from w (n ++ tail) = (rev w ++ n) :: split_ws tail.
Proof.
  induction n as [|c n IH]; intros w tail Hn Ht Hne.
  - destruct Hne as [Hw|[]]; [|reflexivity].
    rewrite !app_nil_r.
    destruct w as [|x w]; [contradiction Hw; reflexivity|].
    destruct tail as [|c t]; [reflexivity|].
    cbn [ends_field] in Ht. rewrite split_ws_space by exact Ht.
    cbn [app split_ws_from]. rewrite Ht. reflexivity.
  - simpl in Hn. apply andb_true_iff in Hn as [Hc Hn].
    apply negb_true_iff in Hc. simpl. rewrite Hc.
    rewrite IH; auto; [|left; discriminate].
    simpl. rewrite <- app_assoc. reflexivity.
Qed.

Lemma split_ws_field (n tail : str) :
  is_field n = true -> ends_field tail = true ->
  split_ws (n ++ tail) = n :: split_ws tail.
Proof.
  intros Hn Ht. unfold split_ws at 1.
  destruct n as [|c n]; [discriminate|].
  apply (split_ws_from_field (c :: n) [] tail Hn Ht). right; discriminate.
Qed.

Lemma split_ws_from_nonempty (s : str) : forall w,
  w <> [] \/ existsb (fun c => negb (isspace c)) s = true ->
  split_ws_from w s <> [].
Proof.
  induction s as [|c s IH]; intros w H; simpl in *.
  - destruct H as [H|H]; [|discriminate]. destruct w; [contradiction H; reflexivity | discriminate].
  - destruct (isspace c) eqn:Ec; simpl in H.
    + destruct w; [|discriminate]. apply IH. right.
      destruct H as [H|H]; [contradiction H; reflexivity | exact H].
    + apply IH. left; discriminate.
Qed.

(** After a layer keyword and its space, a normalized binding still has a
    field: [split()] gives at least two. *)
Lemma split_ws_keyword (keyword rest : str) c r :
  is_field keyword = true ->
  rev (keyword ++ SP :: rest) = c :: r -> isspace c = false ->
  exists field others,
    split_ws (keyword ++ SP :: rest) = keyword :: field :: others.
Proof.
  intros Hk Hrev Hc.
  rewrite (split_ws_field keyword (SP :: rest) Hk eq_refl).
  rewrite split_ws_space by reflexivity.
  assert (Hne : split_ws rest <> []).
  { apply split_ws_from_nonempty. right.
    rewrite rev_app_distr in Hrev. simpl in Hrev.
    destruct (rev rest) as [|d t] eqn:Er.
    - simpl in Hrev. inversion Hrev; subst c. discriminate Hc.
    - simpl in Hrev. inversion Hrev; subst d.
      apply existsb_exists. exists c. split.
      + apply in_rev. rewrite Er. left; reflexivity.
      + rewrite Hc; reflexivity. }
  destruct (split_ws rest) as [|f o]; [contradiction Hne; reflexivity|].
  exists f, o; reflexivity.
Qed.

Lemma lower_from_ascii (s rest : str) (db : unicode_db) : forall i,
  forallb is_ascii rest = true ->
  lower_from db s i rest = map ascii_lower rest.
Proof.
  induction rest as [|c rest IH]; intros i H; simpl in *; [reflexivity|].
  apply andb_true_iff in H as [Hc H].
  unfold to_lower. rewrite Hc. simpl. f_equal. apply IH, H.
Qed.

Lemma capitalize_ascii (db : unicode_db) (s : str) :
  forallb is_ascii s = true ->
  capitalize db s =
    match s with
    | [] => []
    | c :: rest => ascii_upper c :: map ascii_lower rest
    end.
Proof.
  destruct s as [|c rest]; simpl; [reflexivity|].
  intros H. apply andb_true_iff in H as [Hc H].
  unfold to_title. rewrite Hc. simpl. f_equal.
  apply lower_from_ascii, H.
Qed.

Lemma dict_get_In {V : Type} (d : list (str * V)) key v :
  dict_get d key = Some v -> In (key, v) d.
Proof.
  induction d as [|[k x] d IH]; simpl; [discriminate|].
  destruct (str_eqb k key) eqn:E.
  - apply str_eqb_eq in E; subst k. intros H; inversion H; subst. left; reflexivity.
  - intros H; right; exact (IH H).
Qed.

Lemma In_dict_get {V : Type} (d : list (str * V)) key :
  In key (map fst d) -> exists v, dict_get d key = Some v.
Proof.
  induction d as [|[k x] d IH]; simpl; [intros []|].
  destruct (str_eqb k key) eqn:E; [eexists; reflexivity|].
  intros [H|H]; [|exact (IH H)].
  subst k. rewrite str_eqb_refl in E. discriminate.
Qed.

(** No key of the table starts with a layer keyword. *)
Lemma KEY_DISPLAY_no_layer_keyword :
  forallb
    (fun kv =>
       negb (startswith (fst kv) (u "mo ")) &&
       negb (startswith (fst kv) (u "to ")) &&
       negb (startswith (fst kv) (u "lt ")))
    KEY_DISPLAY = true.
Proof. vm_compute. reflexivity. Qed.

Lemma table_key_no_layer_keyword (b label : str) :
  dict_get KEY_DISPLAY b = Some label ->
  startswith b (u "mo ") = false /\
  startswith b (u "to ") = false /\
  startswith b (u "lt ") = false.
Proof.
  intros H. apply dict_get_In in H.
  pose proof KEY_DISPLAY_no_layer_keyword as F.
  rewrite forallb_forall in F. specialize (F _ H). cbn [fst] in F.
  apply andb_true_iff in F as [F F3]. apply andb_true_iff in F as [F1 F2].
  rewrite negb_true_iff in F1, F2, F3. auto.
Qed.

(** ** The binding decoder *)

Section Decoder.

Variable db : unicode_db.

(** The branches of [parse_binding], in the order it tries them. *)
Lemma parse_binding_mo (binding : str) :
  startswith (normalized binding) (u "mo ") = true ->
  parse_binding db binding =
    (layer_num <- index (split_ws (normalized binding)) 1 ;;
     Ret (u "L" ++ layer_num)).
Proof. intros H. unfold parse_binding. cbv zeta. rewrite H. reflexivity. Qed.

Lemma parse_binding_to (binding : str) :
  startswith (normalized binding) (u "mo ") = false ->
  startswith (normalized binding) (u "to ") = true ->
  parse_binding db binding =
    (layer_num <- index (split_ws (normalized binding)) 1 ;;
     Ret (u "TO" ++ layer_num)).
Proof.
  intros H1 H2. unfold parse_binding. cbv zeta. rewrite H1, H2. reflexivity.
Qed.

Lemma parse_binding_lt (binding : str) :
  startswith (normalized binding) (u "mo ") = false ->
  startswith (normalized binding) (u "to ") = false ->
  startswith (normalized binding) (u "lt ") = true ->
  parse_binding db binding =
    (part <- index (split_ws (normalized binding)) 1 ;;
     Ret (u "LT" ++ part)).
Proof.
  intros H1 H2 H3. unfold parse_binding. cbv zeta.
  rewrite H1, H2, H3. reflexivity.
Qed.

Lemma parse_binding_other (binding : str) :
  startswith (normalized binding) (u "mo ") = false ->
  startswith (normalized binding) (u "to ") = false ->
  startswith (normalized binding) (u "lt ") = false ->
  parse_binding db binding =
    match dict_get KEY_DISPLAY (normalized binding) with
    | Some label => Ret label
    | None =>
        if startswith (normalized binding) (u "kp ") then
          Ret (capitalize db (skipn 3 (normalized binding)))
        else Ret (firstn 6 (normalized binding))
    end.
Proof.
  intros H1 H2 H3. unfold parse_binding. cbv zeta.
  rewrite H1, H2, H3. reflexivity.
Qed.

(** A normalized binding that starts with a keyword and a space has a
    second field. *)
Lemma keyword_then_field (binding keyword : str) :
  is_field keyword = true ->
  startswith (normalized binding) (keyword ++ [SP]) = true ->
  exists field others,
    split_ws (normalized binding) = keyword :: field :: others.
Proof.
  intros Hk H. apply startswith_inv in H.
  remember (skipn (length (keyword ++ [SP])) (normalized binding)) as rest.
  rewrite <- app_assoc in H. cbn [app] in H.
  destruct (rev (normalized binding)) as [|c r] eqn:Er.
  - apply (f_equal (@rev N)) in Er. rewrite rev_involutive in Er.
    rewrite Er in H. destruct keyword; discriminate H.
  - pose proof (normalized_last _ _ _ Er) as Hc.
    rewrite H in Er |- *.
    exact (split_ws_keyword keyword rest c r Hk Er Hc).
Qed.

(** A token that starts with a layer keyword followed by a field [n]. *)
Lemma keyword_field_index (binding keyword n tail : str) :
  is_field keyword = true -> is_field n = true -> ends_field tail = true ->
  normalized binding = keyword ++ [SP] ++ n ++ tail ->
  startswith (normalized binding) (keyword ++ [SP]) = true /\
  index (split_ws (normalized binding)) 1 = Ret n.
Proof.
  intros Hk Hn Ht E. rewrite E. split.
  - rewrite app_assoc. apply startswith_app.
  - rewrite (split_ws_field keyword ([SP] ++ n ++ tail) Hk eq_refl).
    cbn [app]. rewrite split_ws_space by reflexivity.
    rewrite (split_ws_field n tail Hn Ht). reflexivity.
Qed.

Lemma layer_keyword_second_field (binding keyword : str) :
  In keyword [u "mo"; u "to"; u "lt"] ->
  startswith (normalized binding) (keyword ++ [SP]) = true ->
  exists field, index (split_ws (normalized binding)) 1 = Ret field.
Proof.
  intros Hin H.
  assert (Hk : is_field keyword = true)
    by (destruct Hin as [<-|[<-|[<-|[]]]]; reflexivity).
  destruct (keyword_then_field binding keyword Hk H) as [f [o E]].
  exists f. rewrite E. reflexivity.
Qed.

Lemma parse_binding_returns (binding : str) :
  exists label, parse_binding db binding = Ret label.
Proof.
  pose proof (layer_keyword_second_field binding) as second.
  destruct (startswith (normalized binding) (u "mo ")) eqn:H1.
  { destruct (second (u "mo")) as [f E]; [simpl; auto | exact H1 |].
    rewrite parse_binding_mo, E by exact H1. eexists; reflexivity. }
  destruct (startswith (normalized binding) (u "to ")) eqn:H2.
  { destruct (second (u "to")) as [f E]; [simpl; auto | exact H2 |].
    rewrite parse_binding_to, E by assumption. eexists; reflexivity. }
  destruct (startswith (normalized binding) (u "lt ")) eqn:H3.
  { destruct (second (u "lt")) as [f E]; [simpl; auto | exact H3 |].
    rewrite parse_binding_lt, E by assumption. eexists; reflexivity. }
  rewrite parse_binding_other by assumption.
  destruct (dict_get KEY_DISPLAY (normalized binding)); [eexists; reflexivity|].
  destruct (startswith (normalized binding) (u "kp ")); eexists; reflexivity.
Qed.

(** C10. The decoder is total: for every input string [parse_binding]
    returns a label and raises nothing. In particular, whenever the
    stripped token starts with [mo ], [to ] or [lt ], splitting it gives a
    second field, so the access at index 1 succeeds. *)
Theorem parse_binding_total (binding : str) :
  (exists label, parse_binding db binding = Ret label) /\
  (forall keyword, In keyword [u "mo"; u "to"; u "lt"] ->
   startswith (normalized binding) (keyword ++ [SP]) = true ->
   exists field, index (split_ws (normalized binding)) 1 = Ret field).
Proof.
  split.
  - apply parse_binding_returns.
  - apply layer_keyword_second_field.
Qed.

(** C1. A token whose stripped form is a key of [KEY_DISPLAY] is decoded to
    the label the table gives for it; a token whose stripped form starts
    with [mo N], [to N] or [lt N] (a field [N], such as a number, then the
    end of the token or white space and more) is decoded to [L], [TO] or
    [LT] followed by [N], whatever the table holds. *)
Theorem parse_binding_table_and_layers (binding : str) :
  (forall label,
     dict_get KEY_DISPLAY (normalized binding) = Some label ->
     parse_binding db binding = Ret label) /\
  (forall n tail,
     is_field n = true -> ends_field tail = true ->
     (normalized binding = u "mo " ++ n ++ tail ->
      parse_binding db binding = Ret (u "L" ++ n)) /\
     (normalized binding = u "to " ++ n ++ tail ->
      parse_binding db binding = Ret (u "TO" ++ n)) /\
     (normalized binding = u "lt " ++ n ++ tail ->
      parse_binding db binding = Ret (u "LT" ++ n))).
Proof.
  split.
  - intros label H.
    destruct (table_key_no_layer_keyword _ _ H) as [H1 [H2 H3]].
    rewrite parse_binding_other, H by assumption. reflexivity.
  - intros n tail Hn Ht. repeat split; intros E.
    + destruct (keyword_field_index binding (u "mo") n tail eq_refl Hn Ht E)
        as [P I].
      rewrite parse_binding_mo, I by exact P. reflexivity.
    + destruct (keyword_field_index binding (u "to") n tail eq_refl Hn Ht E)
        as [P I].
      rewrite parse_binding_to, I; [reflexivity | rewrite E; reflexivity | exact P].
    + destruct (keyword_field_index binding (u "lt") n tail eq_refl Hn Ht E)
        as [P I].
      rewrite parse_binding_lt, I;
        [reflexivity | rewrite E; reflexivity .. | exact P].
Qed.

(** C7, as the script has it. The decoder strips the white space around the
    token and then removes every leading [&], not just one: what is left
    is the stripped token without its run of ampersands and does not start
    with [&]. When that remainder starts with no [mo ], [to ], [lt ] or
    [kp ] and is no key of the table, the label is its first 6
    characters. *)
Theorem parse_binding_fallback (binding : str) :
  (exists k, strip binding = repeat (ch "&") k ++ normalized binding) /\
  startswith (normalized binding) (u "&") = false /\
  (startswith (normalized binding) (u "mo ") = false ->
   startswith (normalized binding) (u "to ") = false ->
   startswith (normalized binding) (u "lt ") = false ->
   dict_get KEY_DISPLAY (normalized binding) = None ->
   startswith (normalized binding) (u "kp ") = false ->
   parse_binding db binding = Ret (firstn 6 (normalized binding))).
Proof.
  destruct (lstrip_ampersand (strip binding)) as [k [E H]].
  split; [exists k; exact E|]. split; [exact H|].
  intros H1 H2 H3 Hd Hk.
  rewrite parse_binding_other, Hd, Hk by assumption. reflexivity.
Qed.

(** C8, as the script has it. For a token whose stripped form is [kp X] and
    is no key of the table, the label is [X.capitalize()]: the first
    character of [X] in title case and every other character in lower
    case. On ASCII text that is the first character upper-cased when it is
    a letter, and the rest lower-cased; a first character that is no
    letter stays, and no later letter is capitalized in its place. *)
Theorem parse_binding_unknown_kp (binding X : str) :
  normalized binding = u "kp " ++ X ->
  dict_get KEY_DISPLAY (normalized binding) = None ->
  parse_binding db binding = Ret (capitalize db X) /\
  (forallb is_ascii X = true ->
   capitalize db X =
     match X with
     | [] => []
     | c :: rest => ascii_upper c :: map ascii_lower rest
     end) /\
  (forall c rest, X = c :: rest -> is_ascii c = true ->
   ascii_isalpha c = false ->
   forallb is_ascii rest = true ->
   capitalize db X = c :: map ascii_lower rest).
Proof.
  intros E Hd. split; [|split].
  - rewrite parse_binding_other, Hd; rewrite E; try reflexivity.
  - apply capitalize_ascii.
  - intros c rest -> Hc Ha Hr.
    rewrite capitalize_ascii by (simpl; rewrite Hc; exact Hr).
    f_equal. unfold ascii_upper. unfold ascii_isalpha in Ha.
    apply orb_false_iff in Ha as [_ ->]. reflexivity.
Qed.

End Decoder.

(** ** The layout renderer *)

Lemma for_each_total {A B : Type} (f : A -> result B) (l : list A) :
  (forall x, In x l -> exists y, f x = Ret y) ->
  exists ys, for_each f l = Ret ys /\ Forall2 (fun x y => f x = Ret y) l ys.
Proof.
  induction l as [|x l IH]; intros H; simpl.
  - exists []; split; [reflexivity | constructor].
  - destruct (H x (or_introl eq_refl)) as [y Hy].
    destruct IH as [ys [E F]]; [intros z Hz; apply H; right; exact Hz|].
    exists (y :: ys). rewrite Hy, E. split; [reflexivity | constructor; assumption].
Qed.

Lemma for_each_ext {A B : Type} (f g : A -> result B) (l : list A) :
  (forall x, In x l -> f x = g x) -> for_each f l = for_each g l.
Proof.
  induction l as [|x l IH]; intros H; simpl; [reflexivity|].
  rewrite (H x (or_introl eq_refl)), IH; [reflexivity|].
  intros z Hz; apply H; right; exact Hz.
Qed.

Lemma for_each_Ret {A B : Type} (f : A -> B) (l : list A) :
  for_each (fun x => Ret (f x)) l = Ret (map f l).
Proof.
  induction l as [|x l IH]; simpl; [reflexivity|]. rewrite IH; reflexivity.
Qed.

Lemma pad_keys_length (keys : list str) : 42 <= length (pad_keys keys).
Proof.
  unfold pad_keys. destruct (length keys <? 42) eqn:E.
  - apply Nat.ltb_lt in E. rewrite length_app, repeat_length. lia.
  - apply Nat.ltb_ge in E. exact E.
Qed.

Lemma pad_keys_nth (keys : list str) (i : nat) :
  nth i (pad_keys keys) [] = nth i keys [].
Proof.
  unfold pad_keys. destruct (length keys <? 42); [|reflexivity].
  destruct (Nat.lt_ge_cases i (length keys)) as [H|H].
  - apply app_nth1, H.
  - rewrite app_nth2 by exact H. rewrite (nth_overflow keys) by exact H.
    apply nth_repeat.
Qed.

Lemma index_nth (keys : list str) (i : nat) :
  i < length keys -> index keys i = Ret (nth i keys []).
Proof.
  intros H. unfold index. rewrite (nth_error_nth' keys [] H). reflexivity.
Qed.

Lemma cells_padded (keys : list str) (start count : nat) :
  start + count <= 42 ->
  cells (pad_keys keys) start count =
    Ret (map (fun i => center (nth i keys []) 7) (seq start count)).
Proof.
  intros H. unfold cells. rewrite <- for_each_Ret.
  apply for_each_ext. intros i Hi. apply in_seq in Hi.
  rewrite index_nth by (pose proof (pad_keys_length keys); lia).
  rewrite pad_keys_nth. reflexivity.
Qed.

(** Centring in 7 columns: the margins add up to what is missing and the
    left one is the larger by at most one. *)
Lemma center_7 (key : str) :
  length key <= 7 ->
  exists l r, center key 7 = repeat SP l ++ key ++ repeat SP r /\
              l + length key + r = 7 /\ r <= l <= r + 1.
Proof.
  intros H. unfold center.
  destruct (Nat.eq_dec (length key) 7) as [E|E].
  - rewrite E. exists 0, 0. simpl. rewrite app_nil_r. repeat split; lia.
  - assert (L : length key < 7) by lia. clear H E.
    destruct (length key) as [|[|[|[|[|[|[|n]]]]]]] eqn:E; try lia;
      cbv [Nat.leb Nat.sub Nat.div Nat.divmod Nat.land Nat.add fst
           Nat.bitwise Nat.odd Nat.div2 Nat.testbit negb Nat.even andb
           Nat.mul Nat.b2n];
      [exists 4, 3 | exists 3, 3 | exists 3, 2 | exists 2, 2
      | exists 2, 1 | exists 1, 1 | exists 1, 0];
      (split; [reflexivity | lia]).
Qed.

Lemma center_7_long (key : str) : 7 <= length key -> center key 7 = key.
Proof.
  intros H. unfold center. apply Nat.leb_le in H. rewrite H. reflexivity.
Qed.

Lemma for_each_firstn {A B : Type} (f : A -> result B) (n : nat) :
  forall (l : list A) (ys : list B),
  for_each f l = Ret ys -> for_each f (firstn n l) = Ret (firstn n ys).
Proof.
  induction n as [|n IH]; intros l ys H; [reflexivity|].
  destruct l as [|x l]; cbn [for_each firstn] in *.
  - injection H as <-. reflexivity.
  - destruct (f x) as [y|e]; [|discriminate]. cbn [bind] in *.
    destruct (for_each f l) as [ys'|e] eqn:E; [|discriminate].
    cbn [bind] in H. injection H as <-.
    rewrite (IH l ys' E). reflexivity.
Qed.

(** The cells do not depend on keys from index 42 on. *)
Lemma cells_firstn (keys : list str) (start count : nat) :
  start + count <= 42 ->
  cells (pad_keys (firstn 42 keys)) start count
    = cells (pad_keys keys) start count.
Proof.
  intros H. rewrite !cells_padded by exact H. f_equal.
  apply map_ext_in. intros i Hi. apply in_seq in Hi.
  rewrite nth_firstn.
  destruct (i <? 42) eqn:E; [reflexivity|]. apply Nat.ltb_ge in E. lia.
Qed.

(** What [format_corne_layer] returns, given the decoded labels. *)
Lemma format_corne_layer_result (db : unicode_db)
  (bindings labels : list str) (layer_name : str) :
  for_each (parse_binding db) bindings = Ret labels ->
  format_corne_layer db bindings layer_name =
    Ret (corne_diagram layer_name (fun i => center (nth i labels []) 7)).
Proof.
  intros E. unfold format_corne_layer. rewrite E. cbn [bind].
  rewrite !cells_padded by lia. reflexivity.
Qed.

Lemma format_corne_layer_returns (db : unicode_db)
  (bindings : list str) (layer_name : str) :
  exists block, format_corne_layer db bindings layer_name = Ret block.
Proof.
  destruct (for_each_total (parse_binding db) bindings) as [labels [E _]].
  { intros b _. apply parse_binding_returns. }
  eexists. exact (format_corne_layer_result db bindings labels layer_name E).
Qed.

(** C3, as the script has it. The renderer decodes the bindings in their
    order, one label per binding. The label list is padded with empty
    strings to 42 entries when it is shorter, so key [i] of the diagram is
    label [i] when there is one and the empty string otherwise; bindings
    from index 42 on are not used (the diagram of the first 42 bindings is
    the same). The diagram is the reference one: three rows of 6+6 cells
    for the keys 0-35, then the thumb clusters 36-38 and 39-41, between the
    box-drawing dividers. A cell is [label.center(7)]: a label of at most
    7 characters is centred in 7 columns, the left margin the larger by at
    most one; a label of 7 characters or more is its cell as it is, so a
    label of more than 7 makes a cell wider than the column. *)
Theorem format_corne_layer_diagram (db : unicode_db)
  (bindings : list str) (layer_name : str) :
  exists labels,
    Forall2 (fun b l => parse_binding db b = Ret l) bindings labels /\
    (length labels < 42 ->
     pad_keys labels = labels ++ repeat [] (42 - length labels) /\
     length (pad_keys labels) = 42) /\
    (forall i, i < 42 -> index (pad_keys labels) i = Ret (nth i labels [])) /\
    format_corne_layer db bindings layer_name =
      Ret (corne_diagram layer_name (fun i => center (nth i labels []) 7)) /\
    (forall i, length (nth i labels []) <= 7 ->
     exists l r,
       center (nth i labels []) 7 =
         repeat SP l ++ nth i labels [] ++ repeat SP r /\
       l + length (nth i labels []) + r = 7 /\ r <= l <= r + 1) /\
    (forall i, 7 <= length (nth i labels []) ->
     center (nth i labels []) 7 = nth i labels []) /\
    format_corne_layer db (firstn 42 bindings) layer_name =
      format_corne_layer db bindings layer_name.
Proof.
  destruct (for_each_total (parse_binding db) bindings) as [labels [E F]].
  { intros b _. apply parse_binding_returns. }
  exists labels. split; [exact F|].
  split; [|split; [|split; [|split; [|split]]]].
  - intros H. unfold pad_keys. apply Nat.ltb_lt in H as H'. rewrite H'.
    split; [reflexivity|]. rewrite length_app, repeat_length. lia.
  - intros i Hi.
    rewrite index_nth by (pose proof (pad_keys_length labels); lia).
    rewrite pad_keys_nth. reflexivity.
  - exact (format_corne_layer_result db bindings labels layer_name E).
  - intros i. apply center_7.
  - intros i. apply center_7_long.
  - unfold format_corne_layer.
    rewrite (for_each_firstn (parse_binding db) 42 bindings labels E), E.
    cbn [bind]. rewrite !cells_firstn by lia. reflexivity.
Qed.

(** ** The regular expression engine

    Whatever the backtracking search answers is a match in the sense of
    [Re.Matches]. *)

Lemma star_greedy_sound {A : Type} (p : N -> bool) (s : str)
  (k : str -> option A) (a : A) :
  Re.star_greedy p s k = Some a ->
  exists m s', s = m ++ s' /\ forallb p m = true /\ k s' = Some a.
Proof.
  induction s as [|c s IH]; simpl; intros H.
  - exists [], []; auto.
  - destruct (p c) eqn:Pc; [|exists [], (c :: s); auto].
    destruct (Re.star_greedy p s k) eqn:G.
    + inversion H; subst a0.
      destruct (IH eq_refl) as [m [s' [E [F K]]]].
      exists (c :: m), s'. simpl. rewrite Pc, F, E. auto.
    + exists [], (c :: s); auto.
Qed.

Lemma star_lazy_sound {A : Type} (p : N -> bool) (s : str)
  (k : str -> option A) (a : A) :
  Re.star_lazy p s k = Some a ->
  exists m s', s = m ++ s' /\ forallb p m = true /\ k s' = Some a.
Proof.
  induction s as [|c s IH]; simpl; intros H.
  - destruct (k []) eqn:K; [|discriminate].
    inversion H; subst. exists [], []; auto.
  - destruct (k (c :: s)) eqn:K.
    + inversion H; subst. exists [], (c :: s); auto.
    + destruct (p c) eqn:Pc; [|discriminate].
      destruct (IH H) as [m [s' [E [F K']]]].
      exists (c :: m), s'. simpl. rewrite Pc, F, E. auto.
Qed.

Lemma exec_sound (r : Re.regex) :
  forall (A : Type) (s : str) (g : Re.groups)
         (k : str -> Re.groups -> option A) (a : A),
  Re.exec r s g k = Some a ->
  exists s' g', Re.Matches r s g s' g' /\ k s' g' = Some a.
Proof.
  induction r as [l|p|r1 IH1 r2 IH2|r1 IH1 r2 IH2|greedy p|i r IH|r IH];
    intros A s g k a H; simpl in H.
  - destruct (startswith s l) eqn:P; [|discriminate].
    exists (skipn (length l) s), g. split; [|exact H].
    rewrite (startswith_inv _ _ P) at 1. constructor.
  - destruct s as [|c s]; [discriminate|].
    destruct (p c) eqn:Pc; [|discriminate].
    exists s, g. split; [constructor; exact Pc | exact H].
  - apply IH1 in H as [s1 [g1 [M1 H]]].
    apply IH2 in H as [s2 [g2 [M2 H]]].
    exists s2, g2. split; [econstructor; eassumption | exact H].
  - destruct (Re.exec r1 s g k) eqn:E1.
    + inversion H; subst a0.
      apply IH1 in E1 as [s' [g' [M K]]].
      exists s', g'. split; [apply Re.M_Alt_l; exact M | exact K].
    + apply IH2 in H as [s' [g' [M K]]].
      exists s', g'. split; [apply Re.M_Alt_r; exact M | exact K].
  - assert (S : exists m s', s = m ++ s' /\ forallb p m = true
                             /\ k s' g = Some a).
    { destruct greedy;
        [apply star_greedy_sound in H | apply star_lazy_sound in H];
        exact H. }
    destruct S as [m [s' [E [F K]]]]. subst s.
    exists s', g. split; [constructor; exact F | exact K].
  - apply IH in H as [s' [g' [M K]]].
    exists s', ((i, firstn (length s - length s') s) :: g').
    split; [constructor; exact M | exact K].
  - destruct (Re.exec r s g (fun _ g' => Some g')) as [g1|] eqn:E;
      [|discriminate].
    apply IH in E as [s' [g' [M K]]]. inversion K; subst g1.
    exists s, g'. split; [econstructor; exact M | exact H].
Qed.

(** A match takes a prefix of the subject. *)
Lemma Matches_prefix r s g s' g' :
  Re.Matches r s g s' g' -> exists m, s = m ++ s'.
Proof.
  induction 1 as [l s g|p c s g _|r1 r2 s g s1 g1 s2 g2 _ [m1 E1] _ [m2 E2]
                 | | |greedy p m s g _| |r s g s' g' _ _];
    try assumption.
  - exists l; reflexivity.
  - exists [c]; reflexivity.
  - exists (m1 ++ m2). rewrite <- app_assoc, <- E2. exact E1.
  - exists m; reflexivity.
  - exists []; reflexivity.
Qed.

Lemma firstn_matched (m s' : str) :
  firstn (length (m ++ s') - length s') (m ++ s') = m.
Proof.
  rewrite length_app, Nat.add_sub. rewrite firstn_app, Nat.sub_diag.
  rewrite firstn_all. simpl. apply app_nil_r.
Qed.

Lemma match_at_sound r s must_advance s' g :
  Re.match_at r s must_advance = Some (s', g) ->
  Re.Matches r s [] s' g /\ (must_advance = true -> length s' <> length s).
Proof.
  unfold Re.match_at. intros H.
  apply exec_sound in H as [s1 [g1 [M K]]].
  destruct (must_advance && (length s1 =? length s)) eqn:B; [discriminate|].
  inversion K; subst. split; [exact M|].
  intros ->. simpl in B. apply Nat.eqb_neq in B. exact B.
Qed.

(** What [search] finds: the subject is the skipped text, the match and
    the rest; an empty match is not found right at the start when the
    flag is up. *)
Lemma search_sound r (s : str) : forall must_advance f rest,
  Re.search r s must_advance = Some (f, rest) ->
  s = Re.skipped f ++ Re.text f ++ rest /\
  Re.Matches r (Re.text f ++ rest) [] rest (Re.captures f) /\
  (must_advance = true -> Re.skipped f = [] -> Re.text f <> []).
Proof.
  induction s as [|c s IH]; intros adv f rest H; cbn [Re.search] in H.
  - destruct (Re.match_at r [] adv) as [[s' g]|] eqn:E; [|discriminate].
    inversion H; subst; clear H. cbn [Re.skipped Re.text Re.captures app].
    apply match_at_sound in E as [M Adv].
    destruct (Matches_prefix _ _ _ _ _ M) as [m Em].
    destruct m; [|discriminate]. simpl in Em; subst rest.
    split; [reflexivity|]. split; [exact M|].
    intros Ha _. exfalso. apply (Adv Ha). reflexivity.
  - destruct (Re.match_at r (c :: s) adv) as [[s' g]|] eqn:E.
    + apply match_at_sound in E as [M Adv].
      destruct (Matches_prefix _ _ _ _ _ M) as [m Em].
      rewrite Em in *. rewrite firstn_matched in H.
      inversion H; subst; clear H. cbn [Re.skipped Re.text Re.captures app].
      split; [reflexivity|]. split; [exact M|].
      intros Ha _ ->. apply (Adv Ha). reflexivity.
    + destruct (Re.search r s false) as [[f' s']|] eqn:E'; [|discriminate].
      inversion H; subst; clear H. cbn [Re.skipped Re.text Re.captures app].
      destruct (IH _ _ _ E') as [Es [M _]].
      split; [f_equal; exact Es|]. split; [exact M|].
      intros _ D; discriminate D.
Qed.

(** Every match that the scanning loop records is a match of the pattern,
    at some place of the subject, however many rounds the loop is given. *)
Lemma scan_sound r (rounds : nat) : forall s must_advance,
  Forall (fun f => exists before rest,
            s = before ++ Re.text f ++ rest /\
            Re.Matches r (Re.text f ++ rest) [] rest (Re.captures f))
         (fst (Re.scan rounds r s must_advance)).
Proof.
  induction rounds as [|n IH]; intros s adv; cbn [Re.scan]; [constructor|].
  destruct (Re.search r s adv) as [[f rest]|] eqn:E; [|constructor].
  match goal with
  | |- context [Re.scan n r rest ?e] =>
      specialize (IH rest e); destruct (Re.scan n r rest e) as [fs tail]
  end.
  cbn [fst] in *. apply search_sound in E as [Es [M _]].
  constructor.
  - exists (Re.skipped f), rest. split; [exact Es | exact M].
  - eapply Forall_impl; [|exact IH].
    intros f' [before [rest' [E' M']]].
    exists (Re.skipped f ++ Re.text f ++ before), rest'.
    split; [|exact M']. rewrite Es, E', <- !app_assoc. reflexivity.
Qed.

(** The rounds of [finditer] are enough: the loop has stopped by itself
    before they run out, so more rounds change nothing. *)
Lemma scan_rounds_enough r (n : nat) :
  forall (n' : nat) (s : str) (must_advance : bool),
  2 * length s + (if must_advance then 1 else 2) <= n ->
  2 * length s + (if must_advance then 1 else 2) <= n' ->
  Re.scan n r s must_advance = Re.scan n' r s must_advance.
Proof.
  induction n as [|n IH]; intros n' s adv Hn Hn'.
  - destruct adv; lia.
  - destruct n' as [|n']; [destruct adv; lia|]. cbn [Re.scan].
    destruct (Re.search r s adv) as [[f rest]|] eqn:E; [|reflexivity].
    apply search_sound in E as [Es [_ Adv]].
    apply (f_equal (@length N)) in Es. rewrite !length_app in Es.
    rewrite (IH n' rest); [reflexivity | |].
    + destruct (Re.text f) as [|x t] eqn:Et; cbn [length] in *;
        [|destruct adv; lia].
      destruct (Re.skipped f) as [|y k] eqn:Ek; cbn [length] in *;
        [|destruct adv; lia].
      destruct adv; [exfalso; apply Adv; reflexivity | lia].
    + destruct (Re.text f) as [|x t] eqn:Et; cbn [length] in *;
        [|destruct adv; lia].
      destruct (Re.skipped f) as [|y k] eqn:Ek; cbn [length] in *;
        [|destruct adv; lia].
      destruct adv; [exfalso; apply Adv; reflexivity | lia].
Qed.

Lemma finditer_rounds_enough r (s : str) (n : nat) :
  2 * length s + 2 <= n -> Re.scan n r s false = Re.finditer r s.
Proof.
  intros H. unfold Re.finditer. apply scan_rounds_enough; [exact H | lia].
Qed.

(** Reading a match back, constructor by constructor. *)
Lemma Matches_Lit_inv l s g s' g' :
  Re.Matches (Re.Lit l) s g s' g' -> s = l ++ s' /\ g' = g.
Proof. intros H; inversion H; subst; auto. Qed.

Lemma Matches_Set_inv p s g s' g' :
  Re.Matches (Re.Set_ p) s g s' g' ->
  exists c, p c = true /\ s = c :: s' /\ g' = g.
Proof. intros H; inversion H; subst; eauto. Qed.

Lemma Matches_Seq_inv r1 r2 s g s' g' :
  Re.Matches (Re.Seq r1 r2) s g s' g' ->
  exists s1 g1, Re.Matches r1 s g s1 g1 /\ Re.Matches r2 s1 g1 s' g'.
Proof. intros H; inversion H; subst; eauto. Qed.

Lemma Matches_Alt_inv r1 r2 s g s' g' :
  Re.Matches (Re.Alt r1 r2) s g s' g' ->
  Re.Matches r1 s g s' g' \/ Re.Matches r2 s g s' g'.
Proof. intros H; inversion H; subst; auto. Qed.

Lemma Matches_Star_inv greedy p s g s' g' :
  Re.Matches (Re.Star greedy p) s g s' g' ->
  exists m, forallb p m = true /\ s = m ++ s' /\ g' = g.
Proof. intros H; inversion H; subst; eauto. Qed.

Lemma Matches_Plus_inv p s g s' g' :
  Re.Matches (Re.Plus p) s g s' g' ->
  exists m, m <> [] /\ forallb p m = true /\ s = m ++ s' /\ g' = g.
Proof.
  intros H. apply Matches_Seq_inv in H as [s1 [g1 [H1 H2]]].
  apply Matches_Set_inv in H1 as [c [Pc [E1 G1]]].
  apply Matches_Star_inv in H2 as [m [Pm [E2 G2]]].
  subst. exists (c :: m). simpl. rewrite Pc, Pm.
  repeat split; discriminate || reflexivity.
Qed.

Lemma Matches_Group_inv i r s g s' g' :
  Re.Matches (Re.Group i r) s g s' g' ->
  exists g1, Re.Matches r s g s' g1 /\
             g' = (i, firstn (length s - length s') s) :: g1.
Proof. intros H; inversion H; subst; eauto. Qed.

(** ** The layer extractor *)

Section Extractor.

Variable db : unicode_db.

Lemma layer_name_match s g s' g' :
  Re.Matches (Re.Group 1 (layer_name_pattern db)) s g s' g' ->
  exists name,
    is_layer_identifier db name /\ s = name ++ s' /\ g' = (1, name) :: g.
Proof.
  intros H. apply Matches_Group_inv in H as [g1 [H Eg]].
  assert (D : exists ds, ds <> [] /\ forallb (isdecimal db) ds = true /\
                (s = (u "Layer_" ++ ds) ++ s' \/ s = (u "layer_" ++ ds) ++ s')
                /\ g1 = g).
  { apply Matches_Alt_inv in H as [H|H];
      apply Matches_Seq_inv in H as [s1 [g2 [HL HP]]];
      apply Matches_Lit_inv in HL as [E1 G1];
      apply Matches_Plus_inv in HP as [ds [Hne [Hd [E2 G2]]]];
      subst; exists ds; rewrite <- !app_assoc; auto. }
  destruct D as [ds [Hne [Hd [[E|E] G]]]]; subst g1;
    rewrite E in Eg; rewrite firstn_matched in Eg.
  - exists (u "Layer_" ++ ds).
    split; [exists ds; auto | split; [exact E | exact Eg]].
  - exists (u "layer_" ++ ds).
    split; [exists ds; auto | split; [exact E | exact Eg]].
Qed.

Lemma capture_match (p : N -> bool) i s g s' g' :
  Re.Matches (Re.Group i (Re.Plus p)) s g s' g' ->
  exists cap,
    cap <> [] /\ forallb p cap = true /\ s = cap ++ s' /\ g' = (i, cap) :: g.
Proof.
  intros H. apply Matches_Group_inv in H as [g1 [H Eg]].
  apply Matches_Plus_inv in H as [cap [Hne [Hp [E G]]]]. subst g1.
  rewrite E in Eg. rewrite firstn_matched in Eg.
  exists cap; auto.
Qed.

(** The shape of every match of the layer pattern. *)
Lemma layer_pattern_match s s' g :
  Re.Matches (layer_pattern db) s [] s' g ->
  exists name ws1 mid ws2 ws3 ws4 cap ws5,
    s = name ++ ws1 ++ u "{" ++ mid ++ u "bindings" ++ ws2 ++ u "="
          ++ ws3 ++ u "<" ++ ws4 ++ cap ++ ws5 ++ u ">" ++ s' /\
    g = [(2, cap); (1, name)] /\
    is_layer_identifier db name /\
    forallb isspace ws1 = true /\
    forallb not_brace mid = true /\
    forallb isspace ws2 = true /\
    forallb isspace ws3 = true /\
    forallb isspace ws4 = true /\
    cap <> [] /\
    forallb (fun c => negb (c =? ch ">")%N) cap = true /\
    forallb isspace ws5 = true.
Proof.
  unfold layer_pattern. intros H.
  apply Matches_Seq_inv in H as [s1 [g1 [H1 H]]].
  apply Matches_Seq_inv in H as [s2 [g2 [H2 H]]].
  apply Matches_Seq_inv in H as [s3 [g3 [H3 H]]].
  apply Matches_Seq_inv in H as [s4 [g4 [H4 H]]].
  apply Matches_Seq_inv in H as [s5 [g5 [H5 H]]].
  apply Matches_Seq_inv in H as [s6 [g6 [H6 H]]].
  apply Matches_Seq_inv in H as [s7 [g7 [H7 H]]].
  apply Matches_Seq_inv in H as [s8 [g8 [H8 H]]].
  apply Matches_Seq_inv in H as [s9 [g9 [H9 H]]].
  apply Matches_Seq_inv in H as [s10 [g10 [H10 H]]].
  apply Matches_Seq_inv in H as [s11 [g11 [H11 H]]].
  apply Matches_Seq_inv in H as [s12 [g12 [H12 H13]]].
  apply layer_name_match in H1 as [name [Hname [E1 G1]]].
  apply Matches_Star_inv in H2 as [ws1 [W1 [E2 G2]]].
  apply Matches_Lit_inv in H3 as [E3 G3].
  apply Matches_Star_inv in H4 as [mid [M4 [E4 G4]]].
  apply Matches_Lit_inv in H5 as [E5 G5].
  apply Matches_Star_inv in H6 as [ws2 [W6 [E6 G6]]].
  apply Matches_Lit_inv in H7 as [E7 G7].
  apply Matches_Star_inv in H8 as [ws3 [W8 [E8 G8]]].
  apply Matches_Lit_inv in H9 as [E9 G9].
  apply Matches_Star_inv in H10 as [ws4 [W10 [E10 G10]]].
  apply capture_match in H11 as [cap [Hne [Hcap [E11 G11]]]].
  apply Matches_Star_inv in H12 as [ws5 [W12 [E12 G12]]].
  apply Matches_Lit_inv in H13 as [E13 G13].
  subst. exists name, ws1, mid, ws2, ws3, ws4, cap, ws5.
  repeat split; assumption || reflexivity.
Qed.

(** Every result of the scan for layers is a match of the pattern in the
    scanned text. *)
Lemma layer_matches_sound (text : str) (f : Re.found) :
  In f (fst (Re.finditer (layer_pattern db) text)) ->
  exists before rest,
    text = before ++ Re.text f ++ rest /\
    Re.Matches (layer_pattern db) (Re.text f ++ rest) [] rest (Re.captures f).
Proof.
  intros H. unfold Re.finditer in H.
  pose proof (scan_sound (layer_pattern db) (2 * length text + 2)
                text false) as F.
  rewrite Forall_forall in F. exact (F f H).
Qed.

Lemma isspace_not_brace (c : N) : isspace c = true -> not_brace c = true.
Proof.
  intros H. unfold not_brace. change (ch "{") with 123%N.
  change (ch "}") with 125%N.
  destruct (c =? 123)%N eqn:E1;
    [apply N.eqb_eq in E1; subst c; discriminate H|].
  destruct (c =? 125)%N eqn:E2;
    [apply N.eqb_eq in E2; subst c; discriminate H|].
  reflexivity.
Qed.

Lemma isdecimal_not_brace (c : N) : isdecimal db c = true -> not_brace c = true.
Proof.
  intros H. unfold not_brace. change (ch "{") with 123%N.
  change (ch "}") with 125%N.
  destruct (c =? 123)%N eqn:E1;
    [apply N.eqb_eq in E1; subst c; discriminate H|].
  destruct (c =? 125)%N eqn:E2;
    [apply N.eqb_eq in E2; subst c; discriminate H|].
  reflexivity.
Qed.

Lemma forallb_impl {A : Type} (p q : A -> bool) (l : list A) :
  (forall x, p x = true -> q x = true) ->
  forallb p l = true -> forallb q l = true.
Proof.
  intros I H. rewrite forallb_forall in *. intros x Hx. apply I, H, Hx.
Qed.

Lemma layer_identifier_no_brace (name : str) :
  is_layer_identifier db name -> forallb not_brace name = true.
Proof.
  intros [ds [_ [Hd [-> | ->]]]]; rewrite forallb_app;
    rewrite (forallb_impl _ _ _ isdecimal_not_brace Hd); reflexivity.
Qed.

(** C9, as the script has it. Every pair of a layer identifier and a
    bindings text that the extractor reads comes from one match in the
    comment-free text: the identifier, white space, the brace that opens
    its block, then text without any brace that ends in [bindings], [=],
    [<] and white space, then the captured text. So from the identifier to
    the opening angle bracket the match crosses no brace but the one that
    opens the block of the identifier: the clause starts in that block.
    The captured text is not empty and runs up to the next [>], wherever
    that is: nothing keeps braces out of it. *)
Theorem layer_match_stays_in_block (content name cap : str) :
  In (name, cap) (Re.findall2 (layer_pattern db) (strip_comments content)) ->
  exists f before ws inner close rest,
    In f (fst (Re.finditer (layer_pattern db) (strip_comments content))) /\
    Re.group_text f 1 = name /\ Re.group_text f 2 = cap /\
    strip_comments content = before ++ Re.text f ++ rest /\
    Re.text f = name ++ ws ++ u "{" ++ inner ++ cap ++ close ++ u ">" /\
    is_layer_identifier db name /\
    forallb not_brace name = true /\
    forallb isspace ws = true /\ forallb not_brace ws = true /\
    forallb not_brace inner = true /\
    (exists mid ws2 ws3 ws4,
       inner = mid ++ u "bindings" ++ ws2 ++ u "=" ++ ws3 ++ u "<" ++ ws4 /\
       forallb isspace ws2 = true /\ forallb isspace ws3 = true /\
       forallb isspace ws4 = true) /\
    cap <> [] /\
    forallb (fun c => negb (c =? ch ">")%N) cap = true /\
    forallb isspace close = true.
Proof.
  unfold Re.findall2. intros H. apply in_map_iff in H as [f [E Hf]].
  destruct (layer_matches_sound _ _ Hf) as [before [rest [Et M]]].
  apply layer_pattern_match in M
    as [nm [ws1 [mid [ws2 [ws3 [ws4 [cp [ws5 M]]]]]]]].
  destruct M as [Es [Eg [Hname [W1 [Hmid [W2 [W3 [W4 [Hne [Hcap W5]]]]]]]]]].
  assert (G1 : Re.group_text f 1 = nm)
    by (unfold Re.group_text; rewrite Eg; reflexivity).
  assert (G2 : Re.group_text f 2 = cp)
    by (unfold Re.group_text; rewrite Eg; reflexivity).
  rewrite G1, G2 in E. injection E as En Ec. subst name cap.
  exists f, before, ws1,
    (mid ++ u "bindings" ++ ws2 ++ u "=" ++ ws3 ++ u "<" ++ ws4),
    ws5, rest.
  split; [exact Hf|]. split; [exact G1|]. split; [exact G2|].
  split; [exact Et|]. split.
  { apply (app_inv_tail rest). rewrite Es, <- !app_assoc. reflexivity. }
  split; [exact Hname|].
  split; [apply layer_identifier_no_brace, Hname|].
  split; [exact W1|].
  split; [exact (forallb_impl _ _ _ isspace_not_brace W1)|].
  split.
  { rewrite !forallb_app, Hmid.
    rewrite (forallb_impl _ _ _ isspace_not_brace W2).
    rewrite (forallb_impl _ _ _ isspace_not_brace W3).
    rewrite (forallb_impl _ _ _ isspace_not_brace W4). reflexivity. }
  split; [exists mid, ws2, ws3, ws4; auto|].
  split; [exact Hne|]. split; [exact Hcap | exact W5].
Qed.

End Extractor.

(** *** Dictionaries and sorting *)

Lemma dict_set_In {V : Type} (d : list (str * V)) key v kv :
  In kv (dict_set d key v) -> kv = (key, v) \/ In kv d.
Proof.
  induction d as [|[k x] d IH]; simpl.
  - intros [<-|[]]; auto.
  - destruct (str_eqb k key) eqn:E.
    + apply str_eqb_eq in E; subst k. intros [<-|H]; auto.
    + intros [<-|H]; auto. destruct (IH H); auto.
Qed.

Lemma dict_set_new {V : Type} (d : list (str * V)) key v :
  ~ In key (map fst d) -> dict_set d key v = d ++ [(key, v)].
Proof.
  induction d as [|[k x] d IH]; simpl; intros H; [reflexivity|].
  destruct (str_eqb k key) eqn:E.
  - apply str_eqb_eq in E. contradiction H; auto.
  - rewrite IH; [reflexivity|]. intros I; apply H; auto.
Qed.

Lemma dict_set_old {V : Type} (d : list (str * V)) key v :
  In key (map fst d) -> map fst (dict_set d key v) = map fst d.
Proof.
  induction d as [|[k x] d IH]; simpl; intros H; [contradiction|].
  destruct (str_eqb k key) eqn:E; [reflexivity|].
  simpl. f_equal. apply IH. destruct H as [H|H]; [|exact H].
  subst k. rewrite str_eqb_refl in E. discriminate.
Qed.

Lemma str_in_dec (key : str) (l : list str) : {In key l} + {~ In key l}.
Proof. apply in_dec. apply list_eq_dec. apply N.eq_dec. Qed.

Lemma dict_set_keys {V : Type} (d : list (str * V)) key v :
  NoDup (map fst d) ->
  NoDup (map fst (dict_set d key v)) /\
  (forall k, In k (map fst (dict_set d key v)) <-> k = key \/ In k (map fst d)).
Proof.
  intros ND. destruct (str_in_dec key (map fst d)) as [I|I].
  - rewrite dict_set_old by exact I. split; [exact ND|].
    intros k; split; [auto | intros [->|H]; assumption].
  - rewrite dict_set_new by exact I. rewrite map_app. simpl. split.
    + apply NoDup_app; [exact ND | repeat constructor; intros [] |].
      intros a Ha [<-|[]]. exact (I Ha).
    + intros k. rewrite in_app_iff. simpl. intuition.
Qed.

Lemma insert_by_key_perm {A : Type} (x : N * A) (l : list (N * A)) :
  Permutation (x :: l) (insert_by_key x l).
Proof.
  induction l as [|y l IH]; simpl; [reflexivity|].
  destruct (fst y <? fst x)%N; [|reflexivity].
  rewrite perm_swap. constructor. exact IH.
Qed.

Lemma sort_by_key_perm {A : Type} (l : list (N * A)) :
  Permutation l (sort_by_key l).
Proof.
  induction l as [|x l IH]; simpl; [reflexivity|].
  rewrite <- insert_by_key_perm. constructor. exact IH.
Qed.

Lemma insert_by_key_sorted {A : Type} (x : N * A) (l : list (N * A)) :
  Sorted (fun a b => (fst a <= fst b)%N) l ->
  Sorted (fun a b => (fst a <= fst b)%N) (insert_by_key x l).
Proof.
  induction l as [|y l IH]; simpl; intros H.
  - repeat constructor.
  - inversion H as [|? ? Hs Hd]; subst.
    destruct (fst y <? fst x)%N eqn:E.
    + constructor; [apply IH, Hs|].
      destruct l as [|z l]; simpl.
      * constructor. apply N.ltb_lt in E. lia.
      * inversion Hd; subst.
        destruct (fst z <? fst x)%N; constructor;
          [assumption | apply N.ltb_lt in E; lia].
    + constructor; [exact H|]. constructor. apply N.ltb_ge in E. exact E.
Qed.

Lemma sort_by_key_sorted {A : Type} (l : list (N * A)) :
  Sorted N.le (map fst (sort_by_key l)).
Proof.
  assert (S : Sorted (fun a b => (fst a <= fst b)%N) (sort_by_key l)).
  { induction l as [|x l IH]; simpl; [constructor|].
    apply insert_by_key_sorted, IH. }
  induction S as [|a k _ IH Hd]; simpl; constructor; [exact IH|].
  destruct Hd; simpl; constructor; assumption.
Qed.

(** What [sorted] returns when the key function returns on every item:
    the items, rearranged, and their keys are in ascending order. *)
Lemma sorted_spec {A : Type} (key : A -> result N) (items : list A) :
  (forall x, In x items -> exists k, key x = Ret k) ->
  exists names numbers,
    sorted key items = Ret names /\
    Permutation items names /\
    for_each key names = Ret numbers /\
    Sorted N.le numbers.
Proof.
  intros H.
  assert (K : exists keyed,
             for_each (fun x => k <- key x ;; Ret (k, x)) items = Ret keyed /\
             map snd keyed = items /\
             Forall (fun kx => key (snd kx) = Ret (fst kx)) keyed).
  { induction items as [|x items IH]; simpl.
    - exists []; repeat split; constructor.
    - destruct (H x (or_introl eq_refl)) as [k Hk].
      destruct IH as [keyed [E [M F]]]; [intros z Hz; apply H; right; exact Hz|].
      exists ((k, x) :: keyed). rewrite Hk. simpl. rewrite E. simpl.
      repeat split; [f_equal; exact M | constructor; assumption]. }
  destruct K as [keyed [E [M F]]].
  exists (map snd (sort_by_key keyed)), (map fst (sort_by_key keyed)).
  unfold sorted. rewrite E. simpl. split; [reflexivity|]. split; [|split].
  - rewrite <- M. apply Permutation_map, sort_by_key_perm.
  - assert (F' : Forall (fun kx => key (snd kx) = Ret (fst kx))
                   (sort_by_key keyed))
      by (eapply Permutation_Forall; [apply sort_by_key_perm | exact F]).
    induction F' as [|kx l Hkx _ IH]; simpl; [reflexivity|].
    rewrite Hkx. simpl. rewrite IH. reflexivity.
  - apply sort_by_key_sorted.
Qed.

(** *** The layers of a keymap *)

Section Layers.

Variable db : unicode_db.
Variable pf : platform.

(** A greedy repetition whose continuation takes whatever it is given
    keeps its longest run. *)
Lemma star_greedy_longest {A : Type} (p : N -> bool) (s : str)
  (k : str -> option A) :
  (forall s', k s' <> None) -> Re.star_greedy p s k = k (lstrip_by p s).
Proof.
  intros K. induction s as [|c s IH]; cbn [Re.star_greedy lstrip_by];
    [reflexivity|].
  destruct (p c); [|reflexivity].
  rewrite IH. destruct (k (lstrip_by p s)) eqn:E; [reflexivity|].
  contradiction (K _ E).
Qed.

Lemma digit_prefix_split (x : str) :
  x = digit_prefix db x ++ lstrip_by (isdecimal db) x.
Proof.
  induction x as [|c x IH]; cbn [digit_prefix lstrip_by]; [reflexivity|].
  destruct (isdecimal db c); [|reflexivity]. cbn [app]. f_equal. exact IH.
Qed.

Lemma digit_prefix_decimal (x : str) :
  forallb (isdecimal db) (digit_prefix db x) = true.
Proof.
  induction x as [|c x IH]; cbn [digit_prefix]; [reflexivity|].
  destruct (isdecimal db c) eqn:E; [|reflexivity].
  cbn [forallb]. rewrite E. exact IH.
Qed.

Lemma digit_prefix_all (ds : str) :
  forallb (isdecimal db) ds = true -> digit_prefix db ds = ds.
Proof.
  induction ds as [|c ds IH]; cbn [forallb digit_prefix]; [reflexivity|].
  intros H. apply andb_true_iff in H as [Hc H]. rewrite Hc, (IH H).
  reflexivity.
Qed.

(** What [\d+] matches at the head of a string: the longest run of digits
    there. *)
Lemma match_at_digits (c : N) (t : str) :
  Re.match_at (digits db) (c :: t) false =
    if isdecimal db c then Some (lstrip_by (isdecimal db) t, []) else None.
Proof.
  unfold Re.match_at, digits, Re.Plus. cbn [Re.exec].
  destruct (isdecimal db c); [|reflexivity].
  rewrite star_greedy_longest; [reflexivity|].
  intros s'. cbn [andb]. discriminate.
Qed.

(** [re.search(r'\d+', x)] finds the first run of digits of [x], when [x]
    has a digit. *)
Lemma search_digits (x : str) :
  match Re.search (digits db) x false with
  | Some (f, _) =>
      Re.text f = first_digit_run db x /\ first_digit_run db x <> []
  | None => first_digit_run db x = []
  end.
Proof.
  induction x as [|c t IH]; [reflexivity|].
  cbn [Re.search]. rewrite match_at_digits. cbn [first_digit_run].
  destruct (isdecimal db c) eqn:D.
  - cbn [Re.text digit_prefix]. rewrite D. split; [|discriminate].
    pose proof (firstn_matched (c :: digit_prefix db t)
                  (lstrip_by (isdecimal db) t)) as F.
    cbn [app] in F. rewrite <- digit_prefix_split in F. exact F.
  - destruct (Re.search (digits db) t false) as [[f rest]|]; exact IH.
Qed.

(** Reading digits from the left, as [int] does, gives the number that
    they spell. *)
Lemma int_from_spelled (ds : str) : forall acc : N,
  forallb (isdecimal db) ds = true ->
  int_from db acc ds
    = Ret (acc * 10 ^ N.of_nat (length ds) + number_spelled db ds)%N.
Proof.
  induction ds as [|c ds IH]; intros acc H.
  - cbn [int_from length number_spelled]. f_equal.
    change (N.of_nat 0) with 0%N. rewrite N.pow_0_r. lia.
  - cbn [forallb] in H. apply andb_true_iff in H as [Hc H].
    cbn [int_from number_spelled length]. unfold digit_value.
    unfold isdecimal in Hc. destruct (decimal db c) as [d|]; [|discriminate].
    rewrite (IH _ H). f_equal.
    rewrite Nat2N.inj_succ, N.pow_succ_r'.
    set (P := (10 ^ N.of_nat (length ds))%N). nia.
Qed.

(** The number of a layer: [layer_number] answers with the integer that
    the first run of digits spells, unless there is no digit or the run is
    too long for [int]. *)
Lemma layer_number_spec (x : str) :
  layer_number db pf x =
    match first_digit_run db x with
    | [] => Raise AttributeError
    | _ :: _ =>
        if number_too_long db pf x then Raise ValueError
        else Ret (number_of db x)
    end.
Proof.
  unfold layer_number, number_too_long, number_of.
  pose proof (search_digits x) as S.
  destruct (Re.search (digits db) x false) as [[f rest]|].
  - destruct S as [-> Hne].
    assert (D : forallb (isdecimal db) (first_digit_run db x) = true).
    { clear Hne. induction x as [|c x IH]; [reflexivity|].
      cbn [first_digit_run]. destruct (isdecimal db c); [|exact IH].
      apply digit_prefix_decimal. }
    destruct (first_digit_run db x) as [|d ds] eqn:E;
      [contradiction Hne; reflexivity|].
    unfold int.
    destruct (too_many_digits (int_max_str_digits pf) (length (d :: ds)));
      [reflexivity|].
    rewrite (int_from_spelled (d :: ds) 0%N D). f_equal.
  - rewrite S. reflexivity.
Qed.

(** The first run of digits of a layer identifier is what follows its
    underscore. *)
Lemma identifier_digits (name : str) :
  is_layer_identifier db name ->
  exists ds,
    ds <> [] /\ forallb (isdecimal db) ds = true /\
    (name = u "Layer_" ++ ds \/ name = u "layer_" ++ ds) /\
    first_digit_run db name = ds.
Proof.
  intros [ds [Hne [Hd E]]]. exists ds. split; [exact Hne|].
  split; [exact Hd|]. split; [exact E|].
  assert (F : first_digit_run db ds = ds).
  { destruct ds as [|d ds]; [reflexivity|]. cbn [first_digit_run].
    cbn [forallb] in Hd. apply andb_true_iff in Hd as Hd'.
    rewrite (proj1 Hd'). apply digit_prefix_all, Hd. }
  destruct E as [-> | ->]; exact F.
Qed.

(** [layer_number] on a layer identifier: its number, or [ValueError] when
    the number is too long. *)
Lemma layer_number_identifier (name : str) :
  is_layer_identifier db name ->
  layer_number db pf name =
    if number_too_long db pf name then Raise ValueError
    else Ret (number_of db name).
Proof.
  intros H. destruct (identifier_digits name H) as [ds [Hne [_ [_ F]]]].
  rewrite layer_number_spec, F.
  destruct ds; [contradiction Hne; reflexivity | reflexivity].
Qed.

(** Every pair that [findall2] reads with the layer pattern starts with a
    layer identifier. *)
Lemma findall2_layer_identifier (text name cap : str) :
  In (name, cap) (Re.findall2 (layer_pattern db) text) ->
  is_layer_identifier db name.
Proof.
  unfold Re.findall2. intros H. apply in_map_iff in H as [f [E Hf]].
  destruct (layer_matches_sound db _ _ Hf) as [before [rest [_ M]]].
  apply layer_pattern_match in M
    as [nm [ws1 [mid [ws2 [ws3 [ws4 [cp [ws5 [_ [Eg [Hname _]]]]]]]]]]].
  unfold Re.group_text in E. rewrite Eg in E. simpl in E.
  injection E as En _. subst name. exact Hname.
Qed.

(** The dictionary [layers] after the loop over the matches: its keys are
    distinct, each of its layers has at least 36 tokens and was read from a
    match, and every match with at least 36 tokens has its key in it. *)
Lemma collect_layers_from (all : list (str * str)) (matches : list (str * str)) :
  forall acc : list (str * list str),
  incl matches all ->
  NoDup (map fst acc) ->
  (forall name bindings, In (name, bindings) acc ->
     36 <= length bindings /\
     exists text, In (name, text) all /\ bindings = tokens text) ->
  NoDup (map fst (fold_left keep_full_layer matches acc)) /\
  (forall name bindings,
     In (name, bindings) (fold_left keep_full_layer matches acc) ->
     36 <= length bindings /\
     exists text, In (name, text) all /\ bindings = tokens text) /\
  (forall name, In name (map fst acc) ->
     In name (map fst (fold_left keep_full_layer matches acc))) /\
  (forall name text, In (name, text) matches ->
     36 <= length (tokens text) ->
     In name (map fst (fold_left keep_full_layer matches acc))).
Proof.
  induction matches as [|[nm text] matches IH]; intros acc Hincl ND Hacc;
    cbn [fold_left].
  - split; [exact ND|]. split; [exact Hacc|]. split; [auto|].
    intros ? ? [].
  - assert (Hincl' : incl matches all)
      by (intros z Hz; apply Hincl; right; exact Hz).
    change (keep_full_layer acc (nm, text))
      with (if 36 <=? length (tokens text)
            then dict_set acc nm (tokens text) else acc).
    destruct (36 <=? length (tokens text)) eqn:E.
    + apply Nat.leb_le in E.
      destruct (dict_set_keys acc nm (tokens text) ND) as [ND' K].
      destruct (IH (dict_set acc nm (tokens text)) Hincl' ND') as [A [B [C D]]].
      { intros name b Hin. apply dict_set_In in Hin as [Hin|Hin].
        - injection Hin as -> ->. split; [exact E|].
          exists text. split; [apply Hincl; left; reflexivity | reflexivity].
        - apply Hacc, Hin. }
      split; [exact A|]. split; [exact B|]. split.
      * intros name Hn. apply C, K. right; exact Hn.
      * intros name t [Hin|Hin] Ht.
        -- injection Hin as -> ->. apply C, K. left; reflexivity.
        -- exact (D name t Hin Ht).
    + destruct (IH acc Hincl' ND Hacc) as [A [B [C D]]].
      split; [exact A|]. split; [exact B|]. split; [exact C|].
      intros name t [Hin|Hin] Ht.
      * injection Hin as -> ->. apply Nat.leb_gt in E. lia.
      * exact (D name t Hin Ht).
Qed.

(** The dictionary of the first loop on the candidates of a text. *)
Lemma collected (content : str) :
  NoDup (map fst (collect_layers
                    (Re.findall2 (layer_pattern db) (strip_comments content))))
  /\
  (forall name bindings,
     In (name, bindings)
        (collect_layers
           (Re.findall2 (layer_pattern db) (strip_comments content))) ->
     36 <= length bindings /\ is_layer_identifier db name /\
     exists text,
       In (name, text)
          (Re.findall2 (layer_pattern db) (strip_comments content)) /\
       bindings = tokens text) /\
  (forall name text,
     In (name, text)
        (Re.findall2 (layer_pattern db) (strip_comments content)) ->
     36 <= length (tokens text) ->
     In name
        (map fst
           (collect_layers
              (Re.findall2 (layer_pattern db) (strip_comments content))))).
Proof.
  set (matches := Re.findall2 (layer_pattern db) (strip_comments content)).
  destruct (collect_layers_from matches matches [] (incl_refl _) (NoDup_nil _))
    as [ND [Full [_ Kept]]]; [intros ? ? []|].
  fold (collect_layers matches) in ND, Full, Kept.
  split; [exact ND|]. split; [|exact Kept].
  intros name bindings H. destruct (Full name bindings H) as [L [text [Ht E]]].
  split; [exact L|]. split; [|exists text; auto].
  exact (findall2_layer_identifier _ _ _ Ht).
Qed.

(** The second loop: the layers are put into a new dictionary in the order
    of the sorted names. *)
Lemma rebuild_in_order (layers : list (str * list str)) (names : list str) :
  forall acc : list (str * list str),
  NoDup names ->
  (forall n, In n names -> In n (map fst layers)) ->
  (forall n, In n names -> ~ In n (map fst acc)) ->
  exists entries,
    fold_left
      (fun acc name =>
         sorted_layers <- acc ;;
         bindings <- getitem layers name ;;
         Ret (dict_set sorted_layers name bindings))
      names (Ret acc) = Ret (acc ++ entries) /\
    map fst entries = names /\
    (forall n v, In (n, v) entries -> In (n, v) layers).
Proof.
  induction names as [|n names IH]; intros acc ND Hin Hfresh; simpl.
  - exists []. rewrite app_nil_r. repeat split. intros ? ? [].
  - inversion ND as [|? ? Hn ND']; subst.
    destruct (In_dict_get layers n (Hin n (or_introl eq_refl))) as [v Hv].
    unfold getitem at 2. rewrite Hv. simpl.
    rewrite dict_set_new by (apply Hfresh; left; reflexivity).
    destruct (IH (acc ++ [(n, v)]) ND') as [entries [E [M I]]].
    + intros m Hm. apply Hin. right; exact Hm.
    + intros m Hm. rewrite map_app, in_app_iff. simpl.
      intros [H|[H|[]]]; [exact (Hfresh m (or_intror Hm) H)|].
      subst m. exact (Hn Hm).
    + exists ((n, v) :: entries). rewrite E, <- app_assoc. simpl.
      split; [reflexivity|]. split; [f_equal; exact M|].
      intros m w [H|H]; [|exact (I m w H)].
      injection H as <- <-. apply dict_get_In, Hv.
Qed.

(** A list comprehension raises when one of its elements does. *)
Lemma for_each_raises {A B : Type} (f : A -> result B) (e : exn)
  (l : list A) :
  (forall x, In x l -> (exists y, f x = Ret y) \/ f x = Raise e) ->
  (exists x, In x l /\ f x = Raise e) ->
  for_each f l = Raise e.
Proof.
  induction l as [|x l IH]; intros All [z [Hz Ez]]; [contradiction|].
  cbn [for_each].
  destruct (All x (or_introl eq_refl)) as [[y Hy]|Hx];
    [|rewrite Hx; reflexivity].
  rewrite Hy. cbn [bind]. rewrite IH; [reflexivity | |].
  - intros x' Hx'. apply All. right; exact Hx'.
  - destruct Hz as [->|Hz]; [congruence|]. exists z. auto.
Qed.

(** [parse_keymap] raises when [int] refuses the number of a layer that
    the first loop kept. *)
Lemma parse_keymap_raises (content name : str) :
  In name
     (map fst
        (collect_layers
           (Re.findall2 (layer_pattern db) (strip_comments content)))) ->
  number_too_long db pf name = true ->
  parse_keymap db pf content = Raise ValueError.
Proof.
  intros Hin Hlong. unfold parse_keymap. cbv zeta.
  destruct (collected content) as [_ [Full _]].
  set (kept := collect_layers
                 (Re.findall2 (layer_pattern db) (strip_comments content)))
    in *.
  unfold sorted.
  rewrite (for_each_raises
             (fun x => k <- layer_number db pf x ;; Ret (k, x)) ValueError);
    [reflexivity | |].
  - intros x Hx. apply in_map_iff in Hx as [[n b] [<- Hb]].
    destruct (Full n b Hb) as [_ [Hid _]]. cbn [fst].
    rewrite (layer_number_identifier n Hid).
    destruct (number_too_long db pf n);
      [right; reflexivity | left; eexists; reflexivity].
  - exists name. split; [exact Hin|].
    apply in_map_iff in Hin as [[n b] [En Hb]]. cbn [fst] in En. subst n.
    destruct (Full name b Hb) as [_ [Hid _]].
    rewrite (layer_number_identifier name Hid), Hlong. reflexivity.
Qed.

(** What [parse_keymap] returns when [int] accepts the number of every
    layer that the first loop kept: those layers, in the order in which
    [sorted] puts their identifiers. *)
Lemma parse_keymap_result (content : str) :
  (forall name,
     In name
        (map fst
           (collect_layers
              (Re.findall2 (layer_pattern db) (strip_comments content)))) ->
     number_too_long db pf name = false) ->
  exists layers,
    parse_keymap db pf content = Ret layers /\
    sorted (layer_number db pf)
      (map fst
         (collect_layers
            (Re.findall2 (layer_pattern db) (strip_comments content))))
      = Ret (map fst layers) /\
    (forall n v, In (n, v) layers ->
       In (n, v)
          (collect_layers
             (Re.findall2 (layer_pattern db) (strip_comments content)))) /\
    Permutation
      (map fst
         (collect_layers
            (Re.findall2 (layer_pattern db) (strip_comments content))))
      (map fst layers) /\
    Sorted N.le (map (number_of db) (map fst layers)).
Proof.
  intros Short. unfold parse_keymap. cbv zeta.
  destruct (collected content) as [ND [Full _]].
  set (kept := collect_layers
                 (Re.findall2 (layer_pattern db) (strip_comments content)))
    in *.
  assert (Num : forall x, In x (map fst kept) ->
                  layer_number db pf x = Ret (number_of db x)).
  { intros x Hx. pose proof (Short x Hx) as S.
    apply in_map_iff in Hx as [[n b] [<- Hb]].
    destruct (Full n b Hb) as [_ [Hid _]]. cbn [fst] in *.
    rewrite (layer_number_identifier n Hid), S. reflexivity. }
  destruct (sorted_spec (layer_number db pf) (map fst kept))
    as [names [numbers [Es [P [Ek Hs]]]]].
  { intros x Hx. eexists. exact (Num x Hx). }
  rewrite Es. cbn [bind].
  destruct (rebuild_in_order kept names []) as [entries [E [M I]]].
  - eapply Permutation_NoDup; [exact P | exact ND].
  - intros n Hn. eapply Permutation_in; [symmetry; exact P | exact Hn].
  - intros n _ [].
  - exists entries. rewrite E. cbn [app]. rewrite M.
    split; [reflexivity|]. split; [reflexivity|]. split; [exact I|].
    split; [exact P|].
    assert (N : numbers = map (number_of db) names).
    { assert (Hn : forall x, In x names ->
                     layer_number db pf x = Ret (number_of db x)).
      { intros x Hx. apply Num.
        eapply Permutation_in; [symmetry; exact P | exact Hx]. }
      clear - Ek Hn. revert numbers Ek.
      induction names as [|x names IH]; intros numbers Ek.
      - injection Ek as <-. reflexivity.
      - cbn [for_each] in Ek. rewrite (Hn x (or_introl eq_refl)) in Ek.
        cbn [bind] in Ek.
        destruct (for_each (layer_number db pf) names) as [ks|e] eqn:F;
          [|discriminate].
        cbn [bind] in Ek. injection Ek as <-. cbn [map]. f_equal.
        apply IH; [|reflexivity]. intros y Hy. apply Hn. right; exact Hy. }
    rewrite <- N. exact Hs.
Qed.

(** C2. For every input text, what the extractor returns are layers of at
    least 36 binding tokens, each the tokens of a candidate read from the
    text, under distinct layer identifiers (a candidate with fewer tokens
    is left out, one with at least 36 has its identifier in the result),
    in ascending order of the integer that the first run of digits of the
    identifier spells. The extractor returns unless [int] refuses the
    number of a candidate with at least 36 tokens (more digits than the
    interpreter's limit); it then raises [ValueError]. *)
Theorem parse_keymap_full_layers_sorted (content : str) :
  (forall layers,
     parse_keymap db pf content = Ret layers ->
     NoDup (map fst layers) /\
     (forall name bindings, In (name, bindings) layers ->
        36 <= length bindings /\
        is_layer_identifier db name /\
        exists text,
          In (name, text)
             (Re.findall2 (layer_pattern db) (strip_comments content)) /\
          bindings = tokens text) /\
     (forall name text,
        In (name, text)
           (Re.findall2 (layer_pattern db) (strip_comments content)) ->
        36 <= length (tokens text) -> In name (map fst layers)) /\
     Sorted N.le
       (map (fun name => number_spelled db (first_digit_run db name))
          (map fst layers))) /\
  ((forall name text,
      In (name, text)
         (Re.findall2 (layer_pattern db) (strip_comments content)) ->
      36 <= length (tokens text) -> number_too_long db pf name = false) ->
   exists layers, parse_keymap db pf content = Ret layers) /\
  ((exists name text,
      In (name, text)
         (Re.findall2 (layer_pattern db) (strip_comments content)) /\
      36 <= length (tokens text) /\ number_too_long db pf name = true) ->
   parse_keymap db pf content = Raise ValueError).
Proof.
  destruct (collected content) as [ND [Full Kept]].
  set (kept := collect_layers
                 (Re.findall2 (layer_pattern db) (strip_comments content)))
    in *.
  assert (Returned : (forall name, In name (map fst kept) ->
                        number_too_long db pf name = false) ->
            exists layers,
              parse_keymap db pf content = Ret layers /\
              NoDup (map fst layers) /\
              (forall name bindings, In (name, bindings) layers ->
                 36 <= length bindings /\
                 is_layer_identifier db name /\
                 exists text,
                   In (name, text)
                      (Re.findall2 (layer_pattern db)
                         (strip_comments content)) /\
                   bindings = tokens text) /\
              (forall name text,
                 In (name, text)
                    (Re.findall2 (layer_pattern db)
                       (strip_comments content)) ->
                 36 <= length (tokens text) -> In name (map fst layers)) /\
              Sorted N.le (map (number_of db) (map fst layers))).
  { intros Short.
    destruct (parse_keymap_result content Short)
      as [layers [E [_ [I [P Hs]]]]].
    exists layers. split; [exact E|].
    split; [eapply Permutation_NoDup; [exact P | exact ND]|].
    split; [intros n b H; apply Full, I, H|].
    split; [|exact Hs].
    intros n t Ht L. eapply Permutation_in; [exact P|].
    exact (Kept n t Ht L). }
  split; [|split].
  - intros layers E.
    destruct (existsb (number_too_long db pf) (map fst kept)) eqn:X.
    + apply existsb_exists in X as [name [Hn Hlong]].
      rewrite (parse_keymap_raises content name Hn Hlong) in E.
      discriminate E.
    + destruct Returned as [layers' [E' R]].
      { intros name Hn.
        destruct (number_too_long db pf name) eqn:T; [|reflexivity].
        assert (C : existsb (number_too_long db pf) (map fst kept) = true)
          by (apply existsb_exists; exists name; auto).
        congruence. }
      rewrite E in E'. injection E' as <-. exact R.
  - intros Short. destruct Returned as [layers [E _]]; [|exists layers; exact E].
    intros name Hn. apply in_map_iff in Hn as [[n b] [<- Hb]].
    destruct (Full n b Hb) as [L [_ [text [Ht ->]]]].
    exact (Short n text Ht L).
  - intros [name [text [Hin [L Hlong]]]].
    exact (parse_keymap_raises content name (Kept name text Hin L) Hlong).
Qed.

End Layers.

(** ** Searching and cutting strings *)

Lemma find_eq (s sub : str) :
  find s sub =
    if startswith s sub then Some 0
    else match s with
         | [] => None
         | _ :: s' => option_map S (find s' sub)
         end.
Proof. destruct s; reflexivity. Qed.

Lemma startswith_prefix (x y sub : str) :
  startswith x sub = true -> startswith (x ++ y) sub = true.
Proof.
  revert x; induction sub as [|a sub IH]; intros x H; [reflexivity|].
  destruct x as [|b x]; [discriminate|]. cbn [app startswith] in *.
  apply andb_true_iff in H as [E H]. rewrite E. exact (IH x H).
Qed.

(** Where [find] finds [sub], it is, and not before. *)
Lemma find_Some (s : str) : forall (sub : str) (i : nat),
  sub <> [] ->
  find s sub = Some i ->
  s = firstn i s ++ sub ++ skipn (i + length sub) s /\
  find (firstn i s) sub = None.
Proof.
  induction s as [|c s IH]; intros sub i Hne H; rewrite find_eq in H.
  - destruct (startswith [] sub) eqn:P; [|discriminate].
    destruct sub; [contradiction Hne; reflexivity | discriminate].
  - destruct (startswith (c :: s) sub) eqn:P.
    + injection H as <-. cbn [firstn Nat.add app]. split.
      * apply startswith_inv, P.
      * destruct sub; [contradiction Hne; reflexivity | reflexivity].
    + destruct (find s sub) as [i'|] eqn:F; [|discriminate].
      injection H as <-. destruct (IH sub i' Hne F) as [E N].
      cbn [firstn Nat.add skipn app]. split; [f_equal; exact E|].
      rewrite find_eq, N.
      destruct (startswith (c :: firstn i' s) sub) eqn:Q; [|reflexivity].
      apply (startswith_prefix _ (skipn i' s)) in Q.
      cbn [app] in Q. rewrite firstn_skipn in Q. congruence.
Qed.

Lemma contains_false (s sub : str) :
  contains s sub = false <-> find s sub = None.
Proof. unfold contains. destruct (find s sub); split; congruence. Qed.

Lemma contains_true (s sub : str) :
  contains s sub = true -> exists i, find s sub = Some i.
Proof. unfold contains. destruct (find s sub); [eauto | discriminate]. Qed.

Lemma contains_up_to (s sub : str) :
  sub <> [] -> contains (up_to s sub) sub = false.
Proof.
  intros Hne. apply contains_false. unfold up_to.
  destruct (find s sub) as [i|] eqn:F; [|exact F].
  exact (proj2 (find_Some s sub i Hne F)).
Qed.

(** Characters that are not the first of [sub] are skipped. *)
Lemma find_skip (h : N) (sub' x y : str) :
  forallb (fun c => negb (c =? h)%N) x = true ->
  find (x ++ y) (h :: sub') =
    option_map (Nat.add (length x)) (find y (h :: sub')).
Proof.
  induction x as [|a x IH]; intros H.
  - cbn [app length]. destruct (find y (h :: sub')); reflexivity.
  - cbn [forallb] in H. apply andb_true_iff in H as [Ha H].
    apply negb_true_iff in Ha.
    cbn [app]. rewrite find_eq. cbn [startswith].
    rewrite N.eqb_sym, Ha. cbn [andb]. rewrite (IH H).
    destruct (find y (h :: sub')); reflexivity.
Qed.

(** An occurrence of [sub] that starts in [x] and reaches [c], the
    character after [x], has [c] somewhere after its first character. *)
Lemma startswith_straddle (sub : str) : forall (x : str) (c : N) (y : str),
  x <> [] ->
  startswith (x ++ c :: y) sub = true ->
  startswith x sub = true \/ In c (tl sub).
Proof.
  induction sub as [|a sub IH]; intros x c y Hne H; [left; reflexivity|].
  destruct x as [|b x]; [contradiction Hne; reflexivity|].
  cbn [app startswith] in *. apply andb_true_iff in H as [E H]. rewrite E.
  destruct x as [|b' x].
  - destruct sub as [|a' sub]; [left; reflexivity|].
    cbn [app startswith] in H. apply andb_true_iff in H as [E' _].
    apply N.eqb_eq in E'. right. left. exact E'.
  - destruct (IH (b' :: x) c y) as [P|P]; [discriminate | exact H | |].
    + left. exact P.
    + right. cbn [tl]. destruct sub as [|a' sub]; [contradiction P|].
      right. exact P.
Qed.

(** Text without [sub], followed by a character that [sub] has at most in
    first place: the first occurrence is searched after the text. *)
Lemma find_app (sub x : str) (c : N) (y : str) :
  contains x sub = false ->
  ~ In c (tl sub) ->
  find (x ++ c :: y) sub = option_map (Nat.add (length x)) (find (c :: y) sub).
Proof.
  intros Hx Hc. apply contains_false in Hx.
  induction x as [|a x IH].
  - cbn [app length]. destruct (find (c :: y) sub); reflexivity.
  - rewrite find_eq in Hx.
    destruct (startswith (a :: x) sub) eqn:P; [discriminate|].
    destruct (find x sub) eqn:F; [discriminate|].
    cbn [app]. rewrite find_eq.
    destruct (startswith (a :: x ++ c :: y) sub) eqn:Q.
    + destruct (startswith_straddle sub (a :: x) c y) as [R|R];
        [discriminate | exact Q | congruence | contradiction].
    + rewrite (IH eq_refl). cbn [length].
      destruct (find (c :: y) sub); reflexivity.
Qed.

Lemma skipn_app_exact {A : Type} (x y : list A) :
  skipn (length x) (x ++ y) = y.
Proof. induction x; [reflexivity | assumption]. Qed.

Lemma firstn_app_exact {A : Type} (x y : list A) :
  firstn (length x) (x ++ y) = x.
Proof. induction x; [reflexivity | simpl; f_equal; assumption]. Qed.

(** The first two pieces of [s.split(sep)]. *)
Lemma split_first (s sep : str) :
  sep <> [] ->
  exists parts,
    Py.split s sep = Ret parts /\ index parts 0 = Ret (up_to s sep) /\
    forall i, find s sep = Some i ->
      index parts 1 = Ret (up_to (skipn (i + length sep) s) sep).
Proof.
  intros Hne. exists (split_rounds (length s) s sep).
  split; [destruct sep; [contradiction Hne; reflexivity | reflexivity]|].
  unfold up_to. destruct (find s sep) as [i|] eqn:F.
  - destruct (find_Some s sep i Hne F) as [E _].
    assert (L1 : 1 <= length sep)
      by (destruct sep; [contradiction Hne; reflexivity | simpl; lia]).
    assert (L : length s = i + length sep + length (skipn (i + length sep) s)).
    { rewrite E at 1. rewrite !length_app, length_firstn.
      apply (f_equal (@length N)) in E. rewrite !length_app in E.
      rewrite length_firstn in E. lia. }
    destruct (length s) as [|n] eqn:Ls; [lia|].
    cbn [split_rounds]. rewrite F. split; [reflexivity|].
    intros j Hj. injection Hj as <-.
    remember (skipn (i + length sep) s) as rest.
    destruct (find rest sep) as [k|] eqn:F2.
    + destruct (find_Some rest sep k Hne F2) as [E2 _].
      apply (f_equal (@length N)) in E2. rewrite !length_app in E2.
      destruct n as [|n]; [lia|].
      cbn [split_rounds]. rewrite F2. reflexivity.
    + destruct n; cbn [split_rounds]; rewrite F2; reflexivity.
  - split; [|discriminate].
    destruct (length s); cbn [split_rounds]; rewrite F; reflexivity.
Qed.

(** The rounds of [split] are enough: more of them change nothing. *)
Lemma split_rounds_enough (sep : str) (n : nat) :
  forall (m : nat) (s : str),
  sep <> [] -> length s <= n -> length s <= m ->
  split_rounds n s sep = split_rounds m s sep.
Proof.
  induction n as [|n IH]; intros m s Hne Hn Hm.
  - destruct s; [|cbn [length] in Hn; lia].
    destruct sep; [contradiction Hne; reflexivity|].
    destruct m; reflexivity.
  - cbn [split_rounds]. destruct (find s sep) as [i|] eqn:F.
    + destruct (find_Some s sep i Hne F) as [E _].
      apply (f_equal (@length N)) in E. rewrite !length_app in E.
      assert (L1 : 1 <= length sep)
        by (destruct sep; [contradiction Hne; reflexivity | simpl; lia]).
      destruct m as [|m]; [lia|]. cbn [split_rounds]. rewrite F.
      f_equal. apply IH; [exact Hne | lia | lia].
    + destruct m; cbn [split_rounds]; rewrite F; reflexivity.
Qed.

(** ** Line ends *)

Lemma universal_newlines_no_cr (s : str) : forall b,
  no_cr (universal_newlines_from b s) = true.
Proof.
  unfold no_cr.
  induction s as [|c s IH]; intros b; cbn [universal_newlines_from];
    [reflexivity|].
  destruct (c =? CR)%N eqn:E1; [cbn [forallb]; rewrite IH; reflexivity|].
  destruct (c =? LF)%N eqn:E2.
  - destruct b; [apply IH|]. cbn [forallb]. rewrite IH. reflexivity.
  - cbn [forallb]. rewrite E1, IH. reflexivity.
Qed.

Lemma no_cr_app (x y : str) :
  no_cr (x ++ y) = true <-> no_cr x = true /\ no_cr y = true.
Proof. unfold no_cr. rewrite forallb_app. apply andb_true_iff. Qed.

Lemma no_cr_firstn (n : nat) (s : str) :
  no_cr s = true -> no_cr (firstn n s) = true.
Proof.
  intros H. rewrite <- (firstn_skipn n s) in H. exact (proj1 (proj1 (no_cr_app _ _) H)).
Qed.

Lemma no_cr_skipn (n : nat) (s : str) :
  no_cr s = true -> no_cr (skipn n s) = true.
Proof.
  intros H. rewrite <- (firstn_skipn n s) in H. exact (proj2 (proj1 (no_cr_app _ _) H)).
Qed.

Lemma no_cr_up_to (s sub : str) : no_cr s = true -> no_cr (up_to s sub) = true.
Proof.
  intros H. unfold up_to. destruct (find s sub); [apply no_cr_firstn|]; exact H.
Qed.

Lemma newline_out_app (pf : platform) (x y : str) :
  newline_out pf (x ++ y) = newline_out pf x ++ newline_out pf y.
Proof. apply flat_map_app. Qed.

(** Where the line separator is the line feed, text is written as it
    is. *)
Lemma newline_out_posix (pf : platform) (s : str) :
  windows pf = false -> newline_out pf s = s.
Proof.
  intros H. induction s as [|c s IH]; [reflexivity|].
  cbn [newline_out flat_map]. fold (newline_out pf s). rewrite IH.
  unfold linesep. rewrite H.
  destruct (c =? LF)%N eqn:E; [|reflexivity].
  apply N.eqb_eq in E. subst c. reflexivity.
Qed.

(** Text that was written and is read again has the line ends it had
    before it was written, if it had no carriage return. *)
Lemma universal_newlines_out (pf : platform) (x y : str) :
  no_cr x = true ->
  universal_newlines_from false (newline_out pf x ++ y)
    = x ++ universal_newlines_from false y.
Proof.
  unfold no_cr. induction x as [|c x IH]; intros H; [reflexivity|].
  cbn [forallb] in H. apply andb_true_iff in H as [Hc H].
  apply negb_true_iff in Hc. specialize (IH H).
  cbn [newline_out flat_map]. fold (newline_out pf x).
  destruct (c =? LF)%N eqn:E.
  - apply N.eqb_eq in E. subst c. unfold linesep.
    destruct (windows pf); cbn [app universal_newlines_from];
      change (CR =? CR)%N with true; change (LF =? CR)%N with false;
      change (LF =? LF)%N with true; cbv iota; rewrite IH; reflexivity.
  - cbn [app universal_newlines_from]. rewrite Hc, E, IH. reflexivity.
Qed.

Lemma universal_newlines_out_all (pf : platform) (x : str) :
  no_cr x = true -> universal_newlines (newline_out pf x) = x.
Proof.
  intros H. unfold universal_newlines.
  rewrite <- (app_nil_r (newline_out pf x)).
  rewrite (universal_newlines_out pf x [] H). apply app_nil_r.
Qed.

(** After a character that is no carriage return, reading starts
    afresh. *)
Lemma universal_newlines_snoc (x : str) (c : N) (rest : str) : forall b,
  (c =? CR)%N = false ->
  universal_newlines_from b ((x ++ [c]) ++ rest)
    = universal_newlines_from b (x ++ [c])
        ++ universal_newlines_from false rest.
Proof.
  induction x as [|a x IH]; intros b Hc.
  - cbn [app universal_newlines_from]. rewrite Hc.
    destruct (c =? LF)%N; [destruct b|]; reflexivity.
  - cbn [app universal_newlines_from].
    destruct (a =? CR)%N; [cbn [app]; f_equal; apply IH, Hc|].
    destruct (a =? LF)%N; [destruct b|]; cbn [app]; try f_equal;
      apply IH, Hc.
Qed.

Lemma newline_out_ends_lf (pf : platform) (x : str) :
  exists z, newline_out pf (x ++ [LF]) = z ++ [LF].
Proof.
  rewrite newline_out_app. cbn [newline_out flat_map app].
  change (LF =? LF)%N with true. cbv iota. unfold linesep.
  destruct (windows pf).
  - exists (newline_out pf x ++ [CR]). rewrite <- !app_assoc. reflexivity.
  - exists (newline_out pf x). reflexivity.
Qed.

(** A text on one line that stands in what is read stood in what was in
    the file; one that stands in what is stored stood in what was
    written. *)
Lemma one_line_head (sub : str) (e : N) :
  one_line (e :: sub) = true -> (e =? CR)%N = false /\ (e =? LF)%N = false.
Proof.
  unfold one_line. cbn [forallb]. intros H.
  apply andb_true_iff in H as [H _]. apply andb_true_iff in H as [H1 H2].
  apply negb_true_iff in H1, H2. split; assumption.
Qed.

Lemma one_line_tail (sub : str) (e : N) :
  one_line (e :: sub) = true -> one_line sub = true.
Proof.
  unfold one_line. cbn [forallb]. intros H.
  apply andb_true_iff in H as [_ H]. exact H.
Qed.

Lemma startswith_universal_newlines (sub : str) : forall s : str,
  one_line sub = true ->
  startswith (universal_newlines_from false s) sub = true ->
  startswith s sub = true.
Proof.
  induction sub as [|e sub IH]; intros s L H; [reflexivity|].
  destruct (one_line_head sub e L) as [E1 E2].
  destruct s as [|c s]; [discriminate H|].
  cbn [universal_newlines_from] in H.
  destruct (c =? CR)%N eqn:C1.
  { cbn [startswith] in H. rewrite E2 in H. discriminate H. }
  destruct (c =? LF)%N eqn:C2.
  { cbn [startswith] in H. rewrite E2 in H. discriminate H. }
  cbn [startswith] in *. apply andb_true_iff in H as [H1 H2].
  rewrite H1. exact (IH s (one_line_tail sub e L) H2).
Qed.

Lemma find_universal_newlines (sub : str) (s : str) : forall b,
  one_line sub = true -> sub <> [] ->
  find s sub = None -> find (universal_newlines_from b s) sub = None.
Proof.
  induction s as [|c s IH]; intros b L Hne H.
  - cbn [universal_newlines_from]. exact H.
  - destruct sub as [|e sub]; [contradiction Hne; reflexivity|].
    destruct (one_line_head sub e L) as [E1 E2].
    rewrite find_eq in H.
    destruct (startswith (c :: s) (e :: sub)) eqn:P; [discriminate H|].
    destruct (find s (e :: sub)) eqn:F; [discriminate H|].
    assert (Skip : forall b', find (LF :: universal_newlines_from b' s)
                                (e :: sub) = None).
    { intros b'. rewrite find_eq. cbn [startswith]. rewrite E2. cbn [andb].
      rewrite (IH b' L Hne eq_refl). reflexivity. }
    cbn [universal_newlines_from].
    destruct (c =? CR)%N eqn:C1; [apply Skip|].
    destruct (c =? LF)%N eqn:C2;
      [destruct b; [apply (IH false L Hne eq_refl) | apply Skip]|].
    rewrite find_eq.
    destruct (startswith (c :: universal_newlines_from false s) (e :: sub))
      eqn:Q.
    + cbn [startswith] in Q, P. apply andb_true_iff in Q as [Q1 Q2].
      rewrite Q1 in P. cbn [andb] in P.
      rewrite (startswith_universal_newlines sub s (one_line_tail sub e L) Q2)
        in P.
      discriminate P.
    + rewrite (IH false L Hne eq_refl). reflexivity.
Qed.

Lemma startswith_newline_out (pf : platform) (sub : str) : forall s : str,
  one_line sub = true ->
  startswith (newline_out pf s) sub = true -> startswith s sub = true.
Proof.
  induction sub as [|e sub IH]; intros s L H; [reflexivity|].
  destruct (one_line_head sub e L) as [E1 E2].
  destruct s as [|c s]; [discriminate H|].
  cbn [newline_out flat_map] in H. fold (newline_out pf s) in H.
  destruct (c =? LF)%N eqn:C.
  - unfold linesep in H. destruct (windows pf); cbn [app startswith] in H;
      rewrite ?E1, ?E2 in H; discriminate H.
  - cbn [app startswith] in *. apply andb_true_iff in H as [H1 H2].
    rewrite H1. exact (IH s (one_line_tail sub e L) H2).
Qed.

Lemma find_newline_out (pf : platform) (sub : str) (s : str) :
  one_line sub = true -> sub <> [] ->
  find s sub = None -> find (newline_out pf s) sub = None.
Proof.
  intros L Hne. induction s as [|c s IH]; intros H; [exact H|].
  destruct sub as [|e sub]; [contradiction Hne; reflexivity|].
  destruct (one_line_head sub e L) as [E1 E2].
  rewrite find_eq in H.
  destruct (startswith (c :: s) (e :: sub)) eqn:P; [discriminate H|].
  destruct (find s (e :: sub)) eqn:F; [discriminate H|].
  specialize (IH eq_refl).
  cbn [newline_out flat_map]. fold (newline_out pf s).
  destruct (c =? LF)%N eqn:C.
  - unfold linesep. destruct (windows pf); cbn [app].
    + rewrite find_eq. cbn [startswith]. rewrite E1. cbn [andb option_map].
      rewrite find_eq. cbn [startswith]. rewrite E2. cbn [andb].
      rewrite IH. reflexivity.
    + rewrite find_eq. cbn [startswith]. rewrite E2. cbn [andb].
      rewrite IH. reflexivity.
  - cbn [app]. rewrite find_eq.
    destruct (startswith (c :: newline_out pf s) (e :: sub)) eqn:Q.
    + cbn [startswith] in Q, P. apply andb_true_iff in Q as [Q1 Q2].
      rewrite Q1 in P. cbn [andb] in P.
      rewrite (startswith_newline_out pf sub s (one_line_tail sub e L) Q2)
        in P.
      discriminate P.
    + rewrite IH. reflexivity.
Qed.

(** Text without the marker [sub], written and read again, is still
    without it. *)
Lemma contains_reread (pf : platform) (sub s : str) :
  one_line sub = true -> sub <> [] ->
  contains s sub = false ->
  contains (universal_newlines (newline_out pf s)) sub = false.
Proof.
  intros L Hne H. apply contains_false. apply contains_false in H.
  apply find_universal_newlines; [exact L | exact Hne|].
  apply find_newline_out; assumption.
Qed.

(** ** The splice into the README *)

(** Both markers start with [<] and have no other [<]; the end marker has
    no line feed; the start marker does not begin like the end marker. *)
Lemma start_marker_head : start_marker = ch "<" :: tl start_marker.
Proof. reflexivity. Qed.

Lemma end_marker_head : end_marker = ch "<" :: tl end_marker.
Proof. reflexivity. Qed.

Lemma markers_nonempty : start_marker <> [] /\ end_marker <> [].
Proof. split; discriminate. Qed.

Lemma no_bracket_in_tails :
  ~ In (ch "<") (tl start_marker) /\ ~ In (ch "<") (tl end_marker) /\
  ~ In LF (tl end_marker).
Proof.
  assert (D : forall (c : N) (l : str),
             forallb (fun x => negb (x =? c)%N) l = true -> ~ In c l).
  { intros c l H I. rewrite forallb_forall in H. specialize (H c I).
    rewrite N.eqb_refl in H. discriminate. }
  repeat split; apply D; vm_compute; reflexivity.
Qed.

Lemma find_start_marker (before rest : str) :
  contains before start_marker = false ->
  find (before ++ start_marker ++ rest) start_marker = Some (length before).
Proof.
  intros H. rewrite start_marker_head at 1. cbn [app].
  rewrite find_app; [|exact H|exact (proj1 no_bracket_in_tails)].
  change (ch "<" :: tl start_marker ++ rest) with (start_marker ++ rest).
  rewrite find_eq, startswith_app. cbn [option_map].
  rewrite Nat.add_0_r. reflexivity.
Qed.

Lemma find_end_marker (before mid after : str) :
  contains before end_marker = false ->
  contains mid end_marker = false ->
  find (before ++ start_marker ++ mid ++ end_marker ++ after) end_marker
    = Some (length (before ++ start_marker ++ mid)).
Proof.
  intros Hb Hm. rewrite start_marker_head at 1. cbn [app].
  rewrite find_app;
    [|exact Hb|exact (proj1 (proj2 no_bracket_in_tails))].
  rewrite find_eq.
  change (startswith (ch "<" :: tl start_marker ++ mid ++ end_marker ++ after)
            end_marker) with false.
  cbv iota. rewrite end_marker_head at 2.
  rewrite find_skip by (vm_compute; reflexivity).
  rewrite <- end_marker_head.
  rewrite end_marker_head at 1. cbn [app].
  rewrite find_app;
    [|exact Hm|exact (proj1 (proj2 no_bracket_in_tails))].
  change (ch "<" :: tl end_marker ++ after) with (end_marker ++ after).
  rewrite find_eq, startswith_app. cbn [option_map].
  rewrite !length_app. f_equal.
  change (length start_marker) with (S (length (tl start_marker))). lia.
Qed.

(** The outcome of the file operations on a file that can be read. *)
Lemma read_text_Ret (pf : platform) (w : world) (path content : str) :
  read_text pf w path = Ret content ->
  exists writable data,
    files w path = Some (File true writable (Some data)) /\
    content = universal_newlines data.
Proof.
  unfold read_text.
  destruct (files w path) as [[e| |r wr [t|]]|]; try discriminate.
  - destruct r; [|discriminate]. intros H. injection H as <-. eauto.
  - destruct r; discriminate.
Qed.

Lemma read_text_no_cr (pf : platform) (w : world) (path content : str) :
  read_text pf w path = Ret content -> no_cr content = true.
Proof.
  intros H. destruct (read_text_Ret pf w path content H) as [wr [d [_ ->]]].
  apply universal_newlines_no_cr.
Qed.

Lemma store_same (w : world) (path : str) (n : node) :
  files (store w path n) path = Some n.
Proof. cbn [store files]. rewrite str_eqb_refl. reflexivity. Qed.

Lemma store_other (w : world) (path : str) (n : node) (p : str) :
  p <> path -> files (store w path n) p = files w p.
Proof.
  intros H. cbn [store files]. apply str_eqb_neq in H. rewrite H. reflexivity.
Qed.

Lemma store_twice (w : world) (path : str) (n m : node) (p : str) :
  files (store (store w path n) path m) p = files (store w path m) p.
Proof. cbn [store files]. destruct (str_eqb p path); reflexivity. Qed.

Lemma write_text_file (pf : platform) (w : world) (path t : str)
  (readable : bool) (data : option str) :
  files w path = Some (File readable true data) ->
  write_text pf w path t =
    if file_accepts pf t then
      (Ret tt, store w path (File readable true (Some (newline_out pf t))))
    else
      (Raise UnicodeEncodeError, store w path (File readable true (Some []))).
Proof. intros H. unfold write_text. rewrite H. reflexivity. Qed.

(** Writing to a path leaves the other paths and the output alone. *)
Lemma write_text_frame (pf : platform) (w : world) (path t : str) :
  (forall p, p <> path -> files (snd (write_text pf w path t)) p = files w p)
  /\ stdout (snd (write_text pf w path t)) = stdout w.
Proof.
  unfold write_text.
  destruct (files w path) as [[e| |r wr d]|]; try (split; reflexivity);
    try destruct wr; try (split; reflexivity);
    destruct (file_accepts pf t); cbn [snd];
    (split; [intros p Hp; apply store_other, Hp | reflexivity]).
Qed.

Lemma print_frame (pf : platform) (line : str) (w : world) :
  files (snd (print pf line w)) = files w /\
  exists out, stdout (snd (print pf line w)) = stdout w ++ out.
Proof.
  unfold print. destruct (stdout_accepts pf line); cbn [snd files stdout].
  - split; [reflexivity | eexists; reflexivity].
  - split; [reflexivity | exists []; rewrite app_nil_r; reflexivity].
Qed.

(** The text that takes the place of a content with both markers. *)
Lemma new_content_found (content K : str) (i j : nat) :
  find content start_marker = Some i ->
  find content end_marker = Some j ->
  new_content content K =
    Ret (Some
           (up_to content start_marker ++ start_marker ++ [LF] ++ K ++ [LF]
              ++ end_marker
              ++ up_to (skipn (j + length end_marker) content) end_marker)).
Proof.
  intros Hs He. unfold new_content, contains. rewrite Hs, He. cbn [andb].
  destruct (split_first content start_marker (proj1 markers_nonempty))
    as [parts [Es [I0 _]]].
  destruct (split_first content end_marker (proj2 markers_nonempty))
    as [parts' [Ee [_ I1]]].
  rewrite Es. cbn [bind]. rewrite I0. cbn [bind].
  rewrite Ee. cbn [bind]. rewrite (I1 j He). reflexivity.
Qed.

Lemma new_content_missing (content K : str) :
  contains content start_marker = false \/
  contains content end_marker = false ->
  new_content content K = Ret None.
Proof.
  unfold new_content. intros [H|H]; rewrite H; [reflexivity|].
  rewrite andb_false_r. reflexivity.
Qed.

(** What [update_readme] does when it finds both markers: it writes. *)
Lemma update_readme_result (pf : platform) (path K : str) (w : world)
  (content : str) (i j : nat) :
  read_text pf w path = Ret content ->
  find content start_marker = Some i ->
  find content end_marker = Some j ->
  update_readme pf path K w =
    write_text pf w path
      (up_to content start_marker ++ start_marker ++ [LF] ++ K ++ [LF]
         ++ end_marker
         ++ up_to (skipn (j + length end_marker) content) end_marker).
Proof.
  intros Hr Hs He. unfold update_readme.
  destruct (read_text_Ret pf w path content Hr) as [wr [data [Hf _]]].
  unfold path_exists. rewrite Hf, Hr. cbn [bind].
  rewrite (new_content_found content K i j Hs He). reflexivity.
Qed.

(** The splice of a text in which the end marker occurs once, after the
    first start marker. *)
Lemma update_readme_splices (pf : platform) (path K : str) (w : world)
  (before between after : str) :
  read_text pf w path =
    Ret (before ++ start_marker ++ between ++ end_marker ++ after) ->
  contains before start_marker = false ->
  contains before end_marker = false ->
  contains between end_marker = false ->
  contains after end_marker = false ->
  update_readme pf path K w =
    write_text pf w path
      (before ++ start_marker ++ [LF] ++ K ++ [LF] ++ end_marker ++ after).
Proof.
  intros Hf Hbs Hbe Hm Ha.
  pose proof (find_start_marker before (between ++ end_marker ++ after) Hbs)
    as Fs.
  pose proof (find_end_marker before between after Hbe Hm) as Fe.
  rewrite (update_readme_result pf path K w _ _ _ Hf Fs Fe).
  unfold up_to at 1. rewrite Fs, firstn_app_exact.
  replace (skipn _ _) with after.
  - unfold up_to. apply contains_false in Ha. rewrite Ha. reflexivity.
  - rewrite <- length_app.
    replace (before ++ start_marker ++ between ++ end_marker ++ after)
      with (((before ++ start_marker ++ between) ++ end_marker) ++ after)
      by (rewrite <- !app_assoc; reflexivity).
    rewrite skipn_app_exact. reflexivity.
Qed.

(** The splice step when the destination is missing or lacks a marker: the
    warning, and nothing else. *)
Lemma update_readme_warns (pf : platform) (readme markdown : str)
  (w : world) :
  files w readme = None \/
  (exists content,
     read_text pf w readme = Ret content /\
     (contains content start_marker = false \/
      contains content end_marker = false)) ->
  update_readme pf readme markdown w =
    print pf (u "Warning: Could not find markers in " ++ readme) w.
Proof.
  unfold update_readme. intros [H|[content [Hr M]]].
  - unfold path_exists. rewrite H. reflexivity.
  - destruct (read_text_Ret pf w readme content Hr) as [wr [data [Hf _]]].
    unfold path_exists. rewrite Hf, Hr. cbn [bind].
    rewrite (new_content_missing content markdown M). reflexivity.
Qed.

Lemma markdown_between_markers (K : str) :
  contains K end_marker = false ->
  contains ([LF] ++ K ++ [LF]) end_marker = false.
Proof.
  intros H. apply contains_false. cbn [app]. rewrite find_eq.
  change (startswith (LF :: K ++ [LF]) end_marker) with false. cbv iota.
  rewrite find_app; [reflexivity | exact H|].
  exact (proj2 (proj2 no_bracket_in_tails)).
Qed.

(** The spliced text, written and read again: the text around the markers
    comes back as it was. *)
Lemma spliced_reread (pf : platform) (before K after : str) :
  no_cr before = true -> no_cr after = true ->
  universal_newlines
    (newline_out pf
       (before ++ start_marker ++ [LF] ++ K ++ [LF] ++ end_marker ++ after))
  = before ++ start_marker
      ++ universal_newlines (newline_out pf ([LF] ++ K ++ [LF]))
      ++ end_marker ++ after.
Proof.
  intros Hb Ha. unfold universal_newlines.
  rewrite newline_out_app, (universal_newlines_out pf before _ Hb). f_equal.
  rewrite newline_out_app, (universal_newlines_out pf start_marker _ eq_refl).
  f_equal.
  replace ([LF] ++ K ++ [LF] ++ end_marker ++ after)
    with ((([LF] ++ K) ++ [LF]) ++ end_marker ++ after)
    by (rewrite <- !app_assoc; reflexivity).
  replace ([LF] ++ K ++ [LF]) with (([LF] ++ K) ++ [LF])
    by (rewrite <- !app_assoc; reflexivity).
  rewrite newline_out_app.
  destruct (newline_out_ends_lf pf ([LF] ++ K)) as [z ->].
  rewrite universal_newlines_snoc by reflexivity. f_equal.
  apply universal_newlines_out_all. apply no_cr_app. split; [reflexivity|].
  exact Ha.
Qed.

Lemma markers_one_line :
  one_line start_marker = true /\ one_line end_marker = true.
Proof. split; reflexivity. Qed.

Lemma newline_out_markers (pf : platform) :
  newline_out pf start_marker = start_marker /\
  newline_out pf end_marker = end_marker.
Proof. split; reflexivity. Qed.

(** C4, as the script has it. The destination is a file that the run can
    read and write; its text, as it is read (every line end a line feed),
    is [before + START + between + END + after] with no start marker in
    [before] and no end marker in [before], [between] and [after]; the new
    text can be encoded. Then the splice writes [before], the start marker,
    a line feed, the markdown, a line feed, the end marker and [after],
    every line feed as the line separator of the system. Read again, the
    file has [before] and [after] as they were and both markers; with
    markdown free of carriage returns it reads as the text that was
    written. The stored characters before and after the markers are
    unchanged as well when the file had the line ends of the system (a
    file with other line ends has them rewritten). No other file and
    nothing of the output changes. *)
Theorem update_readme_frame (pf : platform) (path K : str) (w : world)
  (data before between after : str) :
  files w path = Some (File true true (Some data)) ->
  universal_newlines data
    = before ++ start_marker ++ between ++ end_marker ++ after ->
  contains before start_marker = false ->
  contains before end_marker = false ->
  contains between end_marker = false ->
  contains after end_marker = false ->
  file_accepts pf
    (before ++ start_marker ++ [LF] ++ K ++ [LF] ++ end_marker ++ after)
    = true ->
  exists w',
    update_readme pf path K w = (Ret tt, w') /\
    files w' path =
      Some (File true true
              (Some (newline_out pf
                       (before ++ start_marker ++ [LF] ++ K ++ [LF]
                          ++ end_marker ++ after)))) /\
    spliced_between_markers (universal_newlines data) K
      (before ++ start_marker ++ [LF] ++ K ++ [LF] ++ end_marker ++ after) /\
    read_text pf w' path =
      Ret (before ++ start_marker
             ++ universal_newlines (newline_out pf ([LF] ++ K ++ [LF]))
             ++ end_marker ++ after) /\
    (no_cr K = true ->
     read_text pf w' path =
       Ret (before ++ start_marker ++ [LF] ++ K ++ [LF] ++ end_marker
              ++ after)) /\
    (data = newline_out pf (universal_newlines data) ->
     data = newline_out pf before ++ start_marker ++ newline_out pf between
              ++ end_marker ++ newline_out pf after /\
     newline_out pf
       (before ++ start_marker ++ [LF] ++ K ++ [LF] ++ end_marker ++ after)
     = newline_out pf before ++ start_marker
         ++ newline_out pf ([LF] ++ K ++ [LF])
         ++ end_marker ++ newline_out pf after) /\
    (forall p, p <> path -> files w' p = files w p) /\
    stdout w' = stdout w.
Proof.
  intros Hf Ed Hbs Hbe Hm Ha Acc.
  assert (Hr : read_text pf w path
               = Ret (before ++ start_marker ++ between ++ end_marker
                        ++ after)).
  { unfold read_text. rewrite Hf, Ed. reflexivity. }
  pose proof (read_text_no_cr pf w path _ Hr) as Ncr.
  apply no_cr_app in Ncr as [Nb Ncr]. apply no_cr_app in Ncr as [_ Ncr].
  apply no_cr_app in Ncr as [_ Ncr]. apply no_cr_app in Ncr as [_ Na].
  pose proof (update_readme_splices pf path K w before between after
                Hr Hbs Hbe Hm Ha) as R.
  rewrite (write_text_file pf w path _ true (Some data) Hf), Acc in R.
  destruct (newline_out_markers pf) as [Os Oe].
  assert (Split : forall x m a : str,
            newline_out pf (x ++ start_marker ++ m ++ end_marker ++ a)
            = newline_out pf x ++ start_marker ++ newline_out pf m
                ++ end_marker ++ newline_out pf a).
  { intros x m a. rewrite !newline_out_app, Os, Oe. reflexivity. }
  eexists. split; [exact R|].
  split; [apply store_same|].
  split; [exists before, between, after; split; [exact Ed | reflexivity]|].
  assert (Again : read_text pf
                    (store w path
                       (File true true
                          (Some (newline_out pf
                                   (before ++ start_marker ++ [LF] ++ K
                                      ++ [LF] ++ end_marker ++ after)))))
                    path
                  = Ret (before ++ start_marker
                           ++ universal_newlines
                                (newline_out pf ([LF] ++ K ++ [LF]))
                           ++ end_marker ++ after)).
  { unfold read_text. rewrite store_same.
    rewrite (spliced_reread pf before K after Nb Na). reflexivity. }
  split; [exact Again|].
  split.
  { intros NK. rewrite Again.
    rewrite universal_newlines_out_all.
    - rewrite <- !app_assoc. reflexivity.
    - apply no_cr_app. split; [reflexivity|].
      apply no_cr_app. split; [exact NK | reflexivity]. }
  split.
  { intros Plat. split.
    - rewrite Plat at 1. rewrite Ed. apply Split.
    - replace (before ++ start_marker ++ [LF] ++ K ++ [LF] ++ end_marker
                 ++ after)
        with (before ++ start_marker ++ ([LF] ++ K ++ [LF]) ++ end_marker
                ++ after)
        by (rewrite <- !app_assoc; reflexivity).
      apply Split. }
  split; [intros p Hp; apply store_other, Hp | reflexivity].
Qed.

(** C5, as the script has it. For a destination file that can be read,
    with both markers and no end marker before its first start marker,
    and generated markdown that does not contain the end marker, the
    splice run twice leaves what it left after the first run: every file
    is as the first run left it. This holds whether or not the file can
    be written: a first run that writes (the file may be written and the
    new text [new] can be encoded) is followed by a second run that writes
    the same and prints nothing; a first run that fails leaves a file on
    which the second one changes nothing. *)
Theorem update_readme_idempotent (pf : platform) (path K : str) (w : world)
  (content : str) :
  read_text pf w path = Ret content ->
  contains content start_marker = true ->
  contains content end_marker = true ->
  contains (up_to content start_marker) end_marker = false ->
  contains K end_marker = false ->
  exists j new r1 w1 r2 w2,
    find content end_marker = Some j /\
    new = up_to content start_marker ++ start_marker ++ [LF] ++ K ++ [LF]
            ++ end_marker
            ++ up_to (skipn (j + length end_marker) content) end_marker /\
    update_readme pf path K w = (r1, w1) /\
    update_readme pf path K w1 = (r2, w2) /\
    (forall p, files w2 p = files w1 p) /\
    (r1 = Ret tt -> r2 = Ret tt /\ stdout w2 = stdout w1) /\
    ((exists readable data, files w path = Some (File readable true data)) ->
     file_accepts pf new = true -> r1 = Ret tt).
Proof.
  intros Hr Hs He Hbe HK.
  destruct (read_text_Ret pf w path content Hr) as [wr [data [Hf Ec]]].
  pose proof (read_text_no_cr pf w path content Hr) as Ncr.
  apply contains_true in Hs as [i Fs]. apply contains_true in He as [j Fe].
  pose proof (update_readme_result pf path K w content i j Hr Fs Fe) as R1.
  set (before := up_to content start_marker) in *.
  set (after := up_to (skipn (j + length end_marker) content) end_marker) in *.
  assert (Hbs : contains before start_marker = false)
    by (apply contains_up_to; exact (proj1 markers_nonempty)).
  assert (Ha : contains after end_marker = false)
    by (apply contains_up_to; exact (proj2 markers_nonempty)).
  assert (Nb : no_cr before = true) by (apply no_cr_up_to, Ncr).
  assert (Na : no_cr after = true) by (apply no_cr_up_to, no_cr_skipn, Ncr).
  set (new := before ++ start_marker ++ [LF] ++ K ++ [LF] ++ end_marker
                ++ after) in *.
  exists j, new. unfold write_text in R1. rewrite Hf in R1.
  destruct wr.
  - destruct (file_accepts pf new) eqn:Acc.
    + set (n1 := File true true (Some (newline_out pf new))) in *.
      set (w1 := store w path n1) in *.
      assert (Hr1 : read_text pf w1 path
                    = Ret (before ++ start_marker
                             ++ universal_newlines
                                  (newline_out pf ([LF] ++ K ++ [LF]))
                             ++ end_marker ++ after)).
      { unfold read_text, w1. rewrite store_same. unfold n1, new.
        rewrite (spliced_reread pf before K after Nb Na). reflexivity. }
      assert (R2 : update_readme pf path K w1 = (Ret tt, store w1 path n1)).
      { rewrite (update_readme_splices pf path K w1 before _ after
                   Hr1 Hbs Hbe
                   (contains_reread pf end_marker _
                      (proj2 markers_one_line) (proj2 markers_nonempty)
                      (markdown_between_markers K HK))
                   Ha).
        fold new.
        rewrite (write_text_file pf w1 path new true
                   (Some (newline_out pf new)) (store_same w path n1)).
        rewrite Acc. reflexivity. }
      exists (Ret tt), w1, (Ret tt), (store w1 path n1).
      split; [exact Fe|]. split; [reflexivity|]. split; [exact R1|].
      split; [exact R2|]. split; [intros p; apply store_twice|].
      split; [intros _; split; reflexivity | intros _ _; reflexivity].
    + set (w1 := store w path (File true true (Some []))) in *.
      assert (R2 : update_readme pf path K w1 =
                     print pf (u "Warning: Could not find markers in "
                                 ++ path) w1).
      { apply update_readme_warns. right. exists []. split.
        - unfold read_text, w1. rewrite store_same. reflexivity.
        - left. reflexivity. }
      destruct (print pf (u "Warning: Could not find markers in " ++ path)
                  w1) as [r2 w2] eqn:P.
      exists (Raise UnicodeEncodeError), w1, r2, w2.
      split; [exact Fe|]. split; [reflexivity|]. split; [exact R1|].
      split; [exact R2|]. split.
      * intros p.
        pose proof (proj1 (print_frame pf
                             (u "Warning: Could not find markers in "
                                ++ path) w1)) as F.
        rewrite P in F. cbn [snd] in F. rewrite F. reflexivity.
      * split; [discriminate | intros _ A; discriminate A].
  - exists (Raise PermissionError), w, (Raise PermissionError), w.
    assert (R1' : update_readme pf path K w = (Raise PermissionError, w))
      by exact R1.
    split; [exact Fe|]. split; [reflexivity|]. split; [exact R1'|].
    split; [exact R1'|]. split; [reflexivity|].
    split; [discriminate|].
    intros [r [d Hf']] _. rewrite Hf in Hf'. discriminate Hf'.
Qed.

(** ** The run of the script *)

Section Run.

Variable db : unicode_db.
Variable pf : platform.
Variable path_name : str -> str.

(** Once the keymap file is read and the extractor has returned, the
    markdown is generated: nothing in the renderer raises. *)
Lemma generate_markdown_returns (w : world) (keymap_path text : str)
  (layers : list (str * list str)) :
  read_text pf w keymap_path = Ret text ->
  parse_keymap db pf text = Ret layers ->
  exists markdown,
    generate_markdown db pf path_name w keymap_path = Ret markdown.
Proof.
  intros Hf Hl. unfold generate_markdown. rewrite Hf. cbn [bind].
  rewrite Hl. cbn [bind].
  match goal with
  | |- context [fold_left ?step layers (Ret ?out)] =>
      assert (F : forall acc, exists out',
                 fold_left step layers (Ret acc) = Ret out');
      [|destruct (F out) as [out' ->]; eexists; reflexivity]
  end.
  clear Hl.
  induction layers as [|[name bindings] layers IH]; intros acc;
    cbn [fold_left bind]; [eexists; reflexivity|].
  destruct (format_corne_layer_returns db bindings name) as [block ->].
  cbn [bind]. apply IH.
Qed.

(** C6, as the script has it. When the destination does not exist, or is
    a file that can be read as text and lacks one of the markers, the
    splice step writes no file and prints the warning, if the output can
    encode it. A run that gets as far as the splice step (the keymap file
    was read and the extractor returned) then prints the [Updated] line
    and ends with exit status 0, every file as it was. *)
Theorem missing_markers_not_fatal
  (w : world) (prog keymap readme text : str)
  (layers : list (str * list str)) (more : list str) :
  read_text pf w keymap = Ret text ->
  parse_keymap db pf text = Ret layers ->
  files w readme = None \/
  (exists content,
     read_text pf w readme = Ret content /\
     (contains content start_marker = false \/
      contains content end_marker = false)) ->
  stdout_accepts pf (u "Warning: Could not find markers in " ++ readme)
    = true ->
  stdout_accepts pf (u "Updated " ++ readme) = true ->
  (forall markdown, exists w',
     update_readme pf readme markdown w = (Ret tt, w') /\
     files w' = files w /\
     stdout w' =
       stdout w ++ [u "Warning: Could not find markers in " ++ readme]) /\
  exists w',
    main db pf path_name (prog :: keymap :: readme :: more) w = (0, w') /\
    files w' = files w /\
    stdout w' =
      stdout w ++ [u "Warning: Could not find markers in " ++ readme;
                   u "Updated " ++ readme].
Proof.
  intros Hk Hl Hr Aw Au.
  assert (W : forall markdown,
            update_readme pf readme markdown w =
              (Ret tt,
               {| files := files w;
                  stdout := stdout w
                    ++ [u "Warning: Could not find markers in " ++ readme] |})).
  { intros markdown. rewrite (update_readme_warns pf readme markdown w Hr).
    unfold print. rewrite Aw. reflexivity. }
  split.
  - intros markdown. eexists. split; [apply W|]. split; reflexivity.
  - destruct (generate_markdown_returns w keymap text layers Hk Hl)
      as [markdown G].
    eexists. unfold main. cbn [length Nat.ltb Nat.leb index nth_error bind].
    rewrite G, (W markdown). unfold print. cbn [files stdout].
    rewrite Au. cbn [exit_status].
    split; [reflexivity|]. split; [reflexivity|].
    cbn [stdout]. rewrite <- app_assoc. reflexivity.
Qed.

End Run.

(** * The statements at concrete inputs *)

Lemma parse_binding_total_witness :
  (exists label, parse_binding ascii_db (u "&mo 1") = Ret label) /\
  (exists field, index (split_ws (normalized (u "&mo 1"))) 1 = Ret field).
Proof.
  split.
  - exact (proj1 (parse_binding_total ascii_db (u "&mo 1"))).
  - apply (proj2 (parse_binding_total ascii_db (u "&mo 1")) (u "mo")).
    + left; reflexivity.
    + reflexivity.
Defined.

Lemma parse_binding_table_and_layers_witness :
  parse_binding ascii_db (u "&kp A") = Ret (u "A") /\
  parse_binding ascii_db (u " &bt BT_SEL 2 ") = Ret (u "BT 2") /\
  parse_binding ascii_db (u "&trans") = Ret (u "▽") /\
  parse_binding ascii_db (u "&none") = Ret (u "✕") /\
  parse_binding ascii_db (u "&mo 3") = Ret (u "L3") /\
  parse_binding ascii_db (u "&to 0") = Ret (u "TO0") /\
  parse_binding ascii_db (u "&lt 2 SPACE") = Ret (u "LT2").
Proof.
  refine (conj _ (conj _ (conj _ (conj _ (conj _ (conj _ _)))))).
  - apply (proj1 (parse_binding_table_and_layers ascii_db (u "&kp A"))).
    reflexivity.
  - apply (proj1 (parse_binding_table_and_layers ascii_db
                    (u " &bt BT_SEL 2 "))).
    reflexivity.
  - apply (proj1 (parse_binding_table_and_layers ascii_db (u "&trans"))).
    reflexivity.
  - apply (proj1 (parse_binding_table_and_layers ascii_db (u "&none"))).
    reflexivity.
  - apply (proj1 (proj2 (parse_binding_table_and_layers ascii_db (u "&mo 3"))
                   (u "3") [] eq_refl eq_refl)).
    reflexivity.
  - apply (proj1 (proj2 (proj2 (parse_binding_table_and_layers ascii_db
                                  (u "&to 0")) (u "0") [] eq_refl eq_refl))).
    reflexivity.
  - apply (proj2 (proj2 (proj2 (parse_binding_table_and_layers ascii_db
                                  (u "&lt 2 SPACE"))
                          (u "2") (u " SPACE") eq_refl eq_refl))).
    reflexivity.
Defined.

Lemma parse_binding_fallback_witness :
  parse_binding ascii_db (u "&&customaction123") = Ret (u "custom").
Proof.
  exact (proj2 (proj2 (parse_binding_fallback ascii_db
                         (u "&&customaction123")))
           eq_refl eq_refl eq_refl eq_refl eq_refl).
Defined.

Lemma parse_binding_unknown_kp_witness :
  parse_binding ascii_db (u "&kp FOO") = Ret (u "Foo") /\
  parse_binding ascii_db (u "&kp 1ABC") = Ret (u "1abc").
Proof.
  split.
  - exact (proj1 (parse_binding_unknown_kp ascii_db (u "&kp FOO") (u "FOO")
                    eq_refl eq_refl)).
  - exact (proj1 (parse_binding_unknown_kp ascii_db (u "&kp 1ABC") (u "1ABC")
                    eq_refl eq_refl)).
Defined.

(** C7 as the specification words it: with a single [&] removed, the token
    [&&foo] would keep its second [&] and be shown as [&foo]; the script
    shows [foo]. *)
Lemma single_ampersand_counterexample :
  startswith (remove_single_ampersand (strip (u "&&foo"))) (u "mo ") = false /\
  startswith (remove_single_ampersand (strip (u "&&foo"))) (u "to ") = false /\
  startswith (remove_single_ampersand (strip (u "&&foo"))) (u "lt ") = false /\
  dict_get KEY_DISPLAY (remove_single_ampersand (strip (u "&&foo"))) = None /\
  startswith (remove_single_ampersand (strip (u "&&foo"))) (u "kp ") = false /\
  firstn 6 (remove_single_ampersand (strip (u "&&foo"))) = u "&foo" /\
  parse_binding ascii_db (u "&&foo") = Ret (u "foo") /\
  parse_binding ascii_db (u "&&foo")
    <> Ret (firstn 6 (remove_single_ampersand (strip (u "&&foo")))).
Proof.
  repeat split; try reflexivity. vm_compute. discriminate.
Qed.

(** C8 as the specification words it: with the first alphabetic character
    capitalized, [kp 1ABC] would be shown as [1Abc]; the script shows
    [1abc]. *)
Lemma first_alphabetic_counterexample :
  normalized (u "&kp 1ABC") = u "kp " ++ u "1ABC" /\
  dict_get KEY_DISPLAY (normalized (u "&kp 1ABC")) = None /\
  capitalize_first_alphabetic (u "1ABC") = u "1Abc" /\
  parse_binding ascii_db (u "&kp 1ABC") = Ret (u "1abc") /\
  parse_binding ascii_db (u "&kp 1ABC")
    <> Ret (capitalize_first_alphabetic (u "1ABC")).
Proof.
  repeat split; try reflexivity. vm_compute. discriminate.
Qed.

Lemma format_corne_layer_diagram_witness :
  exists labels,
    Forall2 (fun b l => parse_binding ascii_db b = Ret l)
      [u "&kp A"; u "&mo 1"] labels /\
    length (pad_keys labels) = 42 /\
    index (pad_keys labels) 41 = Ret [] /\
    format_corne_layer ascii_db [u "&kp A"; u "&mo 1"] (u "layer_0") =
      Ret (corne_diagram (u "layer_0") (fun i => center (nth i labels []) 7)).
Proof.
  destruct (format_corne_layer_diagram ascii_db [u "&kp A"; u "&mo 1"]
              (u "layer_0")) as [labels [F [P [I [E _]]]]].
  exists labels.
  assert (L : length labels = 2)
    by (rewrite <- (Forall2_length F); reflexivity).
  split; [exact F|]. split; [apply P; rewrite L; lia|].
  split; [|exact E].
  rewrite (I 41) by lia. rewrite nth_overflow by lia. reflexivity.
Defined.

(** C3 as the specification words it: every cell 7 characters wide. The
    binding [&kp LEFT_GUI] is no key of the table and is shown as
    [Left_gui], 8 characters, which [str.center] leaves as it is: the cell
    is 8 wide and its row has 106 characters under a border of 105. *)
Lemma wide_label_counterexample :
  parse_binding ascii_db (u "&kp LEFT_GUI") = Ret (u "Left_gui") /\
  fmt (u "Left_gui") = u "Left_gui" /\
  ~ centered_in_7 (u "Left_gui") (fmt (u "Left_gui")) /\
  exists lines,
    format_corne_layer ascii_db [u "&kp LEFT_GUI"] (u "layer_0")
      = Ret (join [LF] lines) /\
    nth 3 lines [] =
      u "│Left_gui│       │       │       │       │       │       │       │       │       │       │       │       │" /\
    map (@length N) lines
      = [11; 3; 105; 106; 105; 105; 105; 105; 105; 81; 81; 3].
Proof.
  split; [reflexivity|]. split; [reflexivity|]. split.
  - intros [l [r [_ H]]]. vm_compute in H. discriminate H.
  - pose proof (format_corne_layer_result ascii_db [u "&kp LEFT_GUI"]
                  [u "Left_gui"] (u "layer_0") eq_refl) as H.
    unfold corne_diagram in H. eexists. split; [exact H|].
    split; vm_compute; reflexivity.
Qed.

Lemma parse_keymap_full_layers_sorted_witness :
  parse_keymap ascii_db posix_utf8 long_number_keymap = Raise ValueError /\
  exists layers,
    parse_keymap ascii_db posix_utf8 sample_keymap = Ret layers /\
    In (u "layer_2") (map fst layers) /\
    ~ In (u "layer_3") (map fst layers) /\
    Sorted N.le
      (map (fun name => number_spelled ascii_db (first_digit_run ascii_db name))
         (map fst layers)).
Proof.
  split.
  - apply (proj2 (proj2 (parse_keymap_full_layers_sorted ascii_db posix_utf8
                           long_number_keymap))).
    exists long_number, (sample_bindings 36).
    split; [vm_compute; left; reflexivity|].
    split; [apply Nat.leb_le; vm_compute; reflexivity|].
    vm_compute. reflexivity.
  - destruct (proj1 (proj2 (parse_keymap_full_layers_sorted ascii_db
                              posix_utf8 sample_keymap)))
      as [layers E].
    + intros name text Hin _. vm_compute in Hin.
      destruct Hin as [H|[H|[H|[]]]]; injection H as <- _; reflexivity.
    + destruct (proj1 (parse_keymap_full_layers_sorted ascii_db posix_utf8
                         sample_keymap) layers E)
        as [_ [Full [Kept Hs]]].
      exists layers. split; [exact E|]. split; [|split; [|exact Hs]].
      * apply (Kept (u "layer_2") (sample_bindings 42)).
        -- vm_compute. right; left; reflexivity.
        -- apply Nat.leb_le. vm_compute. reflexivity.
      * intros Hin. apply in_map_iff in Hin as [[n b] [En Hb]].
        cbn [fst] in En. subst n.
        destruct (Full _ _ Hb) as [L [_ [text [Ht ->]]]].
        vm_compute in Ht.
        destruct Ht as [H|[H|[H|[]]]]; try discriminate H.
        injection H as <-. vm_compute in L. lia.
Defined.

Lemma layer_match_stays_in_block_witness :
  exists f ws inner close,
    Re.text f
      = u "layer_0" ++ ws ++ u "{" ++ inner ++ u "&kp A " ++ close ++ u ">" /\
    forallb not_brace ws = true /\ forallb not_brace inner = true.
Proof.
  destruct (layer_match_stays_in_block ascii_db
              (sample_layer (u "layer_0") 1) (u "layer_0") (u "&kp A "))
    as [f [before [ws [inner [close [rest H]]]]]].
  - vm_compute. left; reflexivity.
  - destruct H as [_ [_ [_ [_ [Et [_ [_ [_ [Wn [Hi _]]]]]]]]]].
    exists f, ws, inner, close. split; [exact Et|]. split; assumption.
Defined.

(** C9 as the specification words it: the identifier paired only with a
    clause of its own block. When the block of [layer_1] does not close
    its bindings, the captured text runs on to the next [>], which is in
    the block of [layer_2]: [layer_1] is paired with text that crosses
    three braces and holds the clause of [layer_2], and [layer_2] is not
    found at all. *)
Lemma capture_crosses_block_counterexample :
  strip_comments unclosed_keymap = unclosed_keymap /\
  Re.findall2 (layer_pattern ascii_db) (strip_comments unclosed_keymap)
    = [(u "layer_1", u "&kp A }; }; layer_2 { bindings = < &kp B ")] /\
  (exists f,
     fst (Re.finditer (layer_pattern ascii_db) (strip_comments unclosed_keymap))
       = [f] /\
     Re.text f
       = u "layer_1 { bindings = < &kp A }; }; layer_2 { bindings = < &kp B >"
     /\
     braces (Re.text f) = 4 /\
     in_one_block (Re.text f) = false) /\
  In (ch "}") (u "&kp A }; }; layer_2 { bindings = < &kp B ") /\
  In (ch "{") (u "&kp A }; }; layer_2 { bindings = < &kp B ").
Proof.
  split; [vm_compute; reflexivity|]. split; [vm_compute; reflexivity|].
  split.
  - eexists. split; [vm_compute; reflexivity|].
    split; [reflexivity|]. split; reflexivity.
  - split; vm_compute; tauto.
Qed.

Lemma update_readme_frame_witness :
  exists w',
    update_readme posix_utf8 README (u "K")
      (world_with README
         (u "A" ++ start_marker ++ u "B" ++ end_marker ++ u "C"))
      = (Ret tt, w') /\
    files w' README =
      Some (text_file
              (u "A" ++ start_marker ++ [LF] ++ u "K" ++ [LF] ++ end_marker
                 ++ u "C")) /\
    read_text posix_utf8 w' README =
      Ret (u "A" ++ start_marker ++ [LF] ++ u "K" ++ [LF] ++ end_marker
             ++ u "C").
Proof.
  destruct (update_readme_frame posix_utf8 README (u "K")
              (world_with README
                 (u "A" ++ start_marker ++ u "B" ++ end_marker ++ u "C"))
              (u "A" ++ start_marker ++ u "B" ++ end_marker ++ u "C")
              (u "A") (u "B") (u "C")
              eq_refl eq_refl eq_refl eq_refl eq_refl eq_refl eq_refl)
    as [w' [R [F [_ [_ [Rd _]]]]]].
  exists w'. split; [exact R|]. split; [exact F|]. exact (Rd eq_refl).
Defined.

Lemma update_readme_idempotent_witness :
  exists w1 w2,
    update_readme posix_utf8 README (u "K")
      (world_with README
         (u "A" ++ start_marker ++ u "B" ++ end_marker ++ u "C"))
      = (Ret tt, w1) /\
    update_readme posix_utf8 README (u "K") w1 = (Ret tt, w2) /\
    files w2 README = files w1 README.
Proof.
  destruct (update_readme_idempotent posix_utf8 README (u "K")
              (world_with README
                 (u "A" ++ start_marker ++ u "B" ++ end_marker ++ u "C"))
              (u "A" ++ start_marker ++ u "B" ++ end_marker ++ u "C")
              eq_refl eq_refl eq_refl eq_refl eq_refl)
    as [j [new [r1 [w1 [r2 [w2 [Fj [En [R1 [R2 [F [Both Wr]]]]]]]]]]]].
  assert (E1 : r1 = Ret tt).
  { apply Wr; [exists true, (Some (u "A" ++ start_marker ++ u "B"
                                     ++ end_marker ++ u "C")); reflexivity|].
    injection Fj as <-. rewrite En. reflexivity. }
  destruct (Both E1) as [E2 _]. subst r1 r2.
  exists w1, w2. split; [exact R1|]. split; [exact R2 | apply F].
Defined.

Lemma missing_markers_not_fatal_witness :
  exists w',
    main ascii_db posix_utf8 (fun p => p)
      [u "generate_keymap.py"; KEYMAP; README]
      (world_with KEYMAP sample_keymap) = (0, w') /\
    files w' = files (world_with KEYMAP sample_keymap) /\
    stdout w' =
      [u "Warning: Could not find markers in README.md";
       u "Updated README.md"].
Proof.
  destruct (parse_keymap ascii_db posix_utf8 sample_keymap)
    as [layers|e] eqn:P; [|vm_compute in P; discriminate P].
  destruct (missing_markers_not_fatal ascii_db posix_utf8 (fun p => p)
              (world_with KEYMAP sample_keymap)
              (u "generate_keymap.py") KEYMAP README sample_keymap layers []
              eq_refl P (or_introl eq_refl) eq_refl eq_refl)
    as [_ [w' [M [F O]]]].
  exists w'. split; [exact M|]. split; [exact F | exact O].
Defined.

(** C6 as stated, on four runs in splice mode. The destination does not
    exist, and the keymap has a layer whose number has 4301 digits; the
    destination does not exist, and its name cannot be encoded for the
    output; the destination exists and holds no marker, being a file whose
    bytes are no text in the encoding of the interpreter; the destination
    exists and holds no marker, being a directory. Each run ends with
    status 1 and prints nothing: no warning, no success. *)
Lemma unreadable_destination_counterexample :
  (files (world_with KEYMAP long_number_keymap) README = None /\
   main ascii_db posix_utf8 (fun p => p)
     [u "generate_keymap.py"; KEYMAP; README]
     (world_with KEYMAP long_number_keymap)
   = (1, world_with KEYMAP long_number_keymap) /\
   ~ warned_and_successful README (world_with KEYMAP long_number_keymap)
       (main ascii_db posix_utf8 (fun p => p)
          [u "generate_keymap.py"; KEYMAP; README]
          (world_with KEYMAP long_number_keymap))) /\
  (files (world_with KEYMAP sample_keymap) undecodable_path = None /\
   main ascii_db posix_utf8 (fun p => p)
     [u "generate_keymap.py"; KEYMAP; undecodable_path]
     (world_with KEYMAP sample_keymap)
   = (1, world_with KEYMAP sample_keymap) /\
   ~ warned_and_successful undecodable_path (world_with KEYMAP sample_keymap)
       (main ascii_db posix_utf8 (fun p => p)
          [u "generate_keymap.py"; KEYMAP; undecodable_path]
          (world_with KEYMAP sample_keymap))) /\
  (forall n : node,
     n = File true true None \/ n = Directory ->
     path_exists
       (world_of [(KEYMAP, text_file sample_keymap); (README, n)]) README
     = Ret true /\
     main ascii_db posix_utf8 (fun p => p)
       [u "generate_keymap.py"; KEYMAP; README]
       (world_of [(KEYMAP, text_file sample_keymap); (README, n)])
     = (1, world_of [(KEYMAP, text_file sample_keymap); (README, n)]) /\
     ~ warned_and_successful README
         (world_of [(KEYMAP, text_file sample_keymap); (README, n)])
         (main ascii_db posix_utf8 (fun p => p)
            [u "generate_keymap.py"; KEYMAP; README]
            (world_of [(KEYMAP, text_file sample_keymap); (README, n)]))).
Proof.
  split; [|split].
  - assert (M : main ascii_db posix_utf8 (fun p => p)
                  [u "generate_keymap.py"; KEYMAP; README]
                  (world_with KEYMAP long_number_keymap)
                = (1, world_with KEYMAP long_number_keymap))
      by (vm_compute; reflexivity).
    split; [reflexivity|]. split; [exact M|].
    rewrite M. intros [H _]. discriminate H.
  - assert (M : main ascii_db posix_utf8 (fun p => p)
                  [u "generate_keymap.py"; KEYMAP; undecodable_path]
                  (world_with KEYMAP sample_keymap)
                = (1, world_with KEYMAP sample_keymap))
      by (vm_compute; reflexivity).
    split; [reflexivity|]. split; [exact M|].
    rewrite M. intros [H _]. discriminate H.
  - intros n Hn.
    assert (M : main ascii_db posix_utf8 (fun p => p)
                  [u "generate_keymap.py"; KEYMAP; README]
                  (world_of [(KEYMAP, text_file sample_keymap); (README, n)])
                = (1, world_of [(KEYMAP, text_file sample_keymap);
                                (README, n)]))
      by (destruct Hn as [-> | ->]; vm_compute; reflexivity).
    split; [destruct Hn as [-> | ->]; reflexivity|]. split; [exact M|].
    rewrite M. intros [H _]. discriminate H.
Qed.

Lemma last_app_nonempty {A : Type} (l1 l2 : list A) (d : A) :
  l2 <> [] -> last (l1 ++ l2) d = last l2 d.
Proof.
  intros H. induction l1 as [|x l1 IH]; [reflexivity|].
  cbn [app last]. rewrite IH.
  destruct (l1 ++ l2) eqn:E; [|reflexivity].
  apply app_eq_nil in E as [_ E]. contradiction.
Qed.

(** C4 as stated, on destination files with both markers. With the end
    marker twice, the splice drops what follows the second end marker;
    with the end marker before the start marker, it repeats the text
    after the end marker; with lines that end in CR LF, on a system whose
    line separator is LF, it rewrites the line ends before the start
    marker. In none of these cases is the new content the old one with
    only the text between the markers replaced. A file that may not be
    written keeps the text between its markers, and the call raises; with
    markdown that cannot be encoded the file is left empty, and the call
    raises. *)
Lemma splice_frame_counterexample :
  (contains readme_two_ends start_marker = true /\
   contains readme_two_ends end_marker = true /\
   update_readme posix_utf8 README (u "K") (world_with README readme_two_ends)
   = (Ret tt,
      store (world_with README readme_two_ends) README
        (text_file
           (u "A" ++ start_marker ++ [LF] ++ u "K" ++ [LF] ++ end_marker
              ++ u "C"))) /\
   ~ spliced_between_markers readme_two_ends (u "K")
       (u "A" ++ start_marker ++ [LF] ++ u "K" ++ [LF] ++ end_marker
          ++ u "C")) /\
  (contains readme_end_first start_marker = true /\
   contains readme_end_first end_marker = true /\
   update_readme posix_utf8 README (u "K")
     (world_with README readme_end_first)
   = (Ret tt,
      store (world_with README readme_end_first) README
        (text_file
           (end_marker ++ start_marker ++ [LF] ++ u "K" ++ [LF]
              ++ end_marker ++ start_marker))) /\
   ~ spliced_between_markers readme_end_first (u "K")
       (end_marker ++ start_marker ++ [LF] ++ u "K" ++ [LF]
          ++ end_marker ++ start_marker)) /\
  (contains readme_crlf start_marker = true /\
   contains readme_crlf end_marker = true /\
   update_readme posix_utf8 README (u "K") (world_with README readme_crlf)
   = (Ret tt,
      store (world_with README readme_crlf) README
        (text_file
           (u "A" ++ [LF] ++ start_marker ++ [LF] ++ u "K" ++ [LF]
              ++ end_marker ++ u "C"))) /\
   ~ spliced_between_markers readme_crlf (u "K")
       (u "A" ++ [LF] ++ start_marker ++ [LF] ++ u "K" ++ [LF]
          ++ end_marker ++ u "C")) /\
  (update_readme posix_utf8 README (u "K")
     (world_of [(README, File true false (Some readme_marked))])
   = (Raise PermissionError,
      world_of [(README, File true false (Some readme_marked))]) /\
   update_readme posix_utf8 README [0xDC80%N]
     (world_with README readme_marked)
   = (Raise UnicodeEncodeError,
      store (world_with README readme_marked) README (text_file []))).
Proof.
  split; [|split; [|split]]; [| | |split; reflexivity].
  - split; [reflexivity|]. split; [reflexivity|]. split; [reflexivity|].
    intros [b [m [a [Hc Hn]]]].
    assert (L : forall x, last (x ++ end_marker ++ a) 0%N
                          = last (end_marker ++ a) 0%N).
    { intros x. apply last_app_nonempty. rewrite end_marker_head.
      discriminate. }
    apply (f_equal (fun l => last l 0%N)) in Hc, Hn.
    replace (b ++ start_marker ++ m ++ end_marker ++ a)
      with ((b ++ start_marker ++ m) ++ end_marker ++ a) in Hc
      by (rewrite <- !app_assoc; reflexivity).
    replace (b ++ start_marker ++ [LF] ++ u "K" ++ [LF] ++ end_marker ++ a)
      with ((b ++ start_marker ++ [LF] ++ u "K" ++ [LF]) ++ end_marker ++ a)
      in Hn by (rewrite <- !app_assoc; reflexivity).
    rewrite L in Hc, Hn. rewrite <- Hn in Hc. vm_compute in Hc. discriminate.
  - split; [reflexivity|]. split; [reflexivity|]. split; [reflexivity|].
    intros [b [m [a [Hc _]]]].
    assert (Hl := f_equal (@length N) Hc). unfold readme_end_first in Hl.
    rewrite !length_app in Hl.
    destruct b; [|cbn [length] in Hl; lia].
    destruct m; [|cbn [length] in Hl; lia].
    destruct a; [|cbn [length] in Hl; lia].
    vm_compute in Hc. discriminate.
  - split; [reflexivity|]. split; [reflexivity|]. split; [reflexivity|].
    intros [b [m [a [Hc Hn]]]].
    destruct b as [|b0 [|b1 b]].
    + vm_compute in Hc. discriminate Hc.
    + vm_compute in Hc. discriminate Hc.
    + apply (f_equal (fun l => nth 1 l 0%N)) in Hc, Hn.
      cbn [app nth] in Hc, Hn. rewrite <- Hn in Hc. vm_compute in Hc.
      discriminate Hc.
Qed.

(** C5 as stated, on a destination file with both markers and on a fixed
    markdown string. With the end marker before the start marker, each run
    appends the text after that end marker once more; with a markdown
    string that contains the end marker, the second run keeps its tail
    after the end marker. In both cases the second run leaves another
    content than the first. *)
Lemma splice_twice_counterexample :
  (contains readme_end_first start_marker = true /\
   contains readme_end_first end_marker = true /\
   update_readme posix_utf8 README (u "K")
     (world_with README readme_end_first)
   = (Ret tt,
      store (world_with README readme_end_first) README
        (text_file
           (end_marker ++ start_marker ++ [LF] ++ u "K" ++ [LF]
              ++ end_marker ++ start_marker))) /\
   update_readme posix_utf8 README (u "K")
     (store (world_with README readme_end_first) README
        (text_file
           (end_marker ++ start_marker ++ [LF] ++ u "K" ++ [LF]
              ++ end_marker ++ start_marker)))
   = (Ret tt,
      store
        (store (world_with README readme_end_first) README
           (text_file
              (end_marker ++ start_marker ++ [LF] ++ u "K" ++ [LF]
                 ++ end_marker ++ start_marker)))
        README
        (text_file
           (end_marker ++ start_marker ++ [LF] ++ u "K" ++ [LF]
              ++ end_marker ++ start_marker ++ [LF] ++ u "K" ++ [LF]))) /\
   end_marker ++ start_marker ++ [LF] ++ u "K" ++ [LF]
      ++ end_marker ++ start_marker ++ [LF] ++ u "K" ++ [LF]
   <> end_marker ++ start_marker ++ [LF] ++ u "K" ++ [LF]
      ++ end_marker ++ start_marker) /\
  (update_readme posix_utf8 README (u "x" ++ end_marker ++ u "y")
     (world_with README (start_marker ++ end_marker))
   = (Ret tt,
      store (world_with README (start_marker ++ end_marker)) README
        (text_file
           (start_marker ++ [LF] ++ u "x" ++ end_marker ++ u "y" ++ [LF]
              ++ end_marker))) /\
   update_readme posix_utf8 README (u "x" ++ end_marker ++ u "y")
     (store (world_with README (start_marker ++ end_marker)) README
        (text_file
           (start_marker ++ [LF] ++ u "x" ++ end_marker ++ u "y" ++ [LF]
              ++ end_marker)))
   = (Ret tt,
      store
        (store (world_with README (start_marker ++ end_marker)) README
           (text_file
              (start_marker ++ [LF] ++ u "x" ++ end_marker ++ u "y" ++ [LF]
                 ++ end_marker)))
        README
        (text_file
           (start_marker ++ [LF] ++ u "x" ++ end_marker ++ u "y" ++ [LF]
              ++ end_marker ++ u "y" ++ [LF]))) /\
   start_marker ++ [LF] ++ u "x" ++ end_marker ++ u "y" ++ [LF]
      ++ end_marker ++ u "y" ++ [LF]
   <> start_marker ++ [LF] ++ u "x" ++ end_marker ++ u "y" ++ [LF]
      ++ end_marker).
Proof.
  split.
  - split; [reflexivity|]. split; [reflexivity|]. split; [reflexivity|].
    split; [reflexivity|]. vm_compute. discriminate.
  - split; [reflexivity|]. split; [reflexivity|]. vm_compute. discriminate.
Qed.

(** * The embedding on the examples of the specification *)

Example decode_unknown_token :
  parse_binding ascii_db (u "&customaction123") = Ret (u "custom").
Proof. reflexivity. Qed.

Example center_odd_margin :
  center (u "ab") 7 = u "   ab  " /\ center (u "Shift") 7 = u " Shift ".
Proof. split; reflexivity. Qed.

Example split_before_ampersands :
  Re.split before_ampersand (u "x &kp A &&mo 1")
    = [u "x "; u "&kp A "; u "&"; u "&mo 1"].
Proof. reflexivity. Qed.

Example comments_are_removed :
  strip_comments
    (u "a // layer_9 {" ++ [LF] ++ u "b /* layer_8 {" ++ [LF] ++ u "} */ c")
    = u "a " ++ [LF] ++ u "b  c".
Proof. reflexivity. Qed.

Example short_layer_dropped_and_layers_sorted :
  match parse_keymap ascii_db posix_utf8 sample_keymap with
  | Ret layers => map (fun l => (fst l, length (snd l))) layers
  | Raise _ => []
  end = [(u "layer_2", 42); (u "layer_10", 36)].
Proof. vm_compute. reflexivity. Qed.

Example splice_drops_after_second_end_marker :
  files
    (snd (update_readme posix_utf8 README (u "K")
            (world_with README readme_two_ends)))
    README
  = Some (text_file
            (u "A" ++ start_marker ++ [LF] ++ u "K" ++ [LF] ++ end_marker
               ++ u "C")).
Proof. vm_compute. reflexivity. Qed.

Example line_ends_as_read :
  universal_newlines
    (u "A" ++ [CR; LF] ++ u "B" ++ [CR] ++ u "C" ++ [LF] ++ u "D"
       ++ [CR; CR; LF] ++ u "E" ++ [LF; CR] ++ u "F")
  = u "A" ++ [LF] ++ u "B" ++ [LF] ++ u "C" ++ [LF] ++ u "D" ++ [LF; LF]
      ++ u "E" ++ [LF; LF] ++ u "F".
Proof. reflexivity. Qed.

Example number_of_an_identifier :
  first_digit_run ascii_db (u "layer_012x34") = u "012" /\
  number_of ascii_db (u "layer_012x34") = 12%N /\
  layer_number ascii_db posix_utf8 (u "layer_012x34") = Ret 12%N.
Proof. repeat split. Qed.

(** * Further properties of the script *)

(** ** The decoder and the text around a binding *)

Lemma lstrip_by_all (p : N -> bool) (ws x : str) :
  forallb p ws = true -> lstrip_by p (ws ++ x) = lstrip_by p x.
Proof.
  induction ws as [|c ws IH]; intros H; [reflexivity|].
  cbn [forallb] in H. apply andb_true_iff in H as [Hc H].
  cbn [app lstrip_by]. rewrite Hc. exact (IH H).
Qed.

Lemma lstrip_by_kept (p : N -> bool) (c : N) (x : str) :
  p c = false -> lstrip_by p (c :: x) = c :: x.
Proof. intros H. cbn [lstrip_by]. rewrite H. reflexivity. Qed.

Lemma is_trimmed_ends (s : str) :
  is_trimmed s = true ->
  exists c x d y, s = c :: x /\ rev s = d :: y /\
                  isspace c = false /\ isspace d = false.
Proof.
  unfold is_trimmed. destruct s as [|c x]; [discriminate|].
  destruct (rev (c :: x)) as [|d y] eqn:E; [discriminate|].
  intros H. apply andb_true_iff in H as [Hc Hd].
  apply negb_true_iff in Hc, Hd. exists c, x, d, y. auto.
Qed.

(** White space around trimmed text is what [strip] removes. *)
Lemma strip_padded (ws1 s ws2 : str) :
  forallb isspace ws1 = true -> forallb isspace ws2 = true ->
  is_trimmed s = true ->
  strip (ws1 ++ s ++ ws2) = s.
Proof.
  intros H1 H2 Hs.
  destruct (is_trimmed_ends s Hs) as [c [x [d [y [Es [Er [Hc Hd]]]]]]].
  unfold strip, rstrip_by.
  rewrite lstrip_by_all by exact H1.
  rewrite Es at 1. cbn [app]. rewrite lstrip_by_kept by exact Hc.
  change (c :: x ++ ws2) with ((c :: x) ++ ws2). rewrite <- Es.
  rewrite rev_app_distr.
  rewrite lstrip_by_all
    by (apply forallb_forall; intros z Hz; apply in_rev in Hz;
        rewrite forallb_forall in H2; exact (H2 z Hz)).
  rewrite Er, lstrip_by_kept by exact Hd.
  rewrite <- Er. apply rev_involutive.
Qed.

Lemma strip_trimmed (s : str) : is_trimmed s = true -> strip s = s.
Proof.
  intros H. rewrite <- (strip_padded [] s [] eq_refl eq_refl H) at 2.
  rewrite app_nil_r. reflexivity.
Qed.

Lemma lstrip_ampersands (k : nat) (b : str) :
  startswith b (u "&") = false ->
  lstrip (u "&") (repeat (ch "&") k ++ b) = b.
Proof.
  intros H. unfold lstrip. rewrite lstrip_by_all.
  - destruct b as [|c b]; [reflexivity|].
    apply lstrip_by_kept.
    change (u "&") with [38%N] in *. cbn [startswith existsb] in *.
    rewrite andb_true_r in H. rewrite orb_false_r, N.eqb_sym. exact H.
  - apply forallb_forall. intros x Hx. apply repeat_spec in Hx. subst x.
    reflexivity.
Qed.

Lemma is_trimmed_intro (s : str) (c : N) (x : str) (d : N) (y : str) :
  s = c :: x -> rev s = d :: y -> isspace c = false -> isspace d = false ->
  is_trimmed s = true.
Proof.
  intros -> Er Hc Hd. unfold is_trimmed. rewrite Er, Hc, Hd. reflexivity.
Qed.

Lemma is_trimmed_ampersands (k : nat) (b : str) :
  is_trimmed b = true -> is_trimmed (repeat (ch "&") k ++ b) = true.
Proof.
  intros H. destruct k as [|k]; [exact H|].
  destruct (is_trimmed_ends b H) as [c [x [d [y [Es [Er [Hc Hd]]]]]]].
  apply (is_trimmed_intro _ (ch "&") (repeat (ch "&") k ++ b) d
           (y ++ rev (repeat (ch "&") (S k))));
    [reflexivity | | reflexivity | exact Hd].
  rewrite rev_app_distr, Er. reflexivity.
Qed.

Lemma parse_binding_normalized (db : unicode_db) (a b : str) :
  normalized a = normalized b -> parse_binding db a = parse_binding db b.
Proof. intros H. unfold parse_binding. rewrite H. reflexivity. Qed.

(** The label of a binding does not depend on the white space around the
    token nor on how many ampersands lead it. *)
Theorem parse_binding_ignores_padding (db : unicode_db)
  (ws1 ws2 b : str) (k : nat) :
  forallb isspace ws1 = true -> forallb isspace ws2 = true ->
  is_trimmed b = true -> startswith b (u "&") = false ->
  normalized (ws1 ++ repeat (ch "&") k ++ b ++ ws2) = b /\
  parse_binding db (ws1 ++ repeat (ch "&") k ++ b ++ ws2)
    = parse_binding db b.
Proof.
  intros H1 H2 Hb Ha.
  assert (E : normalized (ws1 ++ repeat (ch "&") k ++ b ++ ws2) = b).
  { unfold normalized.
    replace (ws1 ++ repeat (ch "&") k ++ b ++ ws2)
      with (ws1 ++ (repeat (ch "&") k ++ b) ++ ws2)
      by (rewrite <- !app_assoc; reflexivity).
    rewrite strip_padded by (auto using is_trimmed_ampersands).
    apply lstrip_ampersands, Ha. }
  split; [exact E|].
  apply parse_binding_normalized. rewrite E. unfold normalized.
  rewrite strip_trimmed by exact Hb.
  exact (eq_sym (lstrip_ampersands 0 b Ha)).
Qed.

Lemma KEY_DISPLAY_keys_start_with_letters :
  forallb
    (fun kv => match fst kv with
               | c :: _ => negb (isspace c)
               | [] => false
               end)
    KEY_DISPLAY = true.
Proof. vm_compute. reflexivity. Qed.

(** White space between the ampersand and the rest of a binding hides the
    binding from every rule: the label is the first six characters of what
    follows the ampersands, white space included. *)
Theorem parse_binding_space_after_ampersand (db : unicode_db)
  (binding : str) (c : N) (rest : str) :
  normalized binding = c :: rest -> isspace c = true ->
  parse_binding db binding = Ret (firstn 6 (c :: rest)).
Proof.
  intros E Hc.
  assert (P : forall kw, negb (isspace (hd 0%N kw)) = true ->
                kw <> [] -> startswith (c :: rest) kw = false).
  { intros [|a kw] Ha Hne; [contradiction Hne; reflexivity|].
    cbn [startswith hd] in *. destruct (a =? c)%N eqn:Eq; [|reflexivity].
    apply N.eqb_eq in Eq. subst a. rewrite Hc in Ha. discriminate. }
  rewrite parse_binding_other; rewrite E;
    try (apply P; [reflexivity | discriminate]).
  destruct (dict_get KEY_DISPLAY (c :: rest)) as [label|] eqn:D.
  - apply dict_get_In in D.
    pose proof KEY_DISPLAY_keys_start_with_letters as F.
    rewrite forallb_forall in F. specialize (F _ D). cbn [fst] in F.
    rewrite Hc in F. discriminate.
  - rewrite (P (u "kp ")); [reflexivity | reflexivity | discriminate].
Qed.

Lemma KEY_DISPLAY_labels_short :
  forallb (fun kv => length (snd kv) <=? 6) KEY_DISPLAY = true.
Proof. vm_compute. reflexivity. Qed.

(** The width of a cell: seven columns, or the label's own length when it
    is longer. *)
Lemma fmt_length (key : str) : length (fmt key) = Nat.max 7 (length key).
Proof.
  unfold fmt. destruct (Nat.le_gt_cases (length key) 7) as [H|H].
  - destruct (center_7 key H) as [l [r [E [L _]]]].
    rewrite E, !length_app, !repeat_length. lia.
  - rewrite center_7_long by lia. lia.
Qed.

(** A label that comes from the table or from the fallback has at most six
    characters, so its cell has exactly seven columns. *)
Theorem known_labels_fit (db : unicode_db) (binding label : str) :
  parse_binding db binding = Ret label ->
  startswith (normalized binding) (u "mo ") = false ->
  startswith (normalized binding) (u "to ") = false ->
  startswith (normalized binding) (u "lt ") = false ->
  dict_get KEY_DISPLAY (normalized binding) <> None \/
  startswith (normalized binding) (u "kp ") = false ->
  length label <= 6 /\ length (fmt label) = 7.
Proof.
  intros E H1 H2 H3 H.
  assert (L : length label <= 6).
  { rewrite parse_binding_other in E by assumption.
    destruct (dict_get KEY_DISPLAY (normalized binding)) as [v|] eqn:D.
    - injection E as <-. apply dict_get_In in D.
      pose proof KEY_DISPLAY_labels_short as F.
      rewrite forallb_forall in F. specialize (F _ D).
      apply Nat.leb_le in F. exact F.
    - destruct H as [H|H]; [contradiction H; reflexivity|].
      rewrite H in E.
      assert (El : firstn 6 (normalized binding) = label) by congruence.
      rewrite <- El, length_firstn. lia. }
  split; [exact L|]. rewrite fmt_length. lia.
Qed.

(** ** The geometry of the diagram *)

Lemma Forall2_nth_default {A B : Type} (R : A -> B -> Prop)
  (l : list A) (l' : list B) (d : A) (d' : B) :
  Forall2 R l l' ->
  forall i, i < length l' -> In (nth i l d) (firstn (S i) l) /\
                             R (nth i l d) (nth i l' d').
Proof.
  induction 1 as [|x y l l' Hxy _ IH]; intros i Hi; [cbn in Hi; lia|].
  destruct i as [|i]; cbn [nth firstn].
  - split; [left; reflexivity | exact Hxy].
  - cbn [length] in Hi. destruct (IH i) as [I Rn]; [lia|].
    split; [right; exact I | exact Rn].
Qed.

Lemma firstn_incl {A : Type} (n m : nat) (l : list A) (x : A) :
  n <= m -> In x (firstn n l) -> In x (firstn m l).
Proof.
  revert m l; induction n as [|n IH]; intros m l H I; [contradiction|].
  destruct l as [|y l]; [contradiction|].
  destruct m as [|m]; [lia|]. cbn [firstn] in *.
  destruct I as [I|I]; [left; exact I | right; apply (IH m l); [lia|exact I]].
Qed.

Lemma row6_length (cell : nat -> str) (i : nat) :
  (forall j, j < 6 -> length (cell (i + j)) = 7) ->
  length (row6 cell i) = 47.
Proof.
  intros H. unfold row6. rewrite !length_app.
  rewrite <- (Nat.add_0_r i) at 1.
  rewrite !H by lia. reflexivity.
Qed.

Lemma row3_length (cell : nat -> str) (i : nat) :
  (forall j, j < 3 -> length (cell (i + j)) = 7) ->
  length (row3 cell i) = 23.
Proof.
  intros H. unfold row3. rewrite !length_app.
  rewrite <- (Nat.add_0_r i) at 1.
  rewrite !H by lia. reflexivity.
Qed.

(** When the labels of the first 42 bindings have at most seven
    characters, the diagram is aligned: its three key rows are as long as
    the borders above and below them, and the thumb row as long as the
    border that closes it. *)
Theorem diagram_lines_aligned (db : unicode_db)
  (bindings : list str) (layer_name : str) :
  (forall b l, In b (firstn 42 bindings) ->
               parse_binding db b = Ret l -> length l <= 7) ->
  exists lines,
    format_corne_layer db bindings layer_name = Ret (join [LF] lines) /\
    map (@length N) lines
      = [4 + length layer_name; 3; 105; 105; 105; 105; 105; 105; 105;
         81; 81; 3].
Proof.
  intros Hfit.
  destruct (for_each_total (parse_binding db) bindings) as [labels [E F]].
  { intros b _. apply parse_binding_returns. }
  assert (C : forall i, i < 42 ->
                length (center (nth i labels []) 7) = 7).
  { intros i Hi. change (center (nth i labels []) 7)
      with (fmt (nth i labels [])). rewrite fmt_length.
    destruct (Nat.lt_ge_cases i (length labels)) as [Hl|Hl].
    - destruct (Forall2_nth_default _ bindings labels [] [] F i Hl)
        as [I P].
      pose proof (Hfit _ _ (firstn_incl (S i) 42 _ _ ltac:(lia) I) P).
      lia.
    - rewrite nth_overflow by exact Hl. reflexivity. }
  rewrite (format_corne_layer_result db bindings labels layer_name E).
  unfold corne_diagram. eexists. split; [reflexivity|].
  cbn [map].
  repeat match goal with |- _ :: _ = _ :: _ => f_equal end;
    try reflexivity;
    rewrite !length_app;
    rewrite ?row6_length, ?row3_length by (intros j Hj; apply C; lia);
    reflexivity.
Qed.

(** ** What the scanning loop does with the subject *)

(** The matches and what is skipped between them make up the subject. *)
Lemma scan_decompose r (n : nat) : forall (s : str) (must_advance : bool),
  s = concat (map (fun f => Re.skipped f ++ Re.text f)
                (fst (Re.scan n r s must_advance)))
        ++ snd (Re.scan n r s must_advance).
Proof.
  induction n as [|n IH]; intros s adv; cbn [Re.scan]; [reflexivity|].
  destruct (Re.search r s adv) as [[f rest]|] eqn:E; [|reflexivity].
  match goal with
  | |- context [Re.scan n r rest ?e] =>
      specialize (IH rest e); destruct (Re.scan n r rest e) as [fs tail]
  end.
  cbn [fst snd map concat] in *.
  apply search_sound in E as [Es _].
  rewrite Es at 1. rewrite IH at 1. rewrite <- !app_assoc. reflexivity.
Qed.

Lemma subsequence_refl (a : str) : subsequence a a.
Proof. induction a; constructor; assumption. Qed.

Lemma subsequence_drop_app (x a b : str) :
  subsequence a b -> subsequence a (x ++ b).
Proof. intros H. induction x; [exact H | constructor; assumption]. Qed.

Lemma subsequence_app (a b a' b' : str) :
  subsequence a b -> subsequence a' b' -> subsequence (a ++ a') (b ++ b').
Proof. induction 1; intros H'; cbn [app]; try constructor; auto. Qed.

Lemma subsequence_trans (a b c : str) :
  subsequence a b -> subsequence b c -> subsequence a c.
Proof.
  intros Hab Hbc. revert a Hab.
  induction Hbc as [|x b c _ IH|x b c _ IH]; intros a Hab.
  - exact Hab.
  - inversion Hab; subst; constructor; apply IH; assumption.
  - constructor. apply IH, Hab.
Qed.

Lemma subsequence_In (a b : str) (c : N) :
  subsequence a b -> In c a -> In c b.
Proof.
  induction 1 as [|x a b _ IH|x a b _ IH]; intros I.
  - exact I.
  - destruct I as [I|I]; [left; exact I | right; exact (IH I)].
  - right; exact (IH I).
Qed.

Lemma subsequence_length (a b : str) :
  subsequence a b -> length a <= length b.
Proof. induction 1; cbn [length]; lia. Qed.

(** Substitution by the empty string only takes characters away. *)
Lemma sub_empty_subsequence r (s : str) : subsequence (Re.sub r [] s) s.
Proof.
  unfold Re.sub, Re.finditer.
  pose proof (scan_decompose r (2 * length s + 2) s false) as D.
  destruct (Re.scan (2 * length s + 2) r s false) as [fs tail].
  cbn [fst snd] in D. rewrite D at 1. clear D.
  apply subsequence_app; [|apply subsequence_refl].
  induction fs as [|f fs IH]; cbn [map concat]; [constructor|].
  rewrite app_nil_r, <- app_assoc.
  apply subsequence_app; [apply subsequence_refl|].
  apply subsequence_drop_app, IH.
Qed.

(** Without a match the subject is returned as it is. *)
Lemma sub_no_match r (repl s : str) :
  fst (Re.finditer r s) = [] -> Re.sub r repl s = s.
Proof.
  unfold Re.sub, Re.finditer. intros H.
  pose proof (scan_decompose r (2 * length s + 2) s false) as D.
  destruct (Re.scan (2 * length s + 2) r s false) as [fs tail].
  cbn [fst snd] in *. subst fs. cbn [map concat app] in *.
  symmetry. exact D.
Qed.

Lemma finditer_sound r (s : str) (f : Re.found) :
  In f (fst (Re.finditer r s)) ->
  exists before rest,
    s = before ++ Re.text f ++ rest /\
    Re.Matches r (Re.text f ++ rest) [] rest (Re.captures f).
Proof.
  intros H. unfold Re.finditer in H.
  pose proof (scan_sound r (2 * length s + 2) s false) as F.
  rewrite Forall_forall in F. exact (F f H).
Qed.

(** ** Comment stripping *)

Lemma comment_starts_with_slash (r : Re.regex) (s s' : str) g g' :
  r = line_comment \/ r = block_comment ->
  Re.Matches r s g s' g' -> exists t, s = ch "/" :: t.
Proof.
  intros [-> | ->] M; apply Matches_Seq_inv in M as [s1 [g1 [M _]]];
    apply Matches_Lit_inv in M as [-> _]; eexists; reflexivity.
Qed.

Lemma no_comment_without_slash (r : Re.regex) (s : str) :
  r = line_comment \/ r = block_comment ->
  ~ In (ch "/") s -> fst (Re.finditer r s) = [].
Proof.
  intros Hr Hs. destruct (fst (Re.finditer r s)) as [|f fs] eqn:E;
    [reflexivity|]. exfalso.
  destruct (finditer_sound r s f) as [before [rest [Es M]]];
    [rewrite E; left; reflexivity|].
  destruct (comment_starts_with_slash r _ _ _ _ Hr M) as [t Et].
  apply Hs. rewrite Es, Et. apply in_or_app. right. left. reflexivity.
Qed.

Lemma strip_comments_subsequence (content : str) :
  subsequence (strip_comments content) content.
Proof.
  unfold strip_comments.
  eapply subsequence_trans; apply sub_empty_subsequence.
Qed.

(** Comment stripping only deletes: the comment-free text is the input
    with some characters left out, in the same order. A text without any
    slash has no comment and is left as it is. *)
Theorem strip_comments_only_deletes (content : str) :
  subsequence (strip_comments content) content /\
  length (strip_comments content) <= length content /\
  (forall c, In c (strip_comments content) -> In c content) /\
  (~ In (ch "/") content -> strip_comments content = content).
Proof.
  pose proof (strip_comments_subsequence content) as S.
  split; [exact S|]. split; [apply subsequence_length, S|].
  split; [intros c; apply subsequence_In, S|].
  intros H. unfold strip_comments.
  rewrite (sub_no_match line_comment [] content)
    by (apply no_comment_without_slash; auto).
  apply sub_no_match, no_comment_without_slash; auto.
Qed.

(** ** The tokens of a bindings text *)

(** A lookahead for an ampersand matches where one stands, and matches
    the empty string. *)
Lemma match_at_before_ampersand (s : str) (must_advance : bool) :
  Re.match_at before_ampersand s must_advance =
    if startswith s (u "&") && negb must_advance then Some (s, [])
    else None.
Proof.
  unfold Re.match_at, before_ampersand. cbn [Re.exec].
  destruct (startswith s (u "&")); [|reflexivity].
  rewrite Nat.eqb_refl. destruct must_advance; reflexivity.
Qed.

(** Where the pattern does not match at the head of the subject, the loop
    goes on behind the first character, which joins the first piece. *)
Lemma scan_skip r (c : N) (s : str) (must_advance : bool) (n m : nat) :
  Re.match_at r (c :: s) must_advance = None ->
  2 * length s + 3 <= n -> 2 * length s + 2 <= m ->
  map Re.skipped (fst (Re.scan n r (c :: s) must_advance))
    ++ [snd (Re.scan n r (c :: s) must_advance)] =
  (c :: hd [] (map Re.skipped (fst (Re.scan m r s false))
               ++ [snd (Re.scan m r s false)]))
    :: tl (map Re.skipped (fst (Re.scan m r s false))
           ++ [snd (Re.scan m r s false)]).
Proof.
  intros Hm Hn Hm'.
  destruct n as [|n]; [lia|]. destruct m as [|m]; [lia|].
  cbn [Re.scan Re.search]. rewrite Hm.
  destruct (Re.search r s false) as [[f rest]|] eqn:E; [|reflexivity].
  cbn [Re.text].
  assert (R : Re.scan n r rest
                (match Re.text f with [] => true | _ :: _ => false end)
              = Re.scan m r rest
                  (match Re.text f with [] => true | _ :: _ => false end)).
  { apply search_sound in E as [Es _].
    apply (f_equal (@length N)) in Es. rewrite !length_app in Es.
    apply scan_rounds_enough;
      destruct (Re.text f); cbn [length] in *; lia. }
  rewrite R.
  destruct (Re.scan m r rest _) as [fs tail]. reflexivity.
Qed.

(** [re.split(r'(?=&)', s)] cuts [s] before each of its ampersands. *)
Lemma split_before_ampersand (s : str) :
  Re.split before_ampersand s = cut_before_ampersands s.
Proof.
  assert (P : forall n, 2 * length s + 2 <= n ->
            map Re.skipped (fst (Re.scan n before_ampersand s false))
              ++ [snd (Re.scan n before_ampersand s false)]
            = cut_before_ampersands s).
  { induction s as [|c s IH]; intros n Hn.
    - destruct n as [|n]; [cbn [length] in Hn; lia|]. reflexivity.
    - cbn [length] in Hn. cbn [cut_before_ampersands].
      destruct (c =? ch "&")%N eqn:Ec.
      + apply N.eqb_eq in Ec. subst c.
        destruct n as [|n]; [lia|]. cbn [Re.scan Re.search].
        rewrite match_at_before_ampersand.
        change (startswith (ch "&" :: s) (u "&") && negb false) with true.
        cbv iota. cbn [Re.text]. rewrite Nat.sub_diag. cbn [firstn].
        pose proof (scan_skip before_ampersand (ch "&") s true n
                      (2 * length s + 2)) as K.
        rewrite match_at_before_ampersand in K.
        rewrite andb_false_r in K.
        specialize (K eq_refl ltac:(lia) ltac:(lia)).
        rewrite (IH _ (Nat.le_refl _)) in K.
        destruct (Re.scan n before_ampersand (ch "&" :: s) true)
          as [fs tail].
        cbn [fst snd map app Re.skipped] in *. rewrite K. reflexivity.
      + pose proof (scan_skip before_ampersand c s false n
                      (2 * length s + 2)) as K.
        rewrite match_at_before_ampersand in K.
        assert (Sw : startswith (c :: s) (u "&") = false).
        { change (u "&") with [ch "&"]. cbn [startswith].
          rewrite N.eqb_sym, Ec. reflexivity. }
        rewrite Sw in K.
        specialize (K eq_refl ltac:(lia) ltac:(lia)).
        rewrite (IH _ (Nat.le_refl _)) in K. exact K. }
  unfold Re.split, Re.finditer. specialize (P _ (Nat.le_refl _)).
  destruct (Re.scan (2 * length s + 2) before_ampersand s false)
    as [fs tail].
  exact P.
Qed.

(** The pieces: the first has no ampersand, every other one starts with
    the only ampersand it has; together they are the text; there is one
    more piece than there are ampersands. *)
Lemma cut_before_ampersands_pieces (s : str) :
  exists p ps,
    cut_before_ampersands s = p :: ps /\
    ~ In (ch "&") p /\
    Forall (fun q => exists r, q = ch "&" :: r /\ ~ In (ch "&") r) ps /\
    concat (p :: ps) = s /\
    length ps = count_occ N.eq_dec s (ch "&").
Proof.
  induction s as [|c s [p [ps [E [Hp [Hps [Hc Hl]]]]]]].
  - exists [], []. repeat split; auto.
  - cbn [cut_before_ampersands]. rewrite E. cbn [hd tl].
    destruct (c =? ch "&")%N eqn:Ec.
    + apply N.eqb_eq in Ec. subst c.
      exists [], ((ch "&" :: p) :: ps).
      split; [reflexivity|]. split; [intros []|].
      split; [constructor; [exists p; auto | exact Hps]|].
      split; [cbn [concat app] in *; rewrite Hc; reflexivity|].
      cbn [length]. rewrite count_occ_cons_eq by reflexivity.
      rewrite Hl. reflexivity.
    + apply N.eqb_neq in Ec.
      exists (c :: p), ps.
      split; [reflexivity|].
      split; [intros [H|H]; [exact (Ec H) | exact (Hp H)]|].
      split; [exact Hps|].
      split; [cbn [concat app] in *; rewrite Hc; reflexivity|].
      rewrite count_occ_cons_neq by exact Ec. exact Hl.
Qed.

Lemma lstrip_by_decompose (p : N -> bool) (s : str) :
  exists pre, s = pre ++ lstrip_by p s /\ forallb p pre = true.
Proof.
  induction s as [|c s [pre [E F]]]; cbn [lstrip_by].
  - exists []; auto.
  - destruct (p c) eqn:Pc.
    + exists (c :: pre); cbn [forallb app]. rewrite Pc, F.
      split; [f_equal; exact E | reflexivity].
    + exists []; auto.
Qed.

(** [strip] takes white space off both ends and nothing else. *)
Lemma strip_decompose (s : str) :
  exists ws ws',
    s = ws ++ strip s ++ ws' /\
    forallb isspace ws = true /\ forallb isspace ws' = true.
Proof.
  destruct (lstrip_by_decompose isspace s) as [ws [E F]].
  destruct (lstrip_by_decompose isspace (rev (lstrip_by isspace s)))
    as [rws [E' F']].
  exists ws, (rev rws). split; [|split; [exact F|]].
  - unfold strip, rstrip_by. rewrite E at 1. f_equal.
    rewrite <- rev_app_distr, <- E'. symmetry. apply rev_involutive.
  - apply forallb_forall. intros z Hz. apply in_rev in Hz.
    rewrite forallb_forall in F'. exact (F' z Hz).
Qed.

Lemma lstrip_by_snoc (p : N -> bool) (x : str) (c : N) :
  p c = false -> lstrip_by p (x ++ [c]) = lstrip_by p x ++ [c].
Proof.
  intros H. induction x as [|a x IH]; cbn [app lstrip_by].
  - rewrite H. reflexivity.
  - destruct (p a); [exact IH | reflexivity].
Qed.

(** What [strip] leaves, if anything, has no white space at its ends. *)
Lemma strip_is_trimmed (s : str) : strip s <> [] -> is_trimmed (strip s) = true.
Proof.
  intros Hne.
  destruct (rev (strip s)) as [|d y] eqn:Er.
  { apply (f_equal (@rev N)) in Er. rewrite rev_involutive in Er.
    contradiction. }
  pose proof (strip_last s d y Er) as Hd.
  destruct (lstrip_by isspace s) as [|c x] eqn:El.
  { unfold strip, rstrip_by in Hne. rewrite El in Hne.
    contradiction Hne. reflexivity. }
  pose proof (lstrip_by_head isspace s c x El) as Hc.
  assert (Es : exists x', strip s = c :: x').
  { unfold strip, rstrip_by. rewrite El. cbn [rev].
    rewrite lstrip_by_snoc by exact Hc. rewrite rev_app_distr.
    eexists. reflexivity. }
  destruct Es as [x' Es].
  exact (is_trimmed_intro _ c x' d y Es Er Hc Hd).
Qed.

Lemma strip_In (s : str) (c : N) : In c (strip s) -> In c s.
Proof.
  destruct (strip_decompose s) as [ws [ws' [E _]]]. intros H.
  rewrite E. apply in_or_app. right. apply in_or_app. left. exact H.
Qed.

(** Stripping keeps a first character that is no white space. *)
Lemma strip_keeps_head (c : N) (r : str) :
  isspace c = false -> exists r', strip (c :: r) = c :: r'.
Proof.
  intros Hc. destruct (strip_decompose (c :: r)) as [ws [ws' [E [F F']]]].
  destruct ws as [|w ws].
  - cbn [app] in E. destruct (strip (c :: r)) as [|a t].
    + cbn [app] in E. subst ws'. cbn [forallb] in F'.
      rewrite Hc in F'. discriminate.
    + injection E as <- _. eexists; reflexivity.
  - injection E as <- _. cbn [forallb] in F. rewrite Hc in F. discriminate.
Qed.

(** An ampersand that stands in first place at most does so after
    stripping too. *)
Lemma strip_tail_ampersand (p : str) :
  ~ In (ch "&") (tl p) -> ~ In (ch "&") (tl (strip p)).
Proof.
  intros H I. apply H.
  destruct (strip_decompose p) as [ws [ws' [E _]]].
  destruct (strip p) as [|a t] eqn:Es; [contradiction|]. cbn [tl] in I.
  rewrite E. destruct ws as [|w ws]; cbn [app tl].
  - apply in_or_app. left. exact I.
  - apply in_or_app. right. right. apply in_or_app. left. exact I.
Qed.

Lemma replace_char_no_old (old new : N) (s : str) :
  old <> new -> ~ In old (replace_char old new s).
Proof.
  intros Hne H. unfold replace_char in H. apply in_map_iff in H as [c [E _]].
  destruct (c =? old)%N eqn:Ec; [congruence|].
  apply N.eqb_neq in Ec. congruence.
Qed.

Lemma replace_char_count (old new c : N) (s : str) :
  c <> old -> c <> new ->
  count_occ N.eq_dec (replace_char old new s) c = count_occ N.eq_dec s c.
Proof.
  intros Ho Hn. induction s as [|a s IH]; [reflexivity|].
  cbn [replace_char map]. fold (replace_char old new s).
  destruct (a =? old)%N eqn:Ea.
  - apply N.eqb_eq in Ea. subst a.
    rewrite !count_occ_cons_neq by congruence. exact IH.
  - destruct (N.eq_dec a c) as [->|Hac].
    + rewrite !count_occ_cons_eq by reflexivity. f_equal. exact IH.
    + rewrite !count_occ_cons_neq by exact Hac. exact IH.
Qed.

Lemma filter_length_le {A : Type} (f : A -> bool) (l : list A) :
  length (filter f l) <= length l.
Proof.
  induction l as [|x l IH]; [reflexivity|]. cbn [filter].
  destruct (f x); cbn [length]; lia.
Qed.

(** The tokens of a bindings text are bindings: none is empty or has white
    space at an end, none has a line feed, none has an ampersand after its
    first character, and all but possibly the first start with one.
    There is at most one more token than the text has ampersands. *)
Theorem tokens_are_bindings (text : str) :
  Forall (fun t => is_trimmed t = true /\ ~ In LF t /\
                   ~ In (ch "&") (tl t)) (tokens text) /\
  Forall (fun t => startswith t (u "&") = true) (tl (tokens text)) /\
  length (tokens text) <= S (count_occ N.eq_dec text (ch "&")).
Proof.
  unfold tokens. cbv zeta. rewrite split_before_ampersand.
  set (flat := replace_char LF SP text).
  assert (HLF : ~ In LF flat)
    by (apply replace_char_no_old; discriminate).
  destruct (cut_before_ampersands_pieces flat)
    as [p [ps [E [Hp [Hps [Hc Hl]]]]]].
  rewrite E.
  set (nonblank := fun b : str =>
         match strip b with [] => false | _ :: _ => true end).
  assert (Hall : Forall (fun q => ~ In LF q /\ ~ In (ch "&") (tl q))
                   (p :: ps)).
  { apply Forall_forall. intros q Hq. split.
    - intros I. apply HLF. rewrite <- Hc. apply in_concat.
      exists q. split; assumption.
    - destruct Hq as [<-|Hq].
      + intros I. apply Hp. destruct p; [contradiction | right; exact I].
      + rewrite Forall_forall in Hps.
        destruct (Hps q Hq) as [r [-> Hr]]. exact Hr. }
  split; [|split].
  - apply Forall_forall. intros t Ht.
    apply in_map_iff in Ht as [q [<- Hq]].
    apply filter_In in Hq as [Hq Hnb].
    rewrite Forall_forall in Hall. destruct (Hall q Hq) as [H1 H2].
    split; [|split].
    + apply strip_is_trimmed. unfold nonblank in Hnb.
      destruct (strip q); [discriminate | discriminate].
    + intros I. apply H1, strip_In, I.
    + apply strip_tail_ampersand, H2.
  - assert (T : Forall (fun t => startswith t (u "&") = true)
                  (map strip (filter nonblank ps))).
    { apply Forall_forall. intros t Ht.
      apply in_map_iff in Ht as [q [<- Hq]].
      apply filter_In in Hq as [Hq _].
      rewrite Forall_forall in Hps. destruct (Hps q Hq) as [r [-> _]].
      destruct (strip_keeps_head (ch "&") r eq_refl) as [r' ->].
      reflexivity. }
    cbn [filter]. destruct (nonblank p); [exact T|].
    destruct (map strip (filter nonblank ps)); [constructor|].
    inversion T; assumption.
  - rewrite length_map.
    pose proof (filter_length_le nonblank (p :: ps)) as L.
    cbn [length] in L. rewrite Hl in L. unfold flat in L.
    rewrite replace_char_count in L by discriminate. exact L.
Qed.

(** ** The splice, whatever the destination holds *)

Lemma contains_app (x sub y : str) : contains (x ++ sub ++ y) sub = true.
Proof.
  unfold contains. induction x as [|a x IH]; cbn [app].
  - rewrite find_eq, startswith_app. reflexivity.
  - rewrite find_eq. destruct (startswith (a :: x ++ sub ++ y) sub);
      [reflexivity|].
    destruct (find (x ++ sub ++ y) sub); [reflexivity | discriminate].
Qed.

(** Whatever happens in [update_readme], no file but the destination
    changes and the output only grows. *)
Lemma update_readme_effects (pf : platform) (path K : str) (w : world) :
  (forall p, p <> path ->
     files (snd (update_readme pf path K w)) p = files w p) /\
  exists out, stdout (snd (update_readme pf path K w)) = stdout w ++ out.
Proof.
  assert (Id : (forall p, p <> path -> files w p = files w p) /\
               exists out, stdout w = stdout w ++ out).
  { split; [reflexivity | exists []; rewrite app_nil_r; reflexivity]. }
  assert (W : forall line,
            (forall p, p <> path ->
               files (snd (print pf line w)) p = files w p) /\
            exists out, stdout (snd (print pf line w)) = stdout w ++ out).
  { intros line. destruct (print_frame pf line w) as [F O].
    split; [intros p _; rewrite F; reflexivity | exact O]. }
  unfold update_readme. cbv zeta.
  destruct (path_exists w path) as [[|]|e]; [|apply W | exact Id].
  destruct (content <- read_text pf w path ;; new_content content K)
    as [[new|]|e]; [|apply W | exact Id].
  destruct (write_text_frame pf w path new) as [F O].
  split; [exact F|]. exists []. rewrite app_nil_r. exact O.
Qed.

(** [update_readme] by the state of its destination. No file but the
    destination ever changes. The call raises, every file as it was, when
    the look-up of the destination fails, when the destination is a
    directory, a file that may not be read or a file whose bytes do not
    decode, and when the destination has both markers and may not be
    written. When the destination is missing, or is read without one of
    the markers, the call does nothing but print the warning. *)
Theorem update_readme_by_destination (pf : platform) (path K : str)
  (w : world) :
  (forall p, p <> path ->
     files (snd (update_readme pf path K w)) p = files w p) /\
  (forall e, files w path = Some (Unreachable e) ->
     update_readme pf path K w = (Raise e, w)) /\
  (files w path = Some Directory ->
     update_readme pf path K w = (Raise (directory_error pf), w)) /\
  (forall writable data, files w path = Some (File false writable data) ->
     update_readme pf path K w = (Raise PermissionError, w)) /\
  (forall writable, files w path = Some (File true writable None) ->
     update_readme pf path K w = (Raise UnicodeDecodeError, w)) /\
  (forall data,
     files w path = Some (File true false (Some data)) ->
     contains (universal_newlines data) start_marker = true ->
     contains (universal_newlines data) end_marker = true ->
     update_readme pf path K w = (Raise PermissionError, w)) /\
  (files w path = None \/
   (exists writable data,
      files w path = Some (File true writable (Some data)) /\
      (contains (universal_newlines data) start_marker = false \/
       contains (universal_newlines data) end_marker = false)) ->
   update_readme pf path K w =
     print pf (u "Warning: Could not find markers in " ++ path) w).
Proof.
  split; [exact (proj1 (update_readme_effects pf path K w))|].
  split; [intros e H; unfold update_readme, path_exists; rewrite H;
          reflexivity|].
  split; [intros H; unfold update_readme, path_exists, read_text; rewrite H;
          reflexivity|].
  split; [intros wr d H; unfold update_readme, path_exists, read_text;
          rewrite H; reflexivity|].
  split; [intros wr H; unfold update_readme, path_exists, read_text;
          rewrite H; reflexivity|].
  split.
  - intros data H Hs He.
    assert (Hr : read_text pf w path = Ret (universal_newlines data))
      by (unfold read_text; rewrite H; reflexivity).
    apply contains_true in Hs as [i Fs]. apply contains_true in He as [j Fe].
    rewrite (update_readme_result pf path K w _ i j Hr Fs Fe).
    unfold write_text. rewrite H. reflexivity.
  - intros [H|[wr [data [H M]]]]; apply update_readme_warns;
      [left; exact H|].
    right. exists (universal_newlines data). split; [|exact M].
    unfold read_text. rewrite H. reflexivity.
Qed.

(** What the splice writes for any destination with both markers that may
    be read and written, [content] being its text as it is read: the text
    before the first start marker, the start marker, the markdown between
    two line feeds, the end marker, and the text between the first end
    marker and the next one (or the end of the file), with the line
    separator of the system for every line feed. The written text has both
    markers again. A text that cannot be encoded leaves the file empty,
    and the call raises. *)
Theorem update_readme_written (pf : platform) (path K : str) (w : world)
  (data : str) :
  files w path = Some (File true true (Some data)) ->
  contains (universal_newlines data) start_marker = true ->
  contains (universal_newlines data) end_marker = true ->
  exists j new,
    find (universal_newlines data) end_marker = Some j /\
    new = up_to (universal_newlines data) start_marker ++ start_marker
            ++ [LF] ++ K ++ [LF] ++ end_marker
            ++ up_to (skipn (j + length end_marker) (universal_newlines data))
                 end_marker /\
    contains new start_marker = true /\
    contains new end_marker = true /\
    (file_accepts pf new = true ->
     update_readme pf path K w =
       (Ret tt,
        store w path (File true true (Some (newline_out pf new))))) /\
    (file_accepts pf new = false ->
     update_readme pf path K w =
       (Raise UnicodeEncodeError,
        store w path (File true true (Some [])))).
Proof.
  intros Hf Hs He.
  assert (Hr : read_text pf w path = Ret (universal_newlines data))
    by (unfold read_text; rewrite Hf; reflexivity).
  destruct (contains_true _ _ Hs) as [i Fs].
  destruct (contains_true _ _ He) as [j Fe].
  pose proof (update_readme_result pf path K w _ i j Hr Fs Fe) as R.
  rewrite (write_text_file pf w path _ true (Some data) Hf) in R.
  exists j. eexists. split; [exact Fe|]. split; [reflexivity|].
  split; [apply contains_app|].
  split.
  { match goal with
    | |- contains (?a ++ ?s ++ ?l1 ++ ?k ++ ?l2 ++ end_marker ++ ?t) _ = true =>
        replace (a ++ s ++ l1 ++ k ++ l2 ++ end_marker ++ t)
          with ((a ++ s ++ l1 ++ k ++ l2) ++ end_marker ++ t)
          by (rewrite <- !app_assoc; reflexivity)
    end.
    apply contains_app. }
  split; intros A; rewrite A in R; exact R.
Qed.

(** ** The markdown document and the run of the script, in general *)

Section Document.

Variable db : unicode_db.
Variable pf : platform.
Variable path_name : str -> str.

(** The loop of [generate_markdown] appends, layer by layer, the diagram
    and an empty line. *)
Lemma generate_markdown_blocks (layers : list (str * list str))
  (blocks : list str) :
  Forall2 (fun layer block =>
             format_corne_layer db (snd layer) (fst layer) = Ret block)
    layers blocks ->
  forall output,
    fold_left
      (fun acc layer =>
         output <- acc ;;
         let '(layer_name, bindings) := layer in
         block <- format_corne_layer db bindings layer_name ;;
         Ret (output ++ [block; []]))
      layers (Ret output)
    = Ret (output ++ flat_map (fun b => [b; []]) blocks).
Proof.
  induction 1 as [|[name bindings] block layers blocks Hb _ IH];
    intros output; cbn [fold_left flat_map bind].
  - rewrite app_nil_r. reflexivity.
  - cbn [fst snd] in Hb. rewrite Hb. cbn [bind].
    rewrite IH, <- app_assoc. reflexivity.
Qed.

(** The markdown document. A keymap file that cannot be read raises what
    the reading raises, and an extractor that raises (the number of a
    layer is too long for [int]) raises the same from here; there is no
    document then. Otherwise the document is the heading, the attribution
    and the legend, each followed by an empty line, then for every layer
    that [parse_keymap] returns, in that order, its diagram and an empty
    line. *)
Theorem generate_markdown_document (w : world) (keymap_path : str) :
  (forall e, read_text pf w keymap_path = Raise e ->
   generate_markdown db pf path_name w keymap_path = Raise e) /\
  (forall text e,
   read_text pf w keymap_path = Ret text ->
   parse_keymap db pf text = Raise e ->
   generate_markdown db pf path_name w keymap_path = Raise e) /\
  (forall text layers,
   read_text pf w keymap_path = Ret text ->
   parse_keymap db pf text = Ret layers ->
   exists blocks,
     Forall2 (fun layer block =>
                format_corne_layer db (snd layer) (fst layer) = Ret block)
       layers blocks /\
     generate_markdown db pf path_name w keymap_path =
       Ret (join [LF]
              ([ u "## Keymap";
                 [];
                 u "*Auto-generated from [`" ++ path_name keymap_path
                   ++ u "`](config/" ++ path_name keymap_path ++ u ")*";
                 [];
                 u "**Legend:** `▽` = Transparent (uses key from lower layer), `L#` = Momentary layer switch";
                 [] ]
               ++ flat_map (fun b => [b; []]) blocks))).
Proof.
  split; [|split].
  - intros e Hf. unfold generate_markdown. rewrite Hf. reflexivity.
  - intros text e Hf Hl. unfold generate_markdown. rewrite Hf. cbn [bind].
    rewrite Hl. reflexivity.
  - intros text layers Hf Hl.
    destruct (for_each_total
                (fun layer : str * list str =>
                   format_corne_layer db (snd layer) (fst layer)) layers)
      as [blocks [_ F]].
    { intros [name bindings] _. apply format_corne_layer_returns. }
    exists blocks. split; [exact F|].
    unfold generate_markdown. rewrite Hf. cbn [bind].
    rewrite Hl. cbn [bind].
    rewrite (generate_markdown_blocks layers blocks F). reflexivity.
Qed.

(** A text that lacks an opening brace, or an opening or a closing angle
    bracket, has no layer: the extractor returns the empty dictionary and
    the document has its heading and legend only. *)
Theorem no_layer_block_no_diagram (w : world) (keymap_path text : str) :
  ~ In (ch "{") text \/ ~ In (ch "<") text \/ ~ In (ch ">") text ->
  parse_keymap db pf text = Ret [] /\
  (read_text pf w keymap_path = Ret text ->
   generate_markdown db pf path_name w keymap_path =
     Ret (join [LF]
            [ u "## Keymap";
              [];
              u "*Auto-generated from [`" ++ path_name keymap_path
                ++ u "`](config/" ++ path_name keymap_path ++ u ")*";
              [];
              u "**Legend:** `▽` = Transparent (uses key from lower layer), `L#` = Momentary layer switch";
              [] ])).
Proof.
  intros H.
  assert (M : fst (Re.finditer (layer_pattern db) (strip_comments text)) = []).
  { destruct (fst (Re.finditer (layer_pattern db) (strip_comments text)))
      as [|f fs] eqn:E; [reflexivity|]. exfalso.
    destruct (layer_matches_sound db (strip_comments text) f)
      as [before [rest [Es M]]]; [rewrite E; left; reflexivity|].
    apply layer_pattern_match in M
      as [nm [ws1 [mid [ws2 [ws3 [ws4 [cp [ws5 [Et _]]]]]]]]].
    rewrite Et in Es.
    assert (I : forall c,
               c = ch "{" \/ c = ch "<" \/ c = ch ">" -> In c text).
    { intros c Hc.
      apply (subsequence_In _ _ c (strip_comments_subsequence text)).
      rewrite Es.
      change (u "{") with [ch "{"]. change (u "<") with [ch "<"].
      change (u ">") with [ch ">"].
      rewrite !in_app_iff. cbn [In].
      destruct Hc as [-> | [-> | ->]]; intuition. }
    destruct H as [H|[H|H]]; apply H, I; auto. }
  assert (P : parse_keymap db pf text = Ret []).
  { unfold parse_keymap, Re.findall2. rewrite M. reflexivity. }
  split; [exact P|].
  intros Hf. unfold generate_markdown. rewrite Hf. cbn [bind].
  rewrite P. reflexivity.
Qed.

(** A run that cannot get its document fails before it has any effect:
    with fewer than two elements on the command line it prints the usage
    line (if the output can encode it) and ends with status 1; when the
    keymap file cannot be read, or holds a layer of at least 36 tokens
    whose number is too long for [int], it ends with status 1, nothing
    printed and no file changed, whatever the destination is. *)
Theorem main_fails_early (argv : list str) (w : world) :
  (length argv < 2 ->
   fst (main db pf path_name argv w) = 1 /\
   files (snd (main db pf path_name argv w)) = files w /\
   (stdout_accepts pf
      (u "Usage: generate_keymap.py <keymap_file> [readme_file]") = true ->
    stdout (snd (main db pf path_name argv w)) =
      stdout w
        ++ [u "Usage: generate_keymap.py <keymap_file> [readme_file]"])) /\
  (forall prog keymap rest e,
     argv = prog :: keymap :: rest ->
     read_text pf w keymap = Raise e ->
     main db pf path_name argv w = (1, w)) /\
  (forall prog keymap rest text name cap,
     argv = prog :: keymap :: rest ->
     read_text pf w keymap = Ret text ->
     In (name, cap) (Re.findall2 (layer_pattern db) (strip_comments text)) ->
     36 <= length (tokens cap) ->
     number_too_long db pf name = true ->
     main db pf path_name argv w = (1, w)).
Proof.
  split; [|split].
  - intros L. unfold main. apply Nat.ltb_lt in L. rewrite L.
    cbn [fst snd].
    split; [reflexivity|].
    split; [apply print_frame|].
    intros A. unfold print. rewrite A. reflexivity.
  - intros prog keymap rest e -> Hr. unfold main.
    cbn [length Nat.ltb Nat.leb index nth_error bind].
    rewrite (proj1 (generate_markdown_document w keymap) e Hr). reflexivity.
  - intros prog keymap rest text name cap -> Hr Hin L Hlong. unfold main.
    cbn [length Nat.ltb Nat.leb index nth_error bind].
    rewrite (proj1 (proj2 (generate_markdown_document w keymap))
               text ValueError Hr); [reflexivity|].
    destruct (collected db text) as [_ [_ Kept]].
    exact (parse_keymap_raises db pf text name (Kept name cap Hin L) Hlong).
Qed.

(** A run changes no file but its destination, the third element of the
    command line, and only adds to what has been printed. *)
Theorem main_touches_only_destination (argv : list str) (w : world) :
  (forall p, nth_error argv 2 <> Some p ->
   files (snd (main db pf path_name argv w)) p = files w p) /\
  exists out, stdout (snd (main db pf path_name argv w)) = stdout w ++ out.
Proof.
  assert (Exit : forall o : result unit * world,
            snd (exit_status o) = snd o)
    by (intros [[[]|e] w']; reflexivity).
  assert (Same : forall line,
            (forall p : str, files (snd (print pf line w)) p = files w p) /\
            exists out, stdout (snd (print pf line w)) = stdout w ++ out).
  { intros line. destruct (print_frame pf line w) as [F O].
    split; [intros p; rewrite F; reflexivity | exact O]. }
  assert (Id : (forall p : str, files w p = files w p) /\
               exists out, stdout w = stdout w ++ out).
  { split; [reflexivity | exists []; rewrite app_nil_r; reflexivity]. }
  assert (G : forall A B : Prop, (forall p : str, A) /\ B ->
              (forall p : str, nth_error argv 2 <> Some p -> A) /\ B)
    by tauto.
  destruct argv as [|prog [|keymap more]];
    [unfold main; cbn [length Nat.ltb Nat.leb snd];
     destruct (Same (u "Usage: generate_keymap.py <keymap_file> [readme_file]"))
       as [S1 S2]; split; [intros; apply S1 | exact S2] ..|].
  unfold main. cbn [length Nat.ltb Nat.leb index nth_error bind].
  destruct (generate_markdown db pf path_name w keymap) as [markdown|e];
    [|destruct Id as [I1 I2]; split; [intros; apply I1 | exact I2]].
  destruct more as [|readme more].
  - cbn [length Nat.leb]. rewrite Exit. destruct (Same markdown) as [S1 S2].
    split; [intros; apply S1 | exact S2].
  - cbn [length Nat.leb index nth_error bind].
    destruct (update_readme_effects pf readme markdown w) as [Fr [out Ho]].
    destruct (update_readme pf readme markdown w) as [[[]|e] w'];
      cbn [snd] in *.
    + rewrite Exit.
      destruct (print_frame pf (u "Updated " ++ readme) w') as [F [out' O]].
      split.
      * intros p Hp. rewrite F. apply Fr. intros ->. apply Hp. reflexivity.
      * exists (out ++ out'). rewrite O, Ho, <- app_assoc. reflexivity.
    + split.
      * intros p Hp. apply Fr. intros ->. apply Hp. reflexivity.
      * exists out. exact Ho.
Qed.

(** Splice mode from end to end: the keymap file is read and the
    extractor returns; the destination may be read and written and its
    text has the end marker once, after the first start marker; the new
    text of the destination and the [Updated] line can be encoded. Then
    the run puts the generated document between the markers, prints the
    [Updated] line and ends with status 0. *)
Theorem main_splices_document
  (w : world) (prog keymap readme text : str)
  (layers : list (str * list str)) (more : list str)
  (data before between after : str) :
  read_text pf w keymap = Ret text ->
  parse_keymap db pf text = Ret layers ->
  files w readme = Some (File true true (Some data)) ->
  universal_newlines data
    = before ++ start_marker ++ between ++ end_marker ++ after ->
  contains before start_marker = false ->
  contains before end_marker = false ->
  contains between end_marker = false ->
  contains after end_marker = false ->
  (forall markdown,
     generate_markdown db pf path_name w keymap = Ret markdown ->
     file_accepts pf
       (before ++ start_marker ++ [LF] ++ markdown ++ [LF] ++ end_marker
          ++ after) = true) ->
  stdout_accepts pf (u "Updated " ++ readme) = true ->
  exists markdown,
    generate_markdown db pf path_name w keymap = Ret markdown /\
    main db pf path_name (prog :: keymap :: readme :: more) w =
      (0,
       {| files :=
            files
              (store w readme
                 (File true true
                    (Some (newline_out pf
                             (before ++ start_marker ++ [LF] ++ markdown
                                ++ [LF] ++ end_marker ++ after)))));
          stdout := stdout w ++ [u "Updated " ++ readme] |}).
Proof.
  intros Hk Hl Hf Ed Hbs Hbe Hm Ha Acc Au.
  destruct (generate_markdown_returns db pf path_name w keymap text layers
              Hk Hl) as [markdown G].
  exists markdown. split; [exact G|].
  assert (Hr : read_text pf w readme
               = Ret (before ++ start_marker ++ between ++ end_marker
                        ++ after)).
  { unfold read_text. rewrite Hf, Ed. reflexivity. }
  unfold main. cbn [length Nat.ltb Nat.leb index nth_error bind].
  rewrite G.
  rewrite (update_readme_splices pf readme markdown w before between after
             Hr Hbs Hbe Hm Ha).
  rewrite (write_text_file pf w readme _ true (Some data) Hf).
  rewrite (Acc markdown G). unfold print. cbn [store files stdout].
  rewrite Au. reflexivity.
Qed.

(** Print mode: with exactly the keymap file on the command line, that
    file read and the extractor returning, the run prints the generated
    document, nothing else, and ends with status 0 when the output can
    encode the document; when it cannot, the run prints nothing and ends
    with status 1. No file changes. *)
Theorem main_prints_document (w : world) (prog keymap text : str)
  (layers : list (str * list str)) :
  read_text pf w keymap = Ret text ->
  parse_keymap db pf text = Ret layers ->
  exists markdown,
    generate_markdown db pf path_name w keymap = Ret markdown /\
    (stdout_accepts pf markdown = true ->
     main db pf path_name [prog; keymap] w =
       (0, {| files := files w; stdout := stdout w ++ [markdown] |})) /\
    (stdout_accepts pf markdown = false ->
     main db pf path_name [prog; keymap] w = (1, w)).
Proof.
  intros Hk Hl.
  destruct (generate_markdown_returns db pf path_name w keymap text layers
              Hk Hl) as [markdown G].
  exists markdown. split; [exact G|].
  unfold main. cbn [length Nat.ltb Nat.leb index nth_error bind].
  rewrite G. unfold print.
  split; intros A; rewrite A; reflexivity.
Qed.

End Document.

(** ** Layers that share an identifier *)

Lemma dict_get_set_same {V : Type} (d : list (str * V)) key v :
  dict_get (dict_set d key v) key = Some v.
Proof.
  induction d as [|[k x] d IH]; cbn [dict_set dict_get].
  - rewrite str_eqb_refl. reflexivity.
  - destruct (str_eqb k key) eqn:E; cbn [dict_get]; rewrite E;
      [reflexivity | exact IH].
Qed.

Lemma dict_get_set_other {V : Type} (d : list (str * V)) key v key' :
  key' <> key -> dict_get (dict_set d key v) key' = dict_get d key'.
Proof.
  intros Hne. induction d as [|[k x] d IH]; cbn [dict_set dict_get].
  - destruct (str_eqb key key') eqn:E; [|reflexivity].
    apply str_eqb_eq in E. congruence.
  - destruct (str_eqb k key) eqn:E; cbn [dict_get].
    + apply str_eqb_eq in E. subst k.
      destruct (str_eqb key key') eqn:E'; [|reflexivity].
      apply str_eqb_eq in E'. congruence.
    + destruct (str_eqb k key'); [reflexivity | exact IH].
Qed.

Lemma keep_full_layer_short (name : str) (matches : list (str * str)) :
  forall acc : list (str * list str),
  (forall text, In (name, text) matches -> length (tokens text) < 36) ->
  dict_get (fold_left keep_full_layer matches acc) name = dict_get acc name.
Proof.
  induction matches as [|[nm text] matches IH]; intros acc H;
    cbn [fold_left]; [reflexivity|].
  rewrite IH by (intros t Ht; apply H; right; exact Ht).
  change (keep_full_layer acc (nm, text))
    with (if 36 <=? length (tokens text)
          then dict_set acc nm (tokens text) else acc).
  destruct (36 <=? length (tokens text)) eqn:E; [|reflexivity].
  apply Nat.leb_le in E. apply dict_get_set_other. intros <-.
  specialize (H text (or_introl eq_refl)). lia.
Qed.

Lemma NoDup_keys_functional {V : Type} (d : list (str * V)) key (v v' : V) :
  NoDup (map fst d) -> In (key, v) d -> In (key, v') d -> v = v'.
Proof.
  induction d as [|[k x] d IH]; intros ND H H'; [contradiction|].
  cbn [map fst] in ND. inversion ND as [|? ? Hk ND']; subst.
  destruct H as [H|H]; destruct H' as [H'|H'].
  - congruence.
  - injection H as -> ->. contradiction Hk.
    apply in_map_iff. exists (key, v'). auto.
  - injection H' as -> ->. contradiction Hk.
    apply in_map_iff. exists (key, v). auto.
  - exact (IH ND' H H').
Qed.

(** When several blocks with one identifier have at least 36 tokens, the
    layer that is returned for the identifier has the tokens of the last
    of them, and the identifier is returned once. The extractor returns
    when [int] accepts the number of every layer of at least 36 tokens. *)
Theorem last_full_block_wins (db : unicode_db) (pf : platform)
  (content name text : str) (earlier later : list (str * str)) :
  Re.findall2 (layer_pattern db) (strip_comments content)
    = earlier ++ (name, text) :: later ->
  36 <= length (tokens text) ->
  (forall text', In (name, text') later -> length (tokens text') < 36) ->
  (forall name' text',
     In (name', text') (earlier ++ (name, text) :: later) ->
     36 <= length (tokens text') -> number_too_long db pf name' = false) ->
  exists layers,
    parse_keymap db pf content = Ret layers /\
    In (name, tokens text) layers /\
    (forall bindings, In (name, bindings) layers -> bindings = tokens text).
Proof.
  intros Hm Hfull Hlater Short.
  destruct (collected db content) as [ND [Full _]].
  destruct (parse_keymap_result db pf content) as [layers [E [_ [I [P _]]]]].
  { intros n Hn. apply in_map_iff in Hn as [[n' b] [<- Hb]].
    destruct (Full n' b Hb) as [L [_ [t [Ht ->]]]].
    rewrite Hm in Ht. exact (Short n' t Ht L). }
  set (matches := Re.findall2 (layer_pattern db) (strip_comments content))
    in *.
  assert (G : dict_get (collect_layers matches) name = Some (tokens text)).
  { unfold collect_layers. rewrite Hm, fold_left_app. cbn [fold_left].
    rewrite keep_full_layer_short by exact Hlater.
    change (keep_full_layer (fold_left keep_full_layer earlier [])
              (name, text))
      with (if 36 <=? length (tokens text)
            then dict_set (fold_left keep_full_layer earlier []) name
                   (tokens text)
            else fold_left keep_full_layer earlier []).
    apply Nat.leb_le in Hfull. rewrite Hfull. apply dict_get_set_same. }
  apply dict_get_In in G.
  assert (U : forall b, In (name, b) layers -> b = tokens text).
  { intros b Hb.
    exact (NoDup_keys_functional _ name b (tokens text) ND (I _ _ Hb) G). }
  exists layers. split; [exact E|]. split; [|exact U].
  assert (Hn : In name (map fst layers)).
  { eapply Permutation_in; [exact P|].
    apply in_map_iff. exists (name, tokens text). auto. }
  apply in_map_iff in Hn as [[n b] [En Hb]]. cbn [fst] in En. subst n.
  rewrite <- (U b Hb). exact Hb.
Qed.

(** ** Layers that share a number *)

Lemma insert_by_key_filter {A : Type} (k : N) (x : N * A) (l : list (N * A)) :
  filter (fun kx => (fst kx =? k)%N) (insert_by_key x l)
    = filter (fun kx => (fst kx =? k)%N) (x :: l).
Proof.
  induction l as [|y l IH]; [reflexivity|]. cbn [insert_by_key].
  destruct (fst y <? fst x)%N eqn:E; [|reflexivity].
  apply N.ltb_lt in E. cbn [filter] in *. rewrite IH.
  destruct (fst x =? k)%N eqn:Ex; [|reflexivity].
  apply N.eqb_eq in Ex.
  destruct (fst y =? k)%N eqn:Ey; [|reflexivity].
  apply N.eqb_eq in Ey. lia.
Qed.

(** The sort is stable: the items with one key keep their order. *)
Lemma sort_by_key_stable {A : Type} (k : N) (l : list (N * A)) :
  filter (fun kx => (fst kx =? k)%N) (sort_by_key l)
    = filter (fun kx => (fst kx =? k)%N) l.
Proof.
  induction l as [|x l IH]; [reflexivity|]. cbn [sort_by_key].
  rewrite insert_by_key_filter. cbn [filter]. rewrite IH. reflexivity.
Qed.

Lemma sorted_stable {A : Type} (key : A -> result N) (items names : list A)
  (k : N) :
  sorted key items = Ret names ->
  filter (fun x => match key x with Ret n => (n =? k)%N | Raise _ => false end)
         names
  = filter (fun x => match key x with Ret n => (n =? k)%N | Raise _ => false end)
           items.
Proof.
  unfold sorted.
  destruct (for_each (fun x => k0 <- key x ;; Ret (k0, x)) items)
    as [keyed|e] eqn:E; [|discriminate].
  cbn [bind]. intros H. injection H as <-.
  assert (K : map snd keyed = items /\
              Forall (fun kx => key (snd kx) = Ret (fst kx)) keyed).
  { revert keyed E. induction items as [|x items IH]; intros keyed E.
    - injection E as <-. split; constructor.
    - cbn [for_each] in E. destruct (key x) as [n|e] eqn:Kx; [|discriminate].
      cbn [bind] in E.
      destruct (for_each (fun x => k0 <- key x ;; Ret (k0, x)) items)
        as [keyed'|e] eqn:E'; [|discriminate].
      cbn [bind] in E. injection E as <-.
      destruct (IH keyed' eq_refl) as [M F].
      split; [cbn [map snd]; f_equal; exact M | constructor; assumption]. }
  destruct K as [M F].
  assert (P : forall l : list (N * A),
            Forall (fun kx => key (snd kx) = Ret (fst kx)) l ->
            filter (fun x => match key x with
                             | Ret n => (n =? k)%N
                             | Raise _ => false
                             end) (map snd l)
            = map snd (filter (fun kx => (fst kx =? k)%N) l)).
  { induction 1 as [|kx l Hkx _ IH]; [reflexivity|].
    cbn [map filter]. rewrite Hkx, IH.
    destruct (fst kx =? k)%N; reflexivity. }
  rewrite P
    by (eapply Permutation_Forall; [apply sort_by_key_perm | exact F]).
  rewrite sort_by_key_stable, <- P by exact F. rewrite M. reflexivity.
Qed.

Lemma filter_ext_in_str (f g : str -> bool) (l : list str) :
  (forall x, In x l -> f x = g x) -> filter f l = filter g l.
Proof.
  induction l as [|x l IH]; intros H; [reflexivity|]. cbn [filter].
  rewrite (H x (or_introl eq_refl)), IH; [reflexivity|].
  intros y Hy. apply H. right; exact Hy.
Qed.

(** Identifiers that spell the same number, such as [Layer_1] and
    [layer_01], are returned in the order in which the first loop
    recorded them: the sort does not swap them. The extractor returns
    when [int] accepts the number of every layer of at least 36 tokens. *)
Theorem equal_numbers_keep_order (db : unicode_db) (pf : platform)
  (content : str) (k : N) :
  (forall name text,
     In (name, text)
        (Re.findall2 (layer_pattern db) (strip_comments content)) ->
     36 <= length (tokens text) -> number_too_long db pf name = false) ->
  exists layers,
    parse_keymap db pf content = Ret layers /\
    filter (fun name => (number_of db name =? k)%N) (map fst layers)
    = filter (fun name => (number_of db name =? k)%N)
        (map fst
           (collect_layers
              (Re.findall2 (layer_pattern db) (strip_comments content)))).
Proof.
  intros Short.
  destruct (collected db content) as [_ [Full _]].
  assert (Short' : forall n,
            In n (map fst
                    (collect_layers
                       (Re.findall2 (layer_pattern db)
                          (strip_comments content)))) ->
            number_too_long db pf n = false).
  { intros n Hn. apply in_map_iff in Hn as [[n' b] [<- Hb]].
    destruct (Full n' b Hb) as [L [_ [t [Ht ->]]]].
    exact (Short n' t Ht L). }
  destruct (parse_keymap_result db pf content Short')
    as [layers [E [Es [_ [P _]]]]].
  exists layers. split; [exact E|].
  set (kept := map fst
                 (collect_layers
                    (Re.findall2 (layer_pattern db)
                       (strip_comments content)))) in *.
  assert (Num : forall x, In x kept ->
            match layer_number db pf x with
            | Ret n => (n =? k)%N
            | Raise _ => false
            end = (number_of db x =? k)%N).
  { intros x Hx. pose proof (Short' x Hx) as S.
    apply in_map_iff in Hx as [[n b] [<- Hb]].
    destruct (Full n b Hb) as [_ [Hid _]]. cbn [fst] in *.
    rewrite (layer_number_identifier db pf n Hid), S. reflexivity. }
  pose proof (sorted_stable (layer_number db pf) _ _ k Es) as St.
  rewrite (filter_ext_in_str _ _ kept Num) in St.
  rewrite (filter_ext_in_str _ (fun name => (number_of db name =? k)%N)
             (map fst layers)) in St; [exact St|].
  intros x Hx. apply Num.
  eapply Permutation_in; [symmetry; exact P | exact Hx].
Qed.

(** ** The further properties at concrete inputs *)

Lemma parse_binding_ignores_padding_witness :
  parse_binding ascii_db (u "  &&kp A ") = parse_binding ascii_db (u "kp A").
Proof.
  exact (proj2 (parse_binding_ignores_padding ascii_db
                  (u "  ") (u " ") (u "kp A") 2
                  eq_refl eq_refl eq_refl eq_refl)).
Defined.

Lemma parse_binding_space_after_ampersand_witness :
  parse_binding ascii_db (u "& mo 1") = Ret (u " mo 1").
Proof.
  exact (parse_binding_space_after_ampersand ascii_db (u "& mo 1")
           (ch " ") (u "mo 1") eq_refl eq_refl).
Defined.

Lemma known_labels_fit_witness :
  length (u "Enter") <= 6 /\ length (fmt (u "Enter")) = 7.
Proof.
  apply (known_labels_fit ascii_db (u "&kp ENTER") (u "Enter"));
    try reflexivity.
  left. discriminate.
Defined.

Lemma diagram_lines_aligned_witness :
  exists lines,
    format_corne_layer ascii_db [u "&kp A"; u "&mo 1"] (u "layer_0")
      = Ret (join [LF] lines) /\
    map (@length N) lines
      = [11; 3; 105; 105; 105; 105; 105; 105; 105; 81; 81; 3].
Proof.
  apply (diagram_lines_aligned ascii_db [u "&kp A"; u "&mo 1"] (u "layer_0")).
  intros b l [<- | [<- | []]] H; vm_compute in H;
    injection H as <-; vm_compute; lia.
Defined.

Lemma strip_comments_only_deletes_witness :
  strip_comments (u "layer_0 { bindings = <&kp A>; };")
    = u "layer_0 { bindings = <&kp A>; };".
Proof.
  apply (proj2 (proj2 (proj2 (strip_comments_only_deletes
                                (u "layer_0 { bindings = <&kp A>; };"))))).
  vm_compute. intuition discriminate.
Defined.

Lemma update_readme_by_destination_witness :
  update_readme posix_utf8 README (u "K")
    (world_of [(README, File true true None)])
  = (Raise UnicodeDecodeError, world_of [(README, File true true None)]) /\
  update_readme posix_utf8 README (u "K") (world_of [(README, Directory)])
  = (Raise IsADirectoryError, world_of [(README, Directory)]) /\
  update_readme posix_utf8 README (u "K")
    (world_of [(README, File true false (Some readme_marked))])
  = (Raise PermissionError,
     world_of [(README, File true false (Some readme_marked))]) /\
  update_readme posix_utf8 README (u "K") (world_of [])
  = (Ret tt,
     {| files := files (world_of []);
        stdout := [u "Warning: Could not find markers in README.md"] |}).
Proof.
  refine (conj _ (conj _ (conj _ _))).
  - exact (proj1 (proj2 (proj2 (proj2 (proj2
             (update_readme_by_destination posix_utf8 README (u "K")
                (world_of [(README, File true true None)]))))))
             true eq_refl).
  - exact (proj1 (proj2 (proj2
             (update_readme_by_destination posix_utf8 README (u "K")
                (world_of [(README, Directory)]))))
             eq_refl).
  - exact (proj1 (proj2 (proj2 (proj2 (proj2 (proj2
             (update_readme_by_destination posix_utf8 README (u "K")
                (world_of [(README, File true false (Some readme_marked))])))))))
             readme_marked eq_refl eq_refl eq_refl).
  - exact (proj2 (proj2 (proj2 (proj2 (proj2 (proj2
             (update_readme_by_destination posix_utf8 README (u "K")
                (world_of [])))))))
             (or_introl eq_refl)).
Defined.

Lemma update_readme_written_witness :
  exists new,
    update_readme posix_utf8 README (u "K") (world_with README readme_two_ends)
      = (Ret tt,
         store (world_with README readme_two_ends) README (text_file new)) /\
    contains new start_marker = true /\ contains new end_marker = true.
Proof.
  destruct (update_readme_written posix_utf8 README (u "K")
              (world_with README readme_two_ends) readme_two_ends
              eq_refl eq_refl eq_refl)
    as [j [new [Fj [En [Cs [Ce [R _]]]]]]].
  exists new. split; [|split; assumption].
  injection Fj as <-. subst new. exact (R eq_refl).
Defined.

Lemma generate_markdown_document_witness :
  generate_markdown ascii_db posix_utf8 (fun p => p)
    (world_with README readme_marked) KEYMAP = Raise FileNotFoundError /\
  generate_markdown ascii_db posix_utf8 (fun p => p)
    (world_with KEYMAP long_number_keymap) KEYMAP = Raise ValueError.
Proof.
  split.
  - exact (proj1 (generate_markdown_document ascii_db posix_utf8 (fun p => p)
                    (world_with README readme_marked) KEYMAP)
             FileNotFoundError eq_refl).
  - apply (proj1 (proj2 (generate_markdown_document ascii_db posix_utf8
                           (fun p => p)
                           (world_with KEYMAP long_number_keymap) KEYMAP))
             long_number_keymap ValueError eq_refl).
    vm_compute. reflexivity.
Defined.

Lemma no_layer_block_no_diagram_witness :
  parse_keymap ascii_db posix_utf8 (u "/ { keymap { }; };") = Ret [].
Proof.
  apply (proj1 (no_layer_block_no_diagram ascii_db posix_utf8 (fun p => p)
                  (world_with KEYMAP (u "/ { keymap { }; };")) KEYMAP
                  (u "/ { keymap { }; };")
                  ltac:(right; left; vm_compute; intuition discriminate))).
Defined.

Lemma main_fails_early_witness :
  main ascii_db posix_utf8 (fun p => p)
    [u "generate_keymap.py"; KEYMAP; README]
    (world_with README readme_marked)
  = (1, world_with README readme_marked) /\
  main ascii_db posix_utf8 (fun p => p)
    [u "generate_keymap.py"; KEYMAP; README]
    (fun_world KEYMAP long_number_keymap README readme_marked)
  = (1, fun_world KEYMAP long_number_keymap README readme_marked).
Proof.
  split.
  - exact (proj1 (proj2 (main_fails_early ascii_db posix_utf8 (fun p => p)
                           [u "generate_keymap.py"; KEYMAP; README]
                           (world_with README readme_marked)))
             (u "generate_keymap.py") KEYMAP [README] FileNotFoundError
             eq_refl eq_refl).
  - apply (proj2 (proj2 (main_fails_early ascii_db posix_utf8 (fun p => p)
                           [u "generate_keymap.py"; KEYMAP; README]
                           (fun_world KEYMAP long_number_keymap
                              README readme_marked)))
             (u "generate_keymap.py") KEYMAP [README] long_number_keymap
             long_number (sample_bindings 36) eq_refl eq_refl).
    + vm_compute. left; reflexivity.
    + apply Nat.leb_le. vm_compute. reflexivity.
    + vm_compute. reflexivity.
Defined.

Lemma main_splices_document_witness :
  exists markdown,
    main ascii_db posix_utf8 (fun p => p)
      [u "generate_keymap.py"; KEYMAP; README]
      (fun_world KEYMAP sample_keymap README readme_marked)
    = (0,
       {| files :=
            files
              (store (fun_world KEYMAP sample_keymap README readme_marked)
                 README
                 (text_file
                    (u "A" ++ start_marker ++ [LF] ++ markdown ++ [LF]
                       ++ end_marker ++ u "C")));
          stdout := [u "Updated README.md"] |}).
Proof.
  destruct (parse_keymap ascii_db posix_utf8 sample_keymap)
    as [layers|e] eqn:P; [|vm_compute in P; discriminate P].
  destruct (main_splices_document ascii_db posix_utf8 (fun p => p)
              (fun_world KEYMAP sample_keymap README readme_marked)
              (u "generate_keymap.py") KEYMAP README sample_keymap layers []
              readme_marked (u "A") (u "B") (u "C")
              eq_refl P eq_refl eq_refl eq_refl eq_refl eq_refl eq_refl)
    as [markdown [_ M]].
  - intros markdown G. vm_compute in G. injection G as <-.
    vm_compute. reflexivity.
  - reflexivity.
  - exists markdown.
    rewrite (newline_out_posix posix_utf8 _ eq_refl) in M. exact M.
Defined.

Lemma main_prints_document_witness :
  exists markdown,
    main ascii_db posix_utf8 (fun p => p) [u "generate_keymap.py"; KEYMAP]
      (world_with KEYMAP sample_keymap)
    = (0, {| files := files (world_with KEYMAP sample_keymap);
             stdout := [markdown] |}).
Proof.
  destruct (parse_keymap ascii_db posix_utf8 sample_keymap)
    as [layers|e] eqn:P; [|vm_compute in P; discriminate P].
  destruct (main_prints_document ascii_db posix_utf8 (fun p => p)
              (world_with KEYMAP sample_keymap)
              (u "generate_keymap.py") KEYMAP sample_keymap layers eq_refl P)
    as [markdown [G [M _]]].
  exists markdown. apply M.
  vm_compute in G. injection G as <-. vm_compute. reflexivity.
Defined.

Lemma last_full_block_wins_witness :
  exists layers,
    parse_keymap ascii_db posix_utf8 sample_duplicates = Ret layers /\
    In (u "layer_1", tokens (sample_bindings 37)) layers.
Proof.
  destruct (last_full_block_wins ascii_db posix_utf8 sample_duplicates
              (u "layer_1")
              (sample_bindings 37) [(u "layer_1", sample_bindings 36)] [])
    as [layers [E [I _]]].
  - vm_compute. reflexivity.
  - apply Nat.leb_le. vm_compute. reflexivity.
  - intros text' [].
  - intros name' text' [H|[H|[]]] _; injection H as <- _; reflexivity.
  - exists layers. split; assumption.
Defined.

Lemma equal_numbers_keep_order_witness :
  exists layers,
    parse_keymap ascii_db posix_utf8 sample_same_number = Ret layers /\
    map fst layers = [u "Layer_1"; u "layer_01"].
Proof.
  destruct (equal_numbers_keep_order ascii_db posix_utf8 sample_same_number
              1%N)
    as [layers [E F]].
  - intros name text Hin _. vm_compute in Hin.
    destruct Hin as [H|[H|[]]]; injection H as <- _; reflexivity.
  - exists layers. split; [exact E|].
    assert (E' := E). vm_compute in E'. injection E' as <-.
    vm_compute in F. vm_compute. reflexivity.
Defined.
